(** * taskpy: the polite fetch orchestrator of [async_scraper.py]

    A shallow embedding of the orchestration layer of [async_scraper.py]
    (the [RateLimiter], [fetch], [RobotsCache], [_scrape_one] and
    [scrape_many]; [RateLimiter.wait] of [async_imdb.py] is the same text).

    Coroutines are written in a small monad of asyncio effects, [prog].
    Two interpreters give them meaning:
    - [alone] runs one coroutine to completion against a scripted network,
      with nobody else on the event loop;
    - [step] is one turn of the event loop on a pool of coroutines: the
      chosen task is resumed and runs, without interruption, up to its next
      suspension point.

    Time is the event loop's clock in seconds, as a rational number.

    Beside the orchestration: the command-line helpers of
    [async_scraper.py] ([parse_selector_arg], [_load_selectors],
    [_read_urls_from_file], the rows of [write_csv]), its [parse_html] and
    [parse_chart_links] of [async_imdb.py] over what BeautifulSoup gives,
    and [fetch] of [async_imdb.py]. *)

From Stdlib Require Import QArith Lqa ZArith Ascii String List Bool Lia.
From Stdlib Require Import Decimal DecimalString.
From stdpp Require Import gmap strings.
Import ListNotations.

Open Scope string_scope.
Open Scope list_scope.
Open Scope Z_scope.

(** ** Values *)

(** An exception of class [Exception], identified with its message
    [str(e)], which is all the program keeps of it; the message of some
    exceptions is empty ([str(asyncio.TimeoutError())] is [""]).
    The exceptions outside that class (cancellation, keyboard interrupt)
    are not modelled: nothing in the program cancels a task. *)
Definition exn := string.

(** An aiohttp response as the code uses it: the status line, and what
    [await resp.text()] will give (the body, or the error of reading it). *)
Record response := mkResponse {
  status : Z;
  body : exn + string;
}.

(** The state of a [robotparser.RobotFileParser] after [parse(lines)]:
    the lines it was given. *)
Abbreviation RobotFileParser := (list string) (only parsing).

(** [@dataclass class Selector] *)
Record Selector := mkSelector {
  name : string;
  css : string;
  attr : option string;
}.

(** A value that [parse_html] extracts: a text, or the list of the parts
    of an attribute that BeautifulSoup splits ([class], [rel], ...), which
    [n.get(attr)] returns as a list. *)
Inductive value :=
| Str (s : string)
| Many (l : list string).

(** The mapping returned by [parse_html]: rule name to extracted values. *)
Definition Data := list (string * list value).

(** The dictionaries built by [_scrape_one]:
    [{"url", "ok": True, "data"}] and [{"url", "ok": False, "error"}]. *)
Record PerUrlResult := mkResult {
  url : string;
  ok : bool;
  data : option Data;
  error : option string;
}.

(** ** Comparisons on the clock *)

Definition Qltb (a b : Q) : bool := negb (Qle_bool b a).

(** [max(0.0, delay)] *)
Definition Qmax0 (d : Q) : Q := if Qle_bool d 0 then 0%Q else d.

(** ** The monad of asyncio effects *)

(** The two [asyncio.Lock]s of the program. *)
Inductive lock_id := RateLock | RobotsLock.

(** The place of an [asyncio.sleep] or a [session.get] in the source:
    [InWait] is [RateLimiter.wait], [InFetch] is [fetch] (the page request
    and the backoff sleep), [InRobots] is [RobotsCache.can_fetch]. *)
Inductive site := InWait | InFetch | InRobots.

(** A coroutine body: a tree of effects ending in a returned value.
    Each constructor is one primitive the source calls; [k] is the rest of
    the coroutine, given the primitive's answer. *)
Inductive prog (A : Type) : Type :=
| Ret (a : A)
| LockAcquire (l : lock_id) (k : prog A)
| LockRelease (l : lock_id) (k : prog A)
| SemAcquire (k : prog A)
| SemRelease (k : prog A)
| LoopTime (k : Q -> prog A)
| Sleep (at_ : site) (d : Q) (k : prog A)
| SessionGet (at_ : site) (u : string) (timeout : Q) (k : exn + response -> prog A)
| RespText (r : response) (k : exn + string -> prog A)
| NextGlobalGet (k : Q -> prog A)
| NextGlobalSet (v : Q) (k : prog A)
| PerHostGet (host : string) (k : option Q -> prog A)
| PerHostSet (host : string) (v : Q) (k : prog A)
| CacheGet (host : string) (k : option RobotFileParser -> prog A)
| CacheSet (host : string) (rp : RobotFileParser) (k : prog A).

Arguments Ret {A} a.
Arguments LockAcquire {A} l k.
Arguments LockRelease {A} l k.
Arguments SemAcquire {A} k.
Arguments SemRelease {A} k.
Arguments LoopTime {A} k.
Arguments Sleep {A} at_ d k.
Arguments SessionGet {A} at_ u timeout k.
Arguments RespText {A} r k.
Arguments NextGlobalGet {A} k.
Arguments NextGlobalSet {A} v k.
Arguments PerHostGet {A} host k.
Arguments PerHostSet {A} host v k.
Arguments CacheGet {A} host k.
Arguments CacheSet {A} host rp k.

Fixpoint bind {A B : Type} (m : prog A) (f : A -> prog B) : prog B :=
  match m with
  | Ret a => f a
  | LockAcquire l k => LockAcquire l (bind k f)
  | LockRelease l k => LockRelease l (bind k f)
  | SemAcquire k => SemAcquire (bind k f)
  | SemRelease k => SemRelease (bind k f)
  | LoopTime k => LoopTime (fun t => bind (k t) f)
  | Sleep a d k => Sleep a d (bind k f)
  | SessionGet a u t k => SessionGet a u t (fun r => bind (k r) f)
  | RespText r k => RespText r (fun x => bind (k x) f)
  | NextGlobalGet k => NextGlobalGet (fun v => bind (k v) f)
  | NextGlobalSet v k => NextGlobalSet v (bind k f)
  | PerHostGet h k => PerHostGet h (fun v => bind (k v) f)
  | PerHostSet h v k => PerHostSet h v (bind k f)
  | CacheGet h k => CacheGet h (fun v => bind (k v) f)
  | CacheSet h rp k => CacheSet h rp (bind k f)
  end.

Declare Scope prog_scope.
Delimit Scope prog_scope with prog.
Bind Scope prog_scope with prog.

Notation "x <- m ;; k" := (bind m (fun x => k))
  (at level 100, m at next level, right associativity) : prog_scope.
Notation "m ;; k" := (bind m (fun _ => k))
  (at level 100, right associativity) : prog_scope.

(** [x <-? m ;; k]: [m] may raise; an exception skips [k] and goes on
    propagating. *)
Definition bind_exn {A B : Type} (m : prog (exn + A)) (f : A -> prog (exn + B))
  : prog (exn + B) :=
  bind m (fun r => match r with inl e => Ret (inl e) | inr a => f a end).

Notation "x <-? m ;; k" := (bind_exn m (fun x => k))
  (at level 100, m at next level, right associativity) : prog_scope.

Open Scope prog_scope.

(** The primitives, as the source calls them. *)
Definition loop_time : prog Q := LoopTime Ret.
Definition sleep (at_ : site) (d : Q) : prog unit := Sleep at_ d (Ret tt).
Definition session_get (at_ : site) (u : string) (timeout : Q)
  : prog (exn + response) := SessionGet at_ u timeout Ret.
Definition resp_text (r : response) : prog (exn + string) := RespText r Ret.
Definition next_ready_global_get : prog Q := NextGlobalGet Ret.
Definition next_ready_global_set (v : Q) : prog unit := NextGlobalSet v (Ret tt).
(** [self._per_host_next.get(host, 0.0)] *)
Definition per_host_next_get (host : string) : prog Q :=
  PerHostGet host (fun v => Ret (default 0%Q v)).
Definition per_host_next_set (host : string) (v : Q) : prog unit :=
  PerHostSet host v (Ret tt).
Definition cache_get (host : string) : prog (option RobotFileParser) :=
  CacheGet host Ret.
Definition cache_set (host : string) (rp : RobotFileParser) : prog unit :=
  CacheSet host rp (Ret tt).

(** [async with lock: body]. The lock is released on every exit of the
    body; a body that raises returns its exception as a value, so the
    release comes before the exception goes on. *)
Definition with_lock {A : Type} (l : lock_id) (body : prog A) : prog A :=
  LockAcquire l (r <- body ;; LockRelease l (Ret r)).

(** [async with semaphore: body] *)
Definition with_semaphore {A : Type} (body : prog A) : prog A :=
  SemAcquire (r <- body ;; SemRelease (Ret r)).

(** [range(lo, hi)] *)
Definition range (lo hi : Z) : list Z :=
  map (fun i => lo + Z.of_nat i) (seq 0 (Z.to_nat (hi - lo))).

(** ** The state shared by the coroutines of one event loop *)

(** What the loop did, newest first. [who] is the index of the task. *)
Inductive event :=
| EvLock (who : nat) (l : lock_id)
| EvUnlock (who : nat) (l : lock_id)
| EvSemAcquire (who : nat)
| EvSemRelease (who : nat)
| EvSleep (who : nat) (at_ : site) (d : Q) (t : Q)
| EvGet (who : nat) (at_ : site) (u : string) (t : Q).

(** The loop's clock, the one [RateLimiter] (its [_lock],
    [_next_ready_global] and [_per_host_next]), the one [RobotsCache] (its
    [_lock] and [_cache]) and the semaphore's counter. A lock holds the
    index of the task that has it. *)
Record shared := mkShared {
  clock : Q;
  rate_lock : option nat;
  robots_lock : option nat;
  sem_value : Z;
  next_ready_global : Q;
  per_host_next : gmap string Q;
  cache : gmap string RobotFileParser;
  trace : list event;
}.

Definition lock_owner (l : lock_id) (s : shared) : option nat :=
  match l with RateLock => rate_lock s | RobotsLock => robots_lock s end.

Definition log (e : event) (s : shared) : shared :=
  mkShared (clock s) (rate_lock s) (robots_lock s) (sem_value s)
    (next_ready_global s) (per_host_next s) (cache s) (e :: trace s).

Definition set_lock (l : lock_id) (o : option nat) (s : shared) : shared :=
  match l with
  | RateLock =>
      mkShared (clock s) o (robots_lock s) (sem_value s)
        (next_ready_global s) (per_host_next s) (cache s) (trace s)
  | RobotsLock =>
      mkShared (clock s) (rate_lock s) o (sem_value s)
        (next_ready_global s) (per_host_next s) (cache s) (trace s)
  end.

Definition lock (me : nat) (l : lock_id) (s : shared) : shared :=
  log (EvLock me l) (set_lock l (Some me) s).
Definition unlock (me : nat) (l : lock_id) (s : shared) : shared :=
  log (EvUnlock me l) (set_lock l None s).

Definition set_sem (v : Z) (s : shared) : shared :=
  mkShared (clock s) (rate_lock s) (robots_lock s) v
    (next_ready_global s) (per_host_next s) (cache s) (trace s).

Definition sem_acquire (me : nat) (s : shared) : shared :=
  log (EvSemAcquire me) (set_sem (sem_value s - 1) s).
Definition sem_release (me : nat) (s : shared) : shared :=
  log (EvSemRelease me) (set_sem (sem_value s + 1) s).

Definition set_clock (t : Q) (s : shared) : shared :=
  mkShared t (rate_lock s) (robots_lock s) (sem_value s)
    (next_ready_global s) (per_host_next s) (cache s) (trace s).

Definition set_next_ready_global (v : Q) (s : shared) : shared :=
  mkShared (clock s) (rate_lock s) (robots_lock s) (sem_value s)
    v (per_host_next s) (cache s) (trace s).

Definition set_per_host_next (host : string) (v : Q) (s : shared) : shared :=
  mkShared (clock s) (rate_lock s) (robots_lock s) (sem_value s)
    (next_ready_global s) (<[host := v]> (per_host_next s)) (cache s) (trace s).

Definition set_cache (host : string) (rp : RobotFileParser) (s : shared) : shared :=
  mkShared (clock s) (rate_lock s) (robots_lock s) (sem_value s)
    (next_ready_global s) (per_host_next s) (<[host := rp]> (cache s)) (trace s).

(** A loop that has just started: clock [t0], [Semaphore(value)], both
    locks free, empty schedules and cache. *)
Definition fresh (t0 : Q) (value : Z) : shared :=
  mkShared t0 None None value 0%Q ∅ ∅ [].

(** ** One coroutine alone on the loop *)

(** [alone me p net s] runs [p] to its end. Nobody else runs, so a lock or
    a semaphore that is not free is never freed ([None]: the coroutine
    hangs); a sleep lasts what was asked; the answers of the network are
    taken from [net], one per request, and the coroutine hangs when they
    run out. The result comes with the final state and the answers left. *)
Fixpoint alone {A : Type} (me : nat) (p : prog A) (net : list (exn + response))
    (s : shared) : option A * shared * list (exn + response) :=
  match p with
  | Ret a => (Some a, s, net)
  | LockAcquire l k =>
      match lock_owner l s with
      | None => alone me k net (lock me l s)
      | Some _ => (None, s, net)
      end
  | LockRelease l k => alone me k net (unlock me l s)
  | SemAcquire k =>
      if 0 <? sem_value s then alone me k net (sem_acquire me s)
      else (None, s, net)
  | SemRelease k => alone me k net (sem_release me s)
  | LoopTime k => alone me (k (clock s)) net s
  | Sleep a d k =>
      alone me k net
        (set_clock (clock s + Qmax0 d)%Q (log (EvSleep me a d (clock s)) s))
  | SessionGet a u _ k =>
      match net with
      | [] => (None, log (EvGet me a u (clock s)) s, [])
      | r :: net => alone me (k r) net (log (EvGet me a u (clock s)) s)
      end
  | RespText r k => alone me (k (body r)) net s
  | NextGlobalGet k => alone me (k (next_ready_global s)) net s
  | NextGlobalSet v k => alone me k net (set_next_ready_global v s)
  | PerHostGet h k => alone me (k (per_host_next s !! h)) net s
  | PerHostSet h v k => alone me k net (set_per_host_next h v s)
  | CacheGet h k => alone me (k (cache s !! h)) net s
  | CacheSet h rp k => alone me k net (set_cache h rp s)
  end.

(** ** Many coroutines on the loop *)

(** A task between two turns: the rest of its coroutine, whose first
    effect is the one it is suspended on (or [Ret]: it is done), and for a
    sleeping task the time it asked to be woken at. *)
Record task (R : Type) := mkTask {
  code : prog R;
  wake : Q;
}.
Arguments mkTask {R} code wake.
Arguments code {R} t.
Arguments wake {R} t.

(** [run me p s]: the task runs, with no other task in between and at one
    instant of the clock, up to its next suspension point. The suspension
    points are the awaits that give the loop back: a lock, the semaphore,
    a sleep, the network. A request is sent and a sleep is started when the
    task reaches it. asyncio takes a free lock or semaphore without
    suspending; here the task suspends and may be resumed at once, so the
    turns of asyncio are among those of [step]. *)
Fixpoint run {R : Type} (me : nat) (p : prog R) (s : shared) : task R * shared :=
  match p with
  | Ret _ | LockAcquire _ _ | SemAcquire _ | RespText _ _ => (mkTask p 0, s)
  | Sleep a d _ => (mkTask p (clock s + d), log (EvSleep me a d (clock s)) s)
  | SessionGet a u _ _ => (mkTask p 0, log (EvGet me a u (clock s)) s)
  | LockRelease l k => run me k (unlock me l s)
  | SemRelease k => run me k (sem_release me s)
  | LoopTime k => run me (k (clock s)) s
  | NextGlobalGet k => run me (k (next_ready_global s)) s
  | NextGlobalSet v k => run me k (set_next_ready_global v s)
  | PerHostGet h k => run me (k (per_host_next s !! h)) s
  | PerHostSet h v k => run me k (set_per_host_next h v s)
  | CacheGet h k => run me (k (cache s !! h)) s
  | CacheSet h rp k => run me k (set_cache h rp s)
  end.

(** [resume me t answer s]: the loop wakes task [t] up, if what it waits
    for is there: the lock is free, the semaphore is positive, the time of
    the sleep has come; the network always answers in the end (a response,
    or an exception such as the timeout), with [answer]. *)
Definition resume {R : Type} (me : nat) (t : task R) (answer : exn + response)
    (s : shared) : option (task R * shared) :=
  match code t with
  | LockAcquire l k =>
      match lock_owner l s with
      | None => Some (run me k (lock me l s))
      | Some _ => None
      end
  | SemAcquire k =>
      if 0 <? sem_value s then Some (run me k (sem_acquire me s)) else None
  | Sleep _ _ k =>
      if Qle_bool (wake t) (clock s) then Some (run me k s) else None
  | SessionGet _ _ _ k => Some (run me (k answer) s)
  | RespText r k => Some (run me (k (body r)) s)
  | _ => None
  end.

Record world (R : Type) := mkWorld {
  state : shared;
  tasks : list (task R);
}.
Arguments mkWorld {R} state tasks.
Arguments state {R} w.
Arguments tasks {R} w.

(** One turn of the loop: [dt] seconds pass, then task [pick] is resumed. *)
Record turn := mkTurn {
  pick : nat;
  dt : Q;
  answer : exn + response;
}.

Definition step {R : Type} (c : turn) (w : world R) : option (world R) :=
  if Qle_bool 0 (dt c) then
    match tasks w !! pick c with
    | Some t =>
        match resume (pick c) t (answer c)
                (set_clock (clock (state w) + dt c)%Q (state w)) with
        | Some (t', s') => Some (mkWorld s' (<[pick c := t']> (tasks w)))
        | None => None
        end
    | None => None
    end
  else None.

Fixpoint exec {R : Type} (cs : list turn) (w : world R) : option (world R) :=
  match cs with
  | [] => Some w
  | c :: cs =>
      match step c w with
      | Some w' => exec cs w'
      | None => None
      end
  end.

(** [asyncio.gather] wraps each coroutine in a task; each runs up
    to its first suspension point, in the order of the list. *)
Fixpoint spawn {R : Type} (me : nat) (coros : list (prog R)) (s : shared)
  : list (task R) * shared :=
  match coros with
  | [] => ([], s)
  | p :: coros =>
      let '(t, s) := run me p s in
      let '(ts, s) := spawn (S me) coros s in
      (t :: ts, s)
  end.

(** What [await asyncio.gather(...)] gives once no task is left running:
    the returned values in the order of the tasks, or the exception of a
    task that raised. [None]: some task is not done. *)
Fixpoint gather {A : Type} (ts : list (task (exn + A))) : option (exn + list A) :=
  match ts with
  | [] => Some (inr [])
  | t :: ts =>
      match code t with
      | Ret (inl e) => Some (inl e)
      | Ret (inr a) =>
          match gather ts with
          | Some (inr l) => Some (inr (a :: l))
          | r => r
          end
      | _ => None
      end
  end.

(** ** The command-line helpers of [async_scraper.py]

    [parse_selector_arg], [_load_selectors], [_read_urls_from_file] and the
    rows of [write_csv]: pure code on strings and lists. *)

Section Tools.

(** [str.isspace] on one character: the characters that [str.strip()]
    removes. *)
Variable isspace : ascii -> bool.

(** *** What they use of [str] *)

(** [c in s], for a one-character string [c]. *)
Fixpoint contains (c : ascii) (s : string) : bool :=
  match s with
  | EmptyString => false
  | String d r => Ascii.eqb d c || contains c r
  end.

(** [s.split(c, 1)]: one split at most, at the first [c]. *)
Fixpoint split1 (c : ascii) (s : string) : list string :=
  match s with
  | EmptyString => [EmptyString]
  | String d r =>
      if Ascii.eqb d c then [EmptyString; r]
      else match split1 c r with
           | a :: l => String d a :: l
           | [] => []
           end
  end.

(** [a, b = l]: unpacking into two names raises [ValueError] on a list
    of another length. *)
Definition unpack2 (l : list string) : exn + string * string :=
  match l with
  | [a; b] => inr (a, b)
  | [] => inl "not enough values to unpack (expected 2, got 0)"
  | [_] => inl "not enough values to unpack (expected 2, got 1)"
  | _ => inl "too many values to unpack (expected 2)"
  end.

Fixpoint lstrip (s : string) : string :=
  match s with
  | EmptyString => EmptyString
  | String c r => if isspace c then lstrip r else s
  end.

Fixpoint rstrip (s : string) : string :=
  match s with
  | EmptyString => EmptyString
  | String c r =>
      match rstrip r with
      | EmptyString => if isspace c then EmptyString else String c EmptyString
      | r' => String c r'
      end
  end.

(** [s.strip()] *)
Definition strip (s : string) : string := rstrip (lstrip s).

(** [x or None] on a string: the empty string is falsy. *)
Definition or_None (s : string) : option string :=
  if String.eqb s "" then None else Some s.

(** The truth value of an optional string: [None] and [""] are falsy. *)
Definition truthy (o : option string) : bool :=
  match o with
  | Some s => negb (String.eqb s "")
  | None => false
  end.

(** The truth value of what [n.get(attr)] returns: [None], [""] and the
    empty list are falsy. *)
Definition truthy_value (o : option value) : bool :=
  match o with
  | Some (Str s) => negb (String.eqb s "")
  | Some (Many l) => match l with [] => false | _ => true end
  | None => false
  end.

(** *** parse_selector_arg *)

Definition parse_selector_arg (arg : string) : exn + Selector :=
  if negb (contains "="%char arg) then
    inl ("Selector must be in name=css[@attr] format: " ++ arg)%string
  else
    match unpack2 (split1 "="%char arg) with
    | inl e => inl e
    | inr (name, rest) =>
        let css_attr :=
          if contains "@"%char rest then
            match unpack2 (split1 "@"%char rest) with
            | inl e => inl e
            | inr (css, attr) => inr (css, or_None (strip attr))
            end
          else inr (rest, None) in
        match css_attr with
        | inl e => inl e
        | inr (css, attr) => inr (mkSelector (strip name) (strip css) attr)
        end
    end.

(** *** _load_selectors *)

(** The [for arg in raw] loop: the first argument that does not parse
    ends it with its exception. *)
Fixpoint parse_selector_args (raw : list string) : exn + list Selector :=
  match raw with
  | [] => inr []
  | arg :: raw =>
      match parse_selector_arg arg with
      | inl e => inl e
      | inr sel =>
          match parse_selector_args raw with
          | inl e => inl e
          | inr sels => inr (sel :: sels)
          end
      end
  end.

(** [raw] is [None] when no [--selector] option was given. *)
Definition load_selectors (raw : option (list string)) : exn + list Selector :=
  match raw with
  | None | Some [] => inr []
  | Some raw => parse_selector_args raw
  end.

(** *** _read_urls_from_file *)

(** The list comprehension of [_read_urls_from_file], on the lines that
    iterating over the open file gives. *)
Definition read_urls_from_file (lines : list string) : list string :=
  map strip
    (List.filter
       (fun line => negb (String.eqb (strip line) "")
                    && negb (String.prefix "#" (strip line)))
       lines).

(** *** write_csv *)

(** [d.get(key)] on a dictionary kept as the list of its items. *)
Definition dict_get {V : Type} (key : string) (d : list (string * V)) : option V :=
  snd <$> List.find (fun item => String.eqb (fst item) key) d.

(** The columns after the [url] column. *)
Definition csv_cols (selectors : list Selector) : list string :=
  match selectors with
  | [] => ["title"; "h1"]
  | _ => map name selectors
  end.









(** *** For the statements *)

(** The text [name=css] or [name=css@attr] of a selector. *)
Definition selector_arg (sel : Selector) : string :=
  (name sel ++ "=" ++ css sel
   ++ match attr sel with Some a => "@" ++ a | None => "" end)%string.

(** The selectors without white space around their parts, without [=]
    in the name and [@] in the CSS, and with an attribute that is not
    empty if there is one. *)
Definition parsed_form (sel : Selector) : Prop :=
  strip (name sel) = name sel /\ contains "="%char (name sel) = false /\
  strip (css sel) = css sel /\ contains "@"%char (css sel) = false /\
  match attr sel with
  | Some a => strip a = a /\ a <> ""
  | None => True
  end.



(** The stripped lines that [_read_urls_from_file] keeps. *)
Definition kept_line (u : string) : bool :=
  negb (String.eqb u "") && negb (String.prefix "#" u).

End Tools.

(** ** The extraction step of [async_scraper.py]

    [parse_html] on top of BeautifulSoup: what the library does is taken
    as given, what [parse_html] does with it is modelled. *)

Module Page.
Section Soup.

Variable isspace : ascii -> bool.

(** A parsed document and its elements. *)
Variable soup node : Type.
(** Whether [import lxml] works. *)
Variable lxml_installed : bool.
(** [BeautifulSoup(html, parser)] *)
Variable BeautifulSoup : string -> string -> soup.
(** [soup.title.string] when [soup.title] is there, [None] otherwise. *)
Variable title_string : soup -> option string.
(** [soup.select(css)], which raises on a selector it cannot read. *)
Variable select : soup -> string -> exn + list node.
(** [n.get_text(strip=True)] *)
Variable get_text : node -> string.
(** [n.get(attr)]: [None] without the attribute, its text, or the list
    of its parts for an attribute that BeautifulSoup splits. *)
Variable get : node -> string -> option value.

(** [d[key] = v] on a dictionary kept as the list of its items, in the
    order of insertion. *)
Fixpoint dict_set {V : Type} (key : string) (v : V) (d : list (string * V))
  : list (string * V) :=
  match d with
  | [] => [(key, v)]
  | (k, x) :: d =>
      if String.eqb k key then (k, v) :: d else (k, x) :: dict_set key v d
  end.

(** The values that one selector extracts from the selected nodes. *)
Definition values_of (sel : Selector) (nodes : list node) : list value :=
  if truthy (attr sel) then
    omap (fun n => if truthy_value (get n (default "" (attr sel)))
                   then get n (default "" (attr sel)) else None) nodes
  else map (fun n => Str (get_text n)) nodes.

(** The [for sel in selectors] loop on the dictionary [result]. *)
Fixpoint extract (sp : soup) (selectors : list Selector) (result : Data)
  : exn + Data :=
  match selectors with
  | [] => inr result
  | sel :: selectors =>
      match select sp (css sel) with
      | inl e => inl e
      | inr nodes =>
          extract sp selectors (dict_set (name sel) (values_of sel nodes) result)
      end
  end.

Definition parse_html (html : string) (selectors : list Selector) : exn + Data :=
  let parser := if lxml_installed then "lxml" else "html.parser" in
  let sp := BeautifulSoup html parser in
  let result : Data := [] in
  match selectors with
  | [] =>
      let title :=
        if truthy (title_string sp)
        then strip isspace (default "" (title_string sp)) else "" in
      match select sp "h1" with
      | inl e => inl e
      | inr hs =>
          let h1s := map (fun h => Str (get_text h)) hs in
          let result :=
            dict_set "title" (if String.eqb title "" then [] else [Str title]) result in
          let result := dict_set "h1" h1s result in
          inr result
      end
  | _ => extract sp selectors result
  end.

(** *** For the statements *)

(** The extraction of the last selector named [key], if [select] reads
    its CSS. *)
Definition last_named (sp : soup) (key : string) (selectors : list Selector)
  : option (exn + list value) :=
  match List.find (fun sel => String.eqb (name sel) key) (rev selectors) with
  | Some sel =>
      Some (match select sp (css sel) with
            | inl e => inl e
            | inr nodes => inr (values_of sel nodes)
            end)
  | None => None
  end.

End Soup.
End Page.

(** ** The chart page of [async_imdb.py]

    [parse_chart_links] on top of BeautifulSoup and [urljoin]. *)

Module Imdb.
Section Soup.

Variable soup node : Type.
(** [BeautifulSoup(html, "html.parser")] *)
Variable BeautifulSoup : string -> soup.
(** [soup.find("div", attrs={"data-testid": "chart-layout-main-column"})] *)
Variable find_main_column : soup -> option node.
(** [soup.select("a[href*='/title/tt']")] *)
Variable soup_title_anchors : soup -> list node.
(** [container.select("a[href*='/title/tt']")] *)
Variable title_anchors : node -> list node.
(** [container.find("ul")] *)
Variable find_ul : node -> option node.
(** [ul.find_all("li")] *)
Variable find_all_li : node -> list node.
(** [li.find("a", href=True)] and its [a["href"]], when there is such
    an anchor. *)
Variable first_href : node -> option string.
(** [a.get("href")] *)
Variable href : node -> option string.
(** [urljoin(base, url)] *)
Variable urljoin : string -> string -> string.

(** [p in s] *)
Fixpoint substring_in (p s : string) : bool :=
  String.prefix p s
  || match s with
     | EmptyString => false
     | String _ r => substring_in p r
     end.

(** [[urljoin("https://www.imdb.com", a.get("href")) for a in anchors
    if a.get("href")]] *)
Definition anchor_links (anchors : list node) : list string :=
  omap (fun a => if truthy (href a)
                 then Some (urljoin "https://www.imdb.com" (default "" (href a)))
                 else None) anchors.

(** The first loop: the title link of each list item that has one. *)
Definition item_links (items : list node) : list string :=
  omap (fun li => match first_href li with
                  | Some h => if substring_in "/title/tt" h
                              then Some (urljoin "https://www.imdb.com" h)
                              else None
                  | None => None
                  end) items.

(** The second loop, "dedup while preserving order", from the set
    [seen]. *)
Fixpoint unique_from (seen : gset string) (links : list string) : list string :=
  match links with
  | [] => []
  | u :: links =>
      if decide (u ∈ seen) then unique_from seen links
      else u :: unique_from ({[u]} ∪ seen) links
  end.

Definition parse_chart_links (html : string) : list string :=
  let sp := BeautifulSoup html in
  match find_main_column sp with
  | None => anchor_links (soup_title_anchors sp)
  | Some container =>
      match find_ul container with
      | None => anchor_links (title_anchors container)
      | Some ul => unique_from ∅ (item_links (find_all_li ul))
      end
  end.

End Soup.
End Imdb.

(** ** A small stand-in for the libraries, for the examples

    The program is parametric in what it takes from [urllib], [aiohttp]
    and BeautifulSoup (see the section below). The examples run it with
    these simple versions. *)
Module Toy.

Fixpoint upto_slash (s : string) : string :=
  match s with
  | EmptyString => EmptyString
  | String c r => if Ascii.eqb c (Ascii.ascii_of_nat 47) then EmptyString else String c (upto_slash r)
  end.

(** The text between [//] and the next [/]. *)
Definition netloc (u : string) : string :=
  match index 0 "//" u with
  | Some i => upto_slash (substring (i + 2) (String.length u) u)
  | None => EmptyString
  end.

(** One line only. *)
Definition splitlines (text : string) : list string := [text].

(** A parser that knows one rule, [Disallow: /]. *)
Definition rp_can_fetch (rp : RobotFileParser) (ua u : string) : bool :=
  negb (existsb (String.eqb "Disallow: /") rp).

(** It cannot read the line [Disallow: //[x], on which [urlparse]
    raises. *)
Definition rp_parse_error (lines : list string) : option exn :=
  if existsb (String.eqb "Disallow: //[x") lines
  then Some "Invalid IPv6 URL" else None.

Definition response_error (r : response) : exn := "ClientResponseError".

(** An extraction that raises on the page [<bad>], finds a [class] of
    two parts in the page [<multi>], and the text of any other page. *)
Definition parse_html (html : string) (selectors : list Selector) : exn + Data :=
  if String.eqb html "<bad>" then inl "Invalid selector"
  else if String.eqb html "<multi>" then inr [("title", [Many ["a"; "b"]])]
  else inr [("title", [Str html])].

Definition none_markup_error : exn := "TypeError".

(** A server error: a response that [raise_for_status] rejects. *)
Definition server_error : exn + response := inr (mkResponse 503 (inr "busy")).

(** A page, and the [robots.txt] that forbids everything. *)
Definition page : exn + response := inr (mkResponse 200 (inr "<html>")).
Definition robots_txt : exn + response := inr (mkResponse 200 (inr "Disallow: /")).

Definition bad_robots_txt : exn + response :=
  inr (mkResponse 200 (inr "Disallow: //[x")).
Definition timeout : exn + response := inl "".

(** Turns of the loop: task [i] is resumed at once, with the page as the
    answer of the network if it waits for one; after [d] seconds; with
    the answer [a]. *)
Definition go (i : nat) : turn := mkTurn i 0 page.
Definition after_ (d : Q) (i : nat) : turn := mkTurn i d page.
Definition answered (a : exn + response) (i : nat) : turn := mkTurn i 0 a.

(** Two URLs of one host and one of another. *)
Definition urls : list string := ["http://a/1"; "http://a/2"; "http://b/1"].

(** Task 0 sends its request; task 1 finds the host [a] taken for one
    second and sleeps in [wait]; task 2 comes to the lock of the limiter. *)
Definition two_for_a : list turn := [go 0; go 0; go 1; go 1; go 2].

(** Task 0 asks for [robots.txt], gets it and reads it; then task 1. *)
Definition robots_run : list turn := [go 0; answered robots_txt 0; go 0; go 1].

(** Two failed attempts of the one task, a timeout and a server error,
    with the backoff sleeps of 1 and 2 seconds, up to the third request;
    and the timeout of the third. *)
Definition two_failures : list turn :=
  [go 0; answered (inl "timeout") 0; after_ 1 0; answered server_error 0;
   after_ 2 0].
Definition failing_run : list turn :=
  two_failures ++ [answered (inl "timeout") 0].




(** [str.isspace] on the characters below 256. *)
Definition isspace (c : ascii) : bool :=
  let n := nat_of_ascii c in
  ((9 <=? n) && (n <=? 13) || (28 <=? n) && (n <=? 32)
   || (n =? 133) || (n =? 160))%nat.

(** A document is its text and has one element for each selector, whose
    text and attributes are the selector, and whose [class] has two
    parts; [!] is a selector that cannot be read. *)
Definition BeautifulSoup (html parser : string) : string := html.
Definition title_string (sp : string) : option string := Some sp.
Definition select (sp css : string) : exn + list string :=
  if String.eqb css "!" then inl "Invalid selector" else inr [css].
Definition get_text (n : string) : string := n.
Definition get (n a : string) : option value :=
  if String.eqb a "class" then Some (Many [n; "wide"]) else Some (Str n).

(** A chart page is the link of its first and third list items; the
    second item links to a person. *)
Definition find_main_column (sp : string) : option string := Some sp.
Definition find_ul (container : string) : option string := Some container.
Definition find_all_li (ul : string) : list string := [ul; "/name/nm1"; ul].
Definition first_href (li : string) : option string := Some li.
Definition urljoin (base u : string) : string := (base ++ u)%string.

End Toy.

(** ** The program *)

Section Program.

(** What the program takes from its libraries. *)

(** [urlparse(url).netloc], for the URLs that [urlparse] reads (it raises
    on a host with an unmatched bracket; such URLs are left out). *)
Variable netloc : string -> string.
(** [text.splitlines()] *)
Variable splitlines : string -> list string.
(** [RobotFileParser.can_fetch(useragent, url)] on parsed lines. *)
Variable rp_can_fetch : RobotFileParser -> string -> string -> bool.
(** The [ValueError] that [RobotFileParser.parse(lines)] raises on lines
    it cannot read (a path that [urlparse] rejects, a number that [int]
    rejects), [None] when it reads them. *)
Variable rp_parse_error : list string -> option exn.
(** The [ClientResponseError] that [raise_for_status] builds. *)
Variable response_error : response -> exn.
(** [parse_html(html, selectors)]: the extraction step (BeautifulSoup),
    which returns the extracted values or raises. *)
Variable parse_html : string -> list Selector -> exn + Data.
(** The [TypeError] of BeautifulSoup on [None] markup. *)
Variable none_markup_error : exn.

(** [resp.raise_for_status()]: aiohttp raises for a status of 400 or
    above and does nothing below. *)
Definition raise_for_status (r : response) : option exn :=
  if 400 <=? status r then Some (response_error r) else None.

(** *** class RateLimiter *)

(** The constructor's arguments after [__init__]; the lock and the two
    schedules of the instance live in the shared state of the loop. *)
Record RateLimiter := mkRateLimiter {
  delay : Q;
  per_host : bool;
}.

Definition RateLimiter_init (delay : Q) (per_host : bool) : RateLimiter :=
  mkRateLimiter (Qmax0 delay) per_host.

Definition wait (self : RateLimiter) (u : string) : prog unit :=
  if Qle_bool (delay self) 0 then Ret tt else
  let host := if per_host self then netloc u else "__global__" in
  with_lock RateLock (
    now <- loop_time ;;
    if per_host self then
      next_ready <- per_host_next_get host ;;
      now <- (if Qltb now next_ready
              then sleep InWait (next_ready - now) ;; loop_time
              else Ret now) ;;
      per_host_next_set host (now + delay self)
    else
      next_ready <- next_ready_global_get ;;
      now <- (if Qltb now next_ready
              then (next_ready <- next_ready_global_get ;;
                    sleep InWait (next_ready - now)) ;; loop_time
              else Ret now) ;;
      next_ready_global_set (now + delay self)).

(** *** fetch *)

(** The body of the [try]: the optional rate limit, the request, the
    status check and the read of the text. *)
Definition attempt (u : string) (timeout_s : Q) (rate_limiter : option RateLimiter)
  : prog (exn + string) :=
  match rate_limiter with Some rl => wait rl u | None => Ret tt end ;;
  resp <-? session_get InFetch u timeout_s ;;
  match raise_for_status resp with
  | Some e => Ret (inl e)
  | None => resp_text resp
  end.

(** The [for attempt in range(1, retries + 1)] loop, on the attempts that
    are left. Falling off the end of the loop returns [None]. *)
Fixpoint fetch_loop (u : string) (retries : Z) (timeout_s : Q)
    (rate_limiter : option RateLimiter) (attempts : list Z) (backoff : Q)
  : prog (exn + option string) :=
  match attempts with
  | [] => Ret (inr None)
  | n :: rest =>
      r <- attempt u timeout_s rate_limiter ;;
      match r with
      | inr text => Ret (inr (Some text))
      | inl e =>
          if n =? retries then Ret (inl e)
          else sleep InFetch backoff ;;
               fetch_loop u retries timeout_s rate_limiter rest (backoff * 2)
      end
  end.

Definition fetch (u : string) (retries : Z) (timeout_s : Q)
    (rate_limiter : option RateLimiter) : prog (exn + option string) :=
  let backoff := 1%Q in
  with_semaphore
    (fetch_loop u retries timeout_s rate_limiter (range 1 (retries + 1)) backoff).

(** *** class RobotsCache *)

Record RobotsCache := mkRobotsCache {
  user_agent : string;
}.

(** [urlunparse(("https", host, "/robots.txt", "", "", ""))] *)
Definition robots_url (host : string) : string :=
  ("https://" ++ host ++ "/robots.txt")%string.

(** The [try] block of [can_fetch]: the text of [robots.txt], or the
    empty text when it cannot be had. *)
Definition robots_text (host : string) : prog string :=
  r <- session_get InRobots (robots_url host) 10 ;;
  match r with
  | inl _ => Ret ""
  | inr resp =>
      if status resp =? 200 then
        t <- resp_text resp ;;
        match t with
        | inl _ => Ret ""
        | inr t => Ret t
        end
      else Ret ""
  end.

(** [rp = RobotFileParser()] and its [parse], which stands outside the
    [try]: [rp.parse(text.splitlines())] for a text, which may raise, and
    [rp.parse([])], which has no line to read. *)
Definition parse_robots (text : string) : exn + RobotFileParser :=
  if String.eqb text "" then inr []
  else match rp_parse_error (splitlines text) with
       | Some e => inl e
       | None => inr (splitlines text)
       end.

Definition can_fetch (self : RobotsCache) (u : string) : prog (exn + bool) :=
  let host := netloc u in
  with_lock RobotsLock (
    rp <- cache_get host ;;
    rp <-? match rp with
           | Some rp => Ret (inr rp)
           | None =>
               text <- robots_text host ;;
               rp <-? Ret (parse_robots text) ;;
               cache_set host rp ;;
               Ret (inr rp)
           end ;;
    Ret (inr (rp_can_fetch rp (user_agent self) u))).

(** *** _scrape_one *)

Definition disallowed (u : string) : PerUrlResult :=
  mkResult u false None (Some "Disallowed by robots.txt").
Definition succeeded (u : string) (d : Data) : PerUrlResult :=
  mkResult u true (Some d) None.
Definition failed (u : string) (e : exn) : PerUrlResult :=
  mkResult u false None (Some e).

(** [parse_html] on what [fetch] returned, which is [None] when the
    attempt loop did not run. *)
Definition parse_fetched (html : option string) (selectors : list Selector)
  : exn + Data :=
  match html with
  | Some html => parse_html html selectors
  | None => inl none_markup_error
  end.

Definition scrape_one (u : string) (selectors : list Selector)
    (rate_limiter : option RateLimiter) (robots : option RobotsCache)
  : prog (exn + PerUrlResult) :=
  r <- (allowed <-? match robots with
                    | Some rc => can_fetch rc u
                    | None => Ret (inr true)
                    end ;;
        if negb allowed then Ret (inr (disallowed u)) else
        html <-? fetch u 3 20 rate_limiter ;;
        d <-? Ret (parse_fetched html selectors) ;;
        Ret (inr (succeeded u d))) ;;
  match r with
  | inr res => Ret (inr res)
  | inl e => Ret (inr (failed u e))
  end.

(** *** scrape_many *)

Definition DEFAULT_HEADERS : gmap string string :=
  {[ "User-Agent" :=
       "Mozilla/5.0 (Windows NT 10.0; Win64; x64) AppleWebKit/537.36 (KHTML, like Gecko) Chrome/120.0 Safari/537.36" ]}.

(** [headers or DEFAULT_HEADERS]: [None] and the empty dictionary are
    falsy. *)
Definition effective_headers (headers : option (gmap string string))
  : gmap string string :=
  match headers with
  | Some h => if decide (h = ∅) then DEFAULT_HEADERS else h
  | None => DEFAULT_HEADERS
  end.

(** [RateLimiter(delay=delay, per_host=per_host) if delay > 0 else None] *)
Definition limiter_of (delay : Q) (per_host : bool) : option RateLimiter :=
  if Qltb 0 delay then Some (RateLimiter_init delay per_host) else None.

(** [headers.get("User-Agent", "*")] *)
Definition user_agent_of (headers : option (gmap string string)) : string :=
  default "*" (effective_headers headers !! "User-Agent").

(** [RobotsCache(headers.get("User-Agent", "*"), session) if respect_robots
    else None] *)
Definition robots_of (headers : option (gmap string string))
    (respect_robots : bool) : option RobotsCache :=
  if respect_robots then Some (mkRobotsCache (user_agent_of headers)) else None.

(** The coroutines that [scrape_many] hands to [asyncio.gather], one per
    URL in the order of [urls]. The logger only prints and is left out. *)
Definition scrape_tasks (urls : list string) (selectors : list Selector)
    (headers : option (gmap string string)) (delay : Q) (per_host : bool)
    (respect_robots : bool) : list (prog (exn + PerUrlResult)) :=
  let rate_limiter := limiter_of delay per_host in
  let robots := robots_of headers respect_robots in
  map (fun u => scrape_one u selectors rate_limiter robots) urls.

(** [scrape_many] up to the [await] of the gather, on a loop whose clock
    shows [t0]: [asyncio.Semaphore(concurrency)] raises [ValueError] on a
    negative value; otherwise the tasks are created. The value of
    [scrape_many] is then [gather] of the tasks once they are all done. *)
Definition scrape_many (t0 : Q) (urls : list string) (selectors : list Selector)
    (concurrency : Z) (headers : option (gmap string string)) (delay : Q)
    (per_host : bool) (respect_robots : bool)
  : exn + world (exn + PerUrlResult) :=
  if concurrency <? 0 then inl "Semaphore initial value must be >= 0"
  else
    let '(ts, s) :=
      spawn 0 (scrape_tasks urls selectors headers delay per_host respect_robots)
        (fresh t0 concurrency) in
    inr (mkWorld s ts).

(** *** fetch of [async_imdb.py]

    The [RateLimiter] of [async_imdb.py] is that of [async_scraper.py],
    word for word; its [fetch] has no retry loop. *)
Definition imdb_fetch (u : string) (rate_limiter : option RateLimiter)
    (timeout_s : Q) : prog (exn + string) :=
  with_semaphore (
    match rate_limiter with Some rl => wait rl u | None => Ret tt end ;;
    resp <-? session_get InFetch u timeout_s ;;
    match raise_for_status resp with
    | Some e => Ret (inl e)
    | None => resp_text resp
    end).

(** *** For the statements *)

(** The text that [can_fetch] has after its request for [robots.txt]:
    the text of a 200 response, the empty text for another answer. *)
Definition robots_text_of (o : exn + response) : string :=
  match o with
  | inl _ => ""
  | inr resp =>
      if status resp =? 200 then
        match body resp with
        | inl _ => ""
        | inr text => text
        end
      else ""
  end.

(** ** What the claims speak about *)

(** *** One call of [fetch] *)

(** The exception, if any, with which the body of the [try] of [fetch]
    ends on answer [o] of the network: [session.get] raised (transport
    error, timeout), [raise_for_status] raised, or reading the text
    raised. *)
Definition failure_of (o : exn + response) : option exn :=
  match o with
  | inl e => Some e
  | inr resp =>
      match raise_for_status resp with
      | Some e => Some e
      | None => match body resp with inl e => Some e | inr _ => None end
      end
  end.

(** What [fetch] itself does on the wire and on the timer: its page
    requests and its backoff sleeps (the sleeps inside [RateLimiter.wait]
    are not its own). *)
Inductive fetch_event :=
| Attempt (u : string)
| Backoff (d : Q).

Definition fetch_event_of (e : event) : option fetch_event :=
  match e with
  | EvGet _ InFetch u _ => Some (Attempt u)
  | EvSleep _ InFetch d _ => Some (Backoff d)
  | _ => None
  end.

(** The fetch events of a trace, oldest first. *)
Definition fetch_view (tr : list event) : list fetch_event :=
  omap fetch_event_of (rev tr).

(** Attempts [lo], [lo+1], ..., [hi] of a call with [retries] attempts,
    each one but attempt [retries] followed by its backoff sleep of
    [2^(k-1)] seconds. *)
Definition retry_schedule (u : string) (retries lo hi : Z) : list fetch_event :=
  flat_map
    (fun k => if k =? retries then [Attempt u]
              else [Attempt u; Backoff (inject_Z (2 ^ (k - 1)))])
    (range lo (hi + 1)).

(** The value of the body of the [try] of [fetch] on answer [o]. *)
Definition attempt_result (o : exn + response) : exn + string :=
  match o with
  | inl e => inl e
  | inr resp =>
      match raise_for_status resp with
      | Some e => inl e
      | None => body resp
      end
  end.

(** [after s s' v]: from [s] to [s'] the fetch events [v] happened, in
    this order, and the locks, the semaphore and the robots cache are as
    they were. *)
Definition after (s s' : shared) (v : list fetch_event) : Prop :=
  rate_lock s' = rate_lock s /\ robots_lock s' = robots_lock s /\
  sem_value s' = sem_value s /\ cache s' = cache s /\
  exists new, trace s' = new ++ trace s /\ fetch_view new = v.

(** The number of page requests among fetch events. *)
Definition attempts_in (v : list fetch_event) : nat :=
  length (List.filter (fun e => match e with Attempt _ => true | Backoff _ => false end) v).

(** *** One call of [RobotsCache.can_fetch] *)

(** The fetch of [robots.txt] did not give a document: [session.get]
    raised, the status is not 200, or reading the text raised. *)
Definition robots_unavailable (o : exn + response) : Prop :=
  match o with
  | inl _ => True
  | inr resp => status resp <> 200 \/ exists e, body resp = inl e
  end.

(** The requests of a trace. *)
Definition requests (tr : list event) : list event :=
  List.filter (fun e => match e with EvGet _ _ _ _ => true | _ => false end) tr.

(** *** The tasks of one batch, as a machine

    A task of [scrape_many] is always at one of a few places of
    [_scrape_one]: the suspension points of the code, listed in [form].
    [code_of] gives the rest of the coroutine at each place, cut out of
    the program above; [next_form] says where a task that is resumed
    stops next, and what it did to the shared state on the way. That the
    coroutine and the machine move alike is [resume_task_of] below. *)

Section Batch.

Variable selectors : list Selector.
Variable rate_limiter : option RateLimiter.
Variable robots : option RobotsCache.

(** [n], [rest] and [b] are the variables of the loop of [fetch]: the
    current attempt, the attempts still to come, and [backoff]. *)
Inductive form :=
| RobotsAcq                          (* can_fetch: async with self._lock *)
| RobotsGet                          (* can_fetch: session.get(robots_url) *)
| RobotsText (resp : response)       (* can_fetch: await resp.text() *)
| SemAcq                             (* fetch: async with semaphore *)
| RateAcq (n : Z) (rest : list Z) (b : Q)              (* wait: async with self._lock *)
| RateSleep (n : Z) (rest : list Z) (b : Q) (d until : Q)  (* wait: asyncio.sleep *)
| PageGet (n : Z) (rest : list Z) (b : Q)              (* fetch: session.get(url) *)
| PageText (n : Z) (rest : list Z) (b : Q) (resp : response) (* fetch: await resp.text() *)
| BackoffSleep (rest : list Z) (b : Q) (until : Q)     (* fetch: asyncio.sleep(backoff) *)
| DoneBlocked                        (* returned "Disallowed by robots.txt" *)
| DoneRaised (e : exn)               (* returned the exception of can_fetch *)
| Done (res : PerUrlResult).         (* returned after fetch *)

Definition the_rc : RobotsCache := default (mkRobotsCache "*") robots.
Definition the_rl : RateLimiter := default (mkRateLimiter 0 false) rate_limiter.

(** The limiter, when [wait] does not return at once. *)
Definition limiter_on : option RateLimiter :=
  match rate_limiter with
  | Some rl => if Qle_bool (delay rl) 0 then None else Some rl
  | None => None
  end.

(** The rest of [_scrape_one] around a call in progress. *)
Definition scrape_handler (u : string) (m : prog (exn + PerUrlResult))
  : prog (exn + PerUrlResult) :=
  r <- m ;;
  match r with
  | inr res => Ret (inr res)
  | inl e => Ret (inr (failed u e))
  end.

Definition after_fetch (u : string) (m : prog (exn + option string))
  : prog (exn + PerUrlResult) :=
  scrape_handler u
    (html <-? m ;;
     d <-? Ret (parse_fetched html selectors) ;;
     Ret (inr (succeeded u d))).

Definition after_robots (u : string) (m : prog (exn + bool))
  : prog (exn + PerUrlResult) :=
  scrape_handler u
    (allowed <-? m ;;
     if negb allowed then Ret (inr (disallowed u)) else
     html <-? fetch u 3 20 rate_limiter ;;
     d <-? Ret (parse_fetched html selectors) ;;
     Ret (inr (succeeded u d))).

(** The rest of [can_fetch] around its [try] block. *)
Definition in_can_fetch (u : string) (m : prog string) : prog (exn + bool) :=
  r <- (rp <-? (text <- m ;;
                rp <-? Ret (parse_robots text) ;;
                cache_set (netloc u) rp ;;
                Ret (inr rp)) ;;
        Ret (inr (rp_can_fetch rp (user_agent the_rc) u))) ;;
  LockRelease RobotsLock (Ret r).

(** The rest of [fetch] around the body of the [try] of attempt [n]. *)
Definition in_fetch (u : string) (n : Z) (rest : list Z) (b : Q)
    (m : prog (exn + string)) : prog (exn + PerUrlResult) :=
  after_fetch u
    (r <- (r <- m ;;
           match r with
           | inr text => Ret (inr (Some text))
           | inl e =>
               if n =? 3 then Ret (inl e)
               else sleep InFetch b ;;
                    fetch_loop u 3 20 rate_limiter rest (b * 2)
           end) ;;
     SemRelease (Ret r)).

(** The body of the [try] after the rate limit. *)
Definition request (u : string) : prog (exn + string) :=
  resp <-? session_get InFetch u 20 ;;
  match raise_for_status resp with
  | Some e => Ret (inl e)
  | None => resp_text resp
  end.

(** [wait] from its sleep on: wake up, read the clock, reserve, release. *)
Definition wait_sleeping (rl : RateLimiter) (u : string) (d : Q) : prog unit :=
  Sleep InWait d
    (now <- loop_time ;;
     (if per_host rl then per_host_next_set (netloc u) (now + delay rl)
      else next_ready_global_set (now + delay rl)) ;;
     LockRelease RateLock (Ret tt)).

Definition code_of (u : string) (f : form) : prog (exn + PerUrlResult) :=
  match f with
  | RobotsAcq => after_robots u (can_fetch the_rc u)
  | RobotsGet => after_robots u (in_can_fetch u (robots_text (netloc u)))
  | RobotsText resp =>
      after_robots u
        (in_can_fetch u
           (t <- resp_text resp ;;
            match t with inl _ => Ret "" | inr t => Ret t end))
  | SemAcq => after_fetch u (fetch u 3 20 rate_limiter)
  | RateAcq n rest b => in_fetch u n rest b (wait the_rl u ;; request u)
  | RateSleep n rest b d _ =>
      in_fetch u n rest b (wait_sleeping the_rl u d ;; request u)
  | PageGet n rest b => in_fetch u n rest b (request u)
  | PageText n rest b resp => in_fetch u n rest b (resp_text resp)
  | BackoffSleep rest b _ =>
      after_fetch u
        (r <- (sleep InFetch b ;; fetch_loop u 3 20 rate_limiter rest (b * 2)) ;;
         SemRelease (Ret r))
  | DoneBlocked => Ret (inr (disallowed u))
  | DoneRaised e => Ret (inr (failed u e))
  | Done res => Ret (inr res)
  end.

Definition wake_of (f : form) : Q :=
  match f with
  | RateSleep _ _ _ _ until | BackoffSleep _ _ until => until
  | _ => 0%Q
  end.

Definition task_of (u : string) (f : form) : task (exn + PerUrlResult) :=
  mkTask (code_of u f) (wake_of f).

Definition to_task (u : string) (p : form * shared)
  : task (exn + PerUrlResult) * shared :=
  (task_of u p.1, p.2).

(** Where a task starts. *)
Definition first_form : form :=
  match robots with Some _ => RobotsAcq | None => SemAcq end.

(** The forms that make sense under the options of the batch; the
    exception of [can_fetch] is one that [rp.parse] raised. *)
Definition wf (f : form) : Prop :=
  match f with
  | RobotsAcq | RobotsGet | RobotsText _ | DoneBlocked => is_Some robots
  | DoneRaised e => is_Some robots /\ exists text, parse_robots text = inl e
  | RateAcq _ _ _ | RateSleep _ _ _ _ _ => is_Some limiter_on
  | _ => True
  end.

(** The schedule entry of the scope of [u], and its update. *)
Definition next_of (rl : RateLimiter) (u : string) (s : shared) : Q :=
  if per_host rl then default 0%Q (per_host_next s !! netloc u)
  else next_ready_global s.

Definition set_next (rl : RateLimiter) (u : string) (v : Q) (s : shared) : shared :=
  if per_host rl then set_per_host_next (netloc u) v s
  else set_next_ready_global v s.

(** The pieces of code between two suspension points. *)

Definition send_request (me : nat) (u : string) (n : Z) (rest : list Z) (b : Q)
    (s : shared) : form * shared :=
  (PageGet n rest b, log (EvGet me InFetch u (clock s)) s).

Definition begin_attempt (me : nat) (u : string) (n : Z) (rest : list Z) (b : Q)
    (s : shared) : form * shared :=
  match limiter_on with
  | Some _ => (RateAcq n rest b, s)
  | None => send_request me u n rest b s
  end.

Definition reserve_and_send (me : nat) (u : string) (n : Z) (rest : list Z)
    (b : Q) (s : shared) : form * shared :=
  send_request me u n rest b
    (unlock me RateLock (set_next the_rl u (clock s + delay the_rl) s)).

Definition finish (me : nat) (u : string) (r : exn + option string) (s : shared)
  : form * shared :=
  let s := sem_release me s in
  match r with
  | inl e => (Done (failed u e), s)
  | inr html =>
      match parse_fetched html selectors with
      | inr d => (Done (succeeded u d), s)
      | inl e => (Done (failed u e), s)
      end
  end.

Definition loop_from (me : nat) (u : string) (attempts : list Z) (b : Q)
    (s : shared) : form * shared :=
  match attempts with
  | [] => finish me u (inr None) s
  | n :: rest => begin_attempt me u n rest b s
  end.

Definition attempt_failed (me : nat) (u : string) (n : Z) (rest : list Z) (b : Q)
    (e : exn) (s : shared) : form * shared :=
  if n =? 3 then finish me u (inl e) s
  else (BackoffSleep rest b (clock s + b), log (EvSleep me InFetch b (clock s)) s).

Definition robots_decided (me : nat) (u : string) (rp : RobotFileParser)
    (s : shared) : form * shared :=
  let s := unlock me RobotsLock s in
  if rp_can_fetch rp (user_agent the_rc) u then (SemAcq, s) else (DoneBlocked, s).

Definition robots_parsed (me : nat) (u : string) (text : string) (s : shared)
  : form * shared :=
  match parse_robots text with
  | inr rp => robots_decided me u rp (set_cache (netloc u) rp s)
  | inl e => (DoneRaised e, unlock me RobotsLock s)
  end.

Definition next_form (me : nat) (u : string) (f : form) (answer : exn + response)
    (s : shared) : option (form * shared) :=
  match f with
  | RobotsAcq =>
      match robots_lock s with
      | Some _ => None
      | None =>
          let s := lock me RobotsLock s in
          match cache s !! netloc u with
          | Some rp => Some (robots_decided me u rp s)
          | None =>
              Some (RobotsGet,
                    log (EvGet me InRobots (robots_url (netloc u)) (clock s)) s)
          end
      end
  | RobotsGet =>
      match answer with
      | inl _ => Some (robots_parsed me u "" s)
      | inr resp =>
          if status resp =? 200 then Some (RobotsText resp, s)
          else Some (robots_parsed me u "" s)
      end
  | RobotsText resp =>
      Some (robots_parsed me u
              (match body resp with inl _ => "" | inr t => t end) s)
  | SemAcq =>
      if 0 <? sem_value s
      then Some (loop_from me u (range 1 (3 + 1)) 1 (sem_acquire me s))
      else None
  | RateAcq n rest b =>
      match rate_lock s with
      | Some _ => None
      | None =>
          let s := lock me RateLock s in
          let now := clock s in
          let next := next_of the_rl u s in
          if Qltb now next
          then Some (RateSleep n rest b (next - now) (now + (next - now)),
                     log (EvSleep me InWait (next - now) now) s)
          else Some (reserve_and_send me u n rest b s)
      end
  | RateSleep n rest b _ until =>
      if Qle_bool until (clock s)
      then Some (reserve_and_send me u n rest b s)
      else None
  | PageGet n rest b =>
      match answer with
      | inl e => Some (attempt_failed me u n rest b e s)
      | inr resp =>
          match raise_for_status resp with
          | Some e => Some (attempt_failed me u n rest b e s)
          | None => Some (PageText n rest b resp, s)
          end
      end
  | PageText n rest b resp =>
      match body resp with
      | inl e => Some (attempt_failed me u n rest b e s)
      | inr text => Some (finish me u (inr (Some text)) s)
      end
  | BackoffSleep rest b until =>
      if Qle_bool until (clock s)
      then Some (loop_from me u rest (b * 2) s)
      else None
  | DoneBlocked | DoneRaised _ | Done _ => None
  end.

(** The batch: the shared state and the form of each task, task [i]
    working on [urls !! i]. *)
Definition tasks_of (urls : list string) (fs : list form)
  : list (task (exn + PerUrlResult)) :=
  zip_with task_of urls fs.

Definition machine_step (urls : list string) (c : turn) (a : shared * list form)
  : option (shared * list form) :=
  if Qle_bool 0 (dt c) then
    match urls !! pick c, a.2 !! pick c with
    | Some u, Some f =>
        match next_form (pick c) u f (answer c)
                (set_clock (clock a.1 + dt c)%Q a.1) with
        | Some (f', s') => Some (s', <[pick c := f']> a.2)
        | None => None
        end
    | _, _ => None
    end
  else None.

Fixpoint machine_exec (urls : list string) (cs : list turn) (a : shared * list form)
  : option (shared * list form) :=
  match cs with
  | [] => Some a
  | c :: cs =>
      match machine_step urls c a with
      | Some a' => machine_exec urls cs a'
      | None => None
      end
  end.

(** The world of the machine state [a]. *)
Definition world_of (urls : list string) (a : shared * list form)
  : world (exn + PerUrlResult) :=
  mkWorld a.1 (tasks_of urls a.2).

(** The batch at its creation. *)
Definition first_forms (urls : list string) : list form :=
  map (fun _ => first_form) urls.

(** *** Who holds what *)

(** The places where a task holds the lock of the limiter: only the sleep
    of [wait] is a suspension point inside its [async with]. *)
Definition holds_rate (f : form) : bool :=
  match f with RateSleep _ _ _ _ _ => true | _ => false end.

(** The places where a task holds the lock of the robots cache. *)
Definition holds_robots (f : form) : bool :=
  match f with RobotsGet | RobotsText _ => true | _ => false end.

(** The places inside the [async with semaphore] of [fetch]. *)
Definition active (f : form) : bool :=
  match f with
  | RateAcq _ _ _ | RateSleep _ _ _ _ _ | PageGet _ _ _ | PageText _ _ _ _
  | BackoffSleep _ _ _ => true
  | _ => false
  end.

Definition slot (f : form) : Z := if active f then 1 else 0.

(** The number of tasks inside the [async with semaphore]. *)
Definition slots (fs : list form) : Z :=
  fold_right (fun f n => slot f + n) 0 fs.

(** A lock and the tasks agree: [owner] is the task that is at a place
    where it holds the lock, if there is one. *)
Definition lock_inv (holds : form -> bool) (owner : option nat) (fs : list form)
  : Prop :=
  (forall i f, fs !! i = Some f -> holds f = true -> owner = Some i) /\
  (forall i, owner = Some i -> exists f, fs !! i = Some f /\ holds f = true).

Definition who (e : event) : nat :=
  match e with
  | EvLock w _ | EvUnlock w _ | EvSemAcquire w | EvSemRelease w
  | EvSleep w _ _ _ | EvGet w _ _ _ => w
  end.

(** The locks and the semaphore of a batch with [Semaphore(k)]. *)
Definition locks_inv (k : Z) (a : shared * list form) : Prop :=
  lock_inv holds_rate (rate_lock a.1) a.2 /\
  lock_inv holds_robots (robots_lock a.1) a.2 /\
  sem_value a.1 + slots a.2 = k /\ 0 <= sem_value a.1.

(** *** The spacing of the requests *)

(** The rate-limit scope of a URL: its host, or the one global scope. *)
Definition scope_of (rl : RateLimiter) (u : string) : string :=
  if per_host rl then netloc u else "__global__".

(** The page requests of a trace, newest first: URL and time of sending. *)
Definition page_requests (tr : list event) : list (string * Q) :=
  omap (fun e => match e with
                 | EvGet _ InFetch u t => Some (u, t)
                 | _ => None
                 end) tr.

(** Each request comes at least [delay] after every earlier request of
    its scope. *)
Fixpoint spaced (rl : RateLimiter) (l : list (string * Q)) : Prop :=
  match l with
  | [] => True
  | (u, t) :: l =>
      (forall u' t', In (u', t') l -> scope_of rl u' = scope_of rl u ->
                     (t' + delay rl <= t)%Q) /\
      spaced rl l
  end.

(** The requests are spaced; the schedule entry of a scope is at least
    [delay] after the requests of the scope; a task that sleeps in [wait]
    wakes up no earlier than the entry of its scope. *)
Definition time_inv (urls : list string) (a : shared * list form) : Prop :=
  spaced the_rl (page_requests (trace a.1)) /\
  (forall u t, In (u, t) (page_requests (trace a.1)) ->
               (t + delay the_rl <= next_of the_rl u a.1)%Q) /\
  (forall i u n rest b d until,
     urls !! i = Some u -> a.2 !! i = Some (RateSleep n rest b d until) ->
     (next_of the_rl u a.1 <= until)%Q).

(** *** The events of one task *)

(** Where a task is with respect to the [async with semaphore] of its
    [fetch], read off the trace: [Before] it took a slot, [Inside],
    [After] it gave the slot back. [Broken] is for a trace in which the
    task does something out of place: a page request or a backoff sleep
    without the slot, a second slot, a release without a slot. *)
Inductive phase := Before | Inside | After | Broken.

(** The events of [fetch] proper. *)
Inductive fetch_step := TakeSlot | GiveSlot | Work.

Definition fetch_step_of (i : nat) (e : event) : option fetch_step :=
  if Nat.eqb (who e) i then
    match e with
    | EvSemAcquire _ => Some TakeSlot
    | EvSemRelease _ => Some GiveSlot
    | EvGet _ InFetch _ _ | EvSleep _ InFetch _ _ => Some Work
    | _ => None
    end
  else None.

Definition phase_after (e : option fetch_step) (p : phase) : phase :=
  match e, p with
  | None, p => p
  | Some TakeSlot, Before => Inside
  | Some Work, Inside => Inside
  | Some GiveSlot, Inside => After
  | Some _, _ => Broken
  end.

(** The phase of task [i] after the trace [tr] (newest event first). *)
Fixpoint phase_of_trace (i : nat) (tr : list event) : phase :=
  match tr with
  | [] => Before
  | e :: tr => phase_after (fetch_step_of i e) (phase_of_trace i tr)
  end.

(** The phase the place [f] stands for. *)
Definition phase_of (f : form) : phase :=
  if active f then Inside
  else match f with Done _ => After | _ => Before end.

Definition took_slot (i : nat) (e : event) : bool :=
  match e with EvSemAcquire w => Nat.eqb w i | _ => false end.
Definition gave_slot (i : nat) (e : event) : bool :=
  match e with EvSemRelease w => Nat.eqb w i | _ => false end.
(** How many times task [i] took a slot. *)
Definition takes (i : nat) (tr : list event) : nat :=
  length (List.filter (took_slot i) tr).
(** A page request or a backoff sleep of task [i]. *)
Definition works (i : nat) (e : event) : bool :=
  match e with
  | EvGet w InFetch _ _ | EvSleep w InFetch _ _ => Nat.eqb w i
  | _ => false
  end.
Definition sent_page (i : nat) (e : event) : bool :=
  match e with EvGet w InFetch _ _ => Nat.eqb w i | _ => false end.
(** [can_fetch] has returned for task [i]. *)
Definition left_robots (i : nat) (e : event) : bool :=
  match e with EvUnlock w RobotsLock => Nat.eqb w i | _ => false end.

(** The tasks inside their [async with semaphore], among tasks [0..n-1]. *)
Definition in_section (tr : list event) (i : nat) : bool :=
  existsb (took_slot i) tr && negb (existsb (gave_slot i) tr).
Definition sections (tr : list event) (n : nat) : list nat :=
  List.filter (in_section tr) (seq 0 n).

(** The number of page requests of task [i]. *)
Definition sent (i : nat) (tr : list event) : Z :=
  Z.of_nat (length (List.filter (sent_page i) tr)).

(** The page requests a task at place [f] has sent. *)
Definition sent_at (f : form) (m : Z) : Prop :=
  match f with
  | RateAcq n _ _ | RateSleep n _ _ _ _ => m = n - 1
  | PageGet n _ _ | PageText n _ _ _ => m = n
  | BackoffSleep rest _ _ => m = 3 - Z.of_nat (length rest)
  | Done _ => 1 <= m <= 3
  | _ => m = 0
  end.

(** The traces agree with the places of the tasks. *)
Definition trace_inv (a : shared * list form) : Prop :=
  forall i f, a.2 !! i = Some f ->
    phase_of_trace i (trace a.1) = phase_of f /\
    sent_at f (sent i (trace a.1)) /\
    (is_Some robots ->
     existsb (left_robots i) (trace a.1)
     = match f with RobotsAcq | RobotsGet | RobotsText _ => false | _ => true end).

(** *** The results *)

(** The dictionaries that [_scrape_one] can return for URL [u]. *)
Definition result_for (u : string) (res : PerUrlResult) : Prop :=
  (exists d, res = succeeded u d) \/ (exists e, res = failed u e).

Definition results_inv (urls : list string) (a : shared * list form) : Prop :=
  forall i u res, urls !! i = Some u -> a.2 !! i = Some (Done res) ->
    result_for u res.

(** *** Termination *)

(** A bound on the turns a task at place [f] can still take. *)
Definition fuel (f : form) : nat :=
  match f with
  | RobotsAcq => 19
  | RobotsGet => 18
  | RobotsText _ => 17
  | SemAcq => 16
  | RateAcq _ rest _ => 5 + 5 * length rest
  | RateSleep _ rest _ _ _ => 4 + 5 * length rest
  | PageGet _ rest _ => 3 + 5 * length rest
  | PageText _ rest _ _ => 2 + 5 * length rest
  | BackoffSleep rest _ _ => 1 + 5 * length rest
  | DoneBlocked | DoneRaised _ | Done _ => 0
  end.

Definition total_fuel (fs : list form) : nat :=
  fold_right (fun f n => (fuel f + n)%nat) 0%nat fs.

(** The variables of the loop of [fetch] with [retries = 3]: attempt [n]
    is one of 1, 2, 3 and the attempts to come are [n+1 .. 3]; a task
    sleeps before a next attempt only after attempt 1 or 2. *)
Definition counted (f : form) : Prop :=
  match f with
  | RateAcq n rest _ | RateSleep n rest _ _ _ | PageGet n rest _
  | PageText n rest _ _ => 1 <= n <= 3 /\ rest = range (n + 1) (3 + 1)
  | BackoffSleep rest _ _ => exists n, 1 <= n <= 2 /\ rest = range (n + 1) (3 + 1)
  | _ => True
  end.

Definition is_done (f : form) : bool :=
  match f with DoneBlocked | DoneRaised _ | Done _ => true | _ => false end.

(** *** The robots cache *)

(** The URLs of the [robots.txt] requests of a trace. *)
Definition robots_gets (tr : list event) : list string :=
  omap (fun e => match e with
                 | EvGet _ InRobots u _ => Some u
                 | _ => None
                 end) tr.

(** The number of fetches of the [robots.txt] of [host]. *)
Definition robots_fetches (host : string) (tr : list event) : nat :=
  count_occ string_dec (robots_gets tr) (robots_url host).

(** The host whose [robots.txt] is being fetched: the host of the task
    that holds the lock of the cache. *)
Definition fetching_host (urls : list string) (s : shared) : option string :=
  match robots_lock s with
  | Some i => netloc <$> urls !! i
  | None => None
  end.

(** What [can_fetch] answered to the task at place [f], if it has. *)
Definition verdict (f : form) : option bool :=
  match f with
  | RobotsAcq | RobotsGet | RobotsText _ | DoneRaised _ => None
  | DoneBlocked => Some false
  | _ => Some true
  end.

Definition robots_inv (urls : list string) (a : shared * list form) : Prop :=
  (forall h, fetching_host urls a.1 = Some h -> cache a.1 !! h = None) /\
  (is_Some robots ->
   forall i u f v, urls !! i = Some u -> a.2 !! i = Some f -> verdict f = Some v ->
     exists rp, cache a.1 !! netloc u = Some rp /\
                rp_can_fetch rp (user_agent the_rc) u = v).

(** The places where a task can always be resumed, given time. *)
Definition ready (f : form) : bool :=
  match f with
  | RobotsGet | RobotsText _ | RateSleep _ _ _ _ _ | PageGet _ _ _
  | PageText _ _ _ _ | BackoffSleep _ _ _ => true
  | _ => false
  end.

(** The value returned by a task that is done. *)
Definition result_of (u : string) (f : form) : PerUrlResult :=
  match f with
  | Done res => res
  | DoneRaised e => failed u e
  | _ => disallowed u
  end.

(** Everything that holds of a batch with [Semaphore(k)] at any time. *)
Definition batch_inv (k : Z) (urls : list string) (a : shared * list form) : Prop :=
  Forall wf a.2 /\ length a.2 = length urls /\ Forall counted a.2 /\
  locks_inv k a /\ trace_inv a /\ results_inv urls a /\ robots_inv urls a /\
  (is_Some limiter_on -> time_inv urls a).


(** The world that [scrape_many] creates: the loop at time [t0] with
    [Semaphore(k)], one task per URL, none of them started. *)
Definition batch_world (t0 : Q) (k : Z) (urls : list string)
  : world (exn + PerUrlResult) :=
  world_of urls (fresh t0 k, first_forms urls).

(** The places outside the [async with semaphore] of a task that has not
    been in it. *)
Definition idle (f : form) : bool :=
  match f with
  | RobotsAcq | RobotsGet | RobotsText _ | SemAcq | DoneBlocked | DoneRaised _ =>
      true
  | _ => false
  end.

(** *** Counting the fetches of [robots.txt] *)





(** * Proofs *)

(** ** The clock *)

Lemma Qltb_true a b : Qltb a b = true <-> (a < b)%Q.
Proof.
  unfold Qltb. rewrite negb_true_iff. split; intros H.
  - apply Qnot_le_lt. intros Hle. apply Qle_bool_iff in Hle. congruence.
  - destruct (Qle_bool b a) eqn:E; [|reflexivity].
    apply Qle_bool_iff in E. exfalso. apply (Qlt_not_le _ _ H E).
Qed.

Lemma Qltb_false a b : Qltb a b = false <-> (b <= a)%Q.
Proof.
  unfold Qltb. rewrite negb_false_iff. apply Qle_bool_iff.
Qed.

Lemma Qle_bool_false a b : Qle_bool a b = false <-> (b < a)%Q.
Proof.
  split; intros H.
  - apply Qnot_le_lt. intros Hle. apply Qle_bool_iff in Hle. congruence.
  - destruct (Qle_bool a b) eqn:E; [|reflexivity].
    apply Qle_bool_iff in E. exfalso. apply (Qlt_not_le _ _ H E).
Qed.

(** ** One coroutine alone *)

Lemma alone_bind {A B : Type} me (m : prog A) (f : A -> prog B) net s :
  alone me (bind m f) net s =
  match alone me m net s with
  | (Some a, s', net') => alone me (f a) net' s'
  | (None, s', net') => (None, s', net')
  end.
Proof.
  revert net s. induction m; intros net s; simpl; auto.
  - destruct (lock_owner l s); auto.
  - destruct (0 <? sem_value s); auto.
  - destruct net; auto.
Qed.

Lemma range_nil lo hi : hi <= lo -> range lo hi = [].
Proof.
  intros H. unfold range. replace (Z.to_nat (hi - lo)) with O by lia. reflexivity.
Qed.

Lemma range_cons lo hi : lo < hi -> range lo hi = lo :: range (lo + 1) hi.
Proof.
  intros H. unfold range.
  replace (Z.to_nat (hi - lo)) with (S (Z.to_nat (hi - (lo + 1)))) by lia.
  simpl. f_equal; [lia|].
  rewrite <- seq_shift, map_map. apply map_ext. intros i. lia.
Qed.

Lemma fetch_view_app tr1 tr2 :
  fetch_view (tr1 ++ tr2) = fetch_view tr2 ++ fetch_view tr1.
Proof. unfold fetch_view. rewrite rev_app_distr. apply omap_app. Qed.

Lemma after_refl s : after s s [].
Proof. repeat split. exists []. split; reflexivity. Qed.

Lemma after_trans s1 s2 s3 v1 v2 :
  after s1 s2 v1 -> after s2 s3 v2 -> after s1 s3 (v1 ++ v2).
Proof.
  intros (H1 & H2 & H3 & H4 & new1 & H5 & H6) (G1 & G2 & G3 & G4 & new2 & G5 & G6).
  repeat split; try congruence.
  exists (new2 ++ new1). split.
  - rewrite G5, H5. apply app_assoc.
  - rewrite fetch_view_app. congruence.
Qed.

Ltac new_events :=
  first [ exists []; split; reflexivity
        | eexists [_]; split; reflexivity
        | eexists [_; _]; split; reflexivity
        | eexists [_; _; _]; split; reflexivity
        | eexists [_; _; _; _]; split; reflexivity ].

Lemma alone_wait me rl u net s :
  rate_lock s = None ->
  exists s', alone me (wait rl u) net s = (Some tt, s', net) /\ after s s' [].
Proof.
  intros Hfree. unfold wait.
  destruct (Qle_bool (delay rl) 0).
  { eexists. split; [reflexivity | apply after_refl]. }
  unfold with_lock. cbn [alone lock_owner]. rewrite Hfree.
  destruct (per_host rl); cbn.
  - destruct (Qltb _ _); cbn; (eexists; split; [reflexivity|]);
      repeat split; cbn; auto; new_events.
  - destruct (Qltb _ _); cbn; (eexists; split; [reflexivity|]);
      repeat split; cbn; auto; new_events.
Qed.

Lemma alone_attempt me u t rl o net s :
  rate_lock s = None ->
  exists s', alone me (attempt u t rl) (o :: net) s
             = (Some (attempt_result o), s', net) /\
             after s s' [Attempt u].
Proof.
  intros Hfree. unfold attempt. rewrite alone_bind.
  assert (exists s1, alone me (match rl with Some rl => wait rl u | None => Ret tt end)
                       (o :: net) s = (Some tt, s1, o :: net) /\ after s s1 [])
    as (s1 & -> & Hq).
  { destruct rl; [apply alone_wait; assumption|].
    eexists; split; [reflexivity | apply after_refl]. }
  assert (after s1 (log (EvGet me InFetch u (clock s1)) s1) [Attempt u]) as Hget.
  { repeat split. new_events. }
  exists (log (EvGet me InFetch u (clock s1)) s1). split.
  - unfold bind_exn, session_get. cbn.
    destruct o as [e|resp]; cbn; [reflexivity|].
    destruct (raise_for_status resp); reflexivity.
  - apply (after_trans s s1 _ [] [Attempt u]); assumption.
Qed.

Lemma failure_of_result o :
  failure_of o = match attempt_result o with inl e => Some e | inr _ => None end.
Proof.
  destruct o as [e|resp]; cbn; [reflexivity|].
  destruct (raise_for_status resp); [reflexivity|].
  destruct (body resp); reflexivity.
Qed.

Lemma backoff_double k : 1 <= k ->
  (inject_Z (2 ^ (k - 1)) * 2)%Q = inject_Z (2 ^ (k + 1 - 1)).
Proof.
  intros H. unfold inject_Z, Qmult. cbn [Qnum Qden].
  replace (k + 1 - 1) with (Z.succ (k - 1)) by lia.
  rewrite Z.pow_succ_r by lia. f_equal. lia.
Qed.

Lemma retry_schedule_nil u r lo hi : hi < lo -> retry_schedule u r lo hi = [].
Proof. intros H. unfold retry_schedule. rewrite range_nil by lia. reflexivity. Qed.

Lemma retry_schedule_cons u r lo hi : lo <= hi ->
  retry_schedule u r lo hi =
  (if lo =? r then [Attempt u] else [Attempt u; Backoff (inject_Z (2 ^ (lo - 1)))])
  ++ retry_schedule u r (lo + 1) hi.
Proof. intros H. unfold retry_schedule. rewrite range_cons by lia. reflexivity. Qed.

(** A run of failed attempts, none of them the last one allowed. *)
Lemma alone_fetch_loop_failures me u r t rl fs :
  forall k tail s,
  1 <= k -> k + Z.of_nat (length fs) <= r ->
  Forall (fun o => is_Some (failure_of o)) fs ->
  rate_lock s = None ->
  exists s',
    alone me (fetch_loop u r t rl (range k (r + 1)) (inject_Z (2 ^ (k - 1))))
      (fs ++ tail) s
    = alone me (fetch_loop u r t rl (range (k + Z.of_nat (length fs)) (r + 1))
                 (inject_Z (2 ^ (k + Z.of_nat (length fs) - 1)))) tail s' /\
    after s s' (retry_schedule u r k (k + Z.of_nat (length fs) - 1)).
Proof.
  induction fs as [|o fs IH]; intros k tail s Hk Hr Hfs Hfree.
  - exists s. cbn [length Z.of_nat app]. rewrite Z.add_0_r. split; [reflexivity|].
    rewrite retry_schedule_nil by lia. apply after_refl.
  - cbn [length] in *. rewrite Nat2Z.inj_succ in *.
    apply Forall_cons in Hfs as [[e He] Hfs].
    rewrite range_cons by lia. cbn [fetch_loop app]. rewrite alone_bind.
    destruct (alone_attempt me u t rl o (fs ++ tail) s Hfree) as (s1 & -> & H1).
    rewrite failure_of_result in He.
    destruct (attempt_result o) as [e'|]; [|discriminate].
    destruct (Z.eqb_spec k r) as [->|Hne]; [lia|].
    cbn [bind sleep alone].
    set (s2 := set_clock _ _).
    assert (after s1 s2 [Backoff (inject_Z (2 ^ (k - 1)))]) as H2.
    { repeat split. new_events. }
    rewrite backoff_double by lia.
    destruct (IH (k + 1) tail s2) as (s3 & -> & H3); try lia; auto.
    { subst s2. cbn. destruct H1 as (-> & _). assumption. }
    exists s3. split.
    + do 2 f_equal; [f_equal; lia | do 2 f_equal; lia].
    + rewrite retry_schedule_cons by lia.
      destruct (Z.eqb_spec k r); [lia|].
      replace (k + Z.succ (Z.of_nat (length fs)) - 1)
        with (k + 1 + Z.of_nat (length fs) - 1) by lia.
      change [Attempt u; Backoff (inject_Z (2 ^ (k - 1)))]
        with ([Attempt u] ++ [Backoff (inject_Z (2 ^ (k - 1)))]).
      eapply after_trans; [eapply after_trans|]; eassumption.
Qed.

(** One more attempt, which ends the loop: it succeeds, or it fails and
    is the last one allowed. *)
Lemma alone_fetch_loop_last me u r t rl k b o tail s :
  k <= r -> rate_lock s = None ->
  (k = r \/ failure_of o = None) ->
  exists s',
    alone me (fetch_loop u r t rl (range k (r + 1)) b) (o :: tail) s
    = (Some (match attempt_result o with
             | inl e => inl e
             | inr text => inr (Some text)
             end), s', tail) /\
    after s s' [Attempt u].
Proof.
  intros Hk Hfree Hend.
  rewrite range_cons by lia. cbn [fetch_loop]. rewrite alone_bind.
  destruct (alone_attempt me u t rl o tail s Hfree) as (s1 & -> & H1).
  exists s1. split; [|assumption].
  rewrite failure_of_result in Hend.
  destruct (attempt_result o) as [e|text]; [|reflexivity].
  destruct Hend as [->|]; [|discriminate].
  rewrite Z.eqb_refl. reflexivity.
Qed.

Lemma range_snoc lo hi : lo <= hi -> range lo (hi + 1) = range lo hi ++ [hi].
Proof.
  intros H. unfold range.
  replace (Z.to_nat (hi + 1 - lo)) with (Z.to_nat (hi - lo) + 1)%nat by lia.
  rewrite seq_app, map_app. cbn. do 2 f_equal. lia.
Qed.

Lemma retry_schedule_last u r : 1 <= r ->
  retry_schedule u r 1 r = retry_schedule u r 1 (r - 1) ++ [Attempt u].
Proof.
  intros H. unfold retry_schedule.
  replace (r - 1 + 1) with r by lia.
  rewrite range_snoc by lia. rewrite flat_map_app. cbn.
  rewrite Z.eqb_refl. reflexivity.
Qed.

Lemma attempts_in_app v1 v2 :
  attempts_in (v1 ++ v2) = (attempts_in v1 + attempts_in v2)%nat.
Proof. unfold attempts_in. rewrite List.filter_app, length_app. reflexivity. Qed.

Lemma attempts_in_schedule u r lo hi : lo <= hi + 1 ->
  Z.of_nat (attempts_in (retry_schedule u r lo hi)) = hi + 1 - lo.
Proof.
  intros H. unfold retry_schedule.
  remember (Z.to_nat (hi + 1 - lo)) as n eqn:En.
  revert lo H En. induction n as [|n IH]; intros lo H En.
  - rewrite range_nil by lia. cbn. lia.
  - rewrite range_cons by lia. cbn [flat_map]. rewrite attempts_in_app.
    rewrite Nat2Z.inj_add, (IH (lo + 1)) by lia.
    destruct (lo =? r); cbn; lia.
Qed.

(** [fetch] up to and including the attempt that ends it. *)
Lemma alone_fetch me u r t rl fs o tail s :
  0 < sem_value s -> rate_lock s = None ->
  Z.of_nat (length fs) < r ->
  Forall (fun o => is_Some (failure_of o)) fs ->
  (Z.of_nat (length fs) = r - 1 \/ failure_of o = None) ->
  exists s' new,
    alone me (fetch u r t rl) (fs ++ o :: tail) s
    = (Some (match attempt_result o with
             | inl e => inl e
             | inr text => inr (Some text)
             end), s', tail) /\
    trace s' = new ++ trace s /\
    fetch_view new = retry_schedule u r 1 (Z.of_nat (length fs)) ++ [Attempt u] /\
    sem_value s' = sem_value s.
Proof.
  intros Hsem Hfree Hlen Hfs Hend.
  unfold fetch, with_semaphore. cbn [alone].
  destruct (Z.ltb_spec 0 (sem_value s)); [|lia].
  rewrite alone_bind.
  change 1%Q with (inject_Z (2 ^ (1 - 1))).
  destruct (alone_fetch_loop_failures me u r t rl fs 1 (o :: tail) (sem_acquire me s))
    as (s1 & -> & H1); try lia; auto.
  destruct (alone_fetch_loop_last me u r t rl (1 + Z.of_nat (length fs))
              (inject_Z (2 ^ (1 + Z.of_nat (length fs) - 1))) o tail s1)
    as (s2 & -> & H2); try lia.
  { destruct H1 as (-> & _). assumption. }
  { destruct Hend; [left; lia | right; assumption]. }
  cbn [alone].
  pose proof (after_trans _ _ _ _ _ H1 H2) as (_ & _ & Hs & _ & new & Htr & Hv).
  exists (sem_release me s2), (EvSemRelease me :: new ++ [EvSemAcquire me]).
  split; [reflexivity|]. split; [|split].
  - cbn. rewrite Htr. cbn. rewrite <- app_assoc. reflexivity.
  - change (EvSemRelease me :: new ++ [EvSemAcquire me])
      with ([EvSemRelease me] ++ new ++ [EvSemAcquire me]).
    rewrite !fetch_view_app. cbn. rewrite app_nil_r, Hv.
    replace (1 + Z.of_nat (length fs) - 1) with (Z.of_nat (length fs)) by lia.
    reflexivity.
  - cbn. rewrite Hs. cbn. lia.
Qed.

(** ** The claims on one call *)

(** C4, as amended. A call of [fetch] with [retries = r >= 1], alone on
    the loop with a free semaphore slot:
    - if each of its [r] attempts fails ([session.get] raises, or
      [raise_for_status] raises, that is the status is 400 or above, or
      reading the text raises), it sends exactly [r] requests, sleeps
      [2^(k-1)] seconds between attempts [k] and [k+1], and raises the
      exception of attempt [r];
    - if an attempt, after failed ones, gets a response with a status
      below 400 whose text can be read, it returns that text at once: no
      further request, no further sleep, no further answer consumed. *)
Theorem fetch_retry_policy me u r t rl s :
  1 <= r -> 0 < sem_value s -> rate_lock s = None ->
  (forall fs o e tail,
     Z.of_nat (length fs) = r - 1 ->
     Forall (fun o => is_Some (failure_of o)) fs ->
     failure_of o = Some e ->
     exists s' new,
       alone me (fetch u r t rl) (fs ++ o :: tail) s = (Some (inl e), s', tail) /\
       trace s' = new ++ trace s /\
       fetch_view new = retry_schedule u r 1 r /\
       Z.of_nat (attempts_in (fetch_view new)) = r) /\
  (forall fs resp text tail,
     Z.of_nat (length fs) < r ->
     Forall (fun o => is_Some (failure_of o)) fs ->
     status resp < 400 -> body resp = inr text ->
     exists s' new,
       alone me (fetch u r t rl) (fs ++ inr resp :: tail) s
       = (Some (inr (Some text)), s', tail) /\
       trace s' = new ++ trace s /\
       fetch_view new
       = retry_schedule u r 1 (Z.of_nat (length fs)) ++ [Attempt u]).
Proof.
  intros Hr Hsem Hfree. split.
  - intros fs o e tail Hlen Hfs Ho.
    destruct (alone_fetch me u r t rl fs o tail s) as (s' & new & Hrun & Htr & Hv & _);
      auto; try lia.
    exists s', new. rewrite Hrun.
    rewrite failure_of_result in Ho.
    destruct (attempt_result o); [|discriminate]. injection Ho as ->.
    split; [reflexivity|]. split; [assumption|].
    assert (fetch_view new = retry_schedule u r 1 r) as Hv'.
    { rewrite Hv, Hlen. symmetry. apply retry_schedule_last. assumption. }
    split; [assumption|].
    rewrite Hv', attempts_in_schedule; lia.
  - intros fs resp text tail Hlen Hfs Hst Hbody.
    assert (attempt_result (inr resp) = inr text) as Hres.
    { cbn. unfold raise_for_status.
      destruct (Z.leb_spec 400 (status resp)); [lia | assumption]. }
    destruct (alone_fetch me u r t rl fs (inr resp) tail s)
      as (s' & new & Hrun & Htr & Hv & _); auto.
    { right. rewrite failure_of_result, Hres. reflexivity. }
    exists s', new. rewrite Hrun, Hres. auto.
Qed.

(** C10. With [retries <= 0] the loop of [fetch] has no iteration: the
    coroutine is "take a slot, give it back, return None". Run alone with
    a free slot it returns [None] (no text, no exception), sends nothing
    and leaves only the two semaphore events behind. *)
Theorem fetch_without_attempts me u r t rl net s :
  r <= 0 ->
  fetch u r t rl = SemAcquire (SemRelease (Ret (inr None))) /\
  (0 < sem_value s ->
   alone me (fetch u r t rl) net s
   = (Some (inr None), sem_release me (sem_acquire me s), net)).
Proof.
  intros Hr.
  assert (fetch u r t rl = SemAcquire (SemRelease (Ret (inr None)))) as E.
  { unfold fetch, with_semaphore. rewrite range_nil by lia. reflexivity. }
  split; [assumption|].
  intros Hsem. rewrite E. cbn.
  destruct (Z.ltb_spec 0 (sem_value s)); [reflexivity | lia].
Qed.

(** C5. When the rules of the host of [u] are not cached and the fetch of
    its [robots.txt] raises, or answers with a status other than 200 (or
    with a text that cannot be read), [can_fetch] returns [True] and no
    exception; the empty rule set is cached, and every later call for a
    URL of that host returns [True] too, without any request. The
    library's part is that an empty rule set allows everything. *)
Theorem can_fetch_allows_when_robots_unavailable me rc u o net s :
  (forall ua u', rp_can_fetch [] ua u' = true) ->
  robots_lock s = None -> cache s !! netloc u = None ->
  robots_unavailable o ->
  exists s',
    alone me (can_fetch rc u) (o :: net) s = (Some (inr true), s', net) /\
    cache s' = <[netloc u := []]> (cache s) /\
    robots_lock s' = None /\
    forall me' u' net', netloc u' = netloc u ->
      exists s'',
        alone me' (can_fetch rc u') net' s' = (Some (inr true), s'', net') /\
        requests (trace s'') = requests (trace s') /\
        cache s'' = cache s'.
Proof.
  intros Hempty Hfree Hmiss Ho.
  assert (forall s1, robots_lock s1 = None -> cache s1 !! netloc u = Some [] ->
          forall me' u' net', netloc u' = netloc u ->
          exists s'',
            alone me' (can_fetch rc u') net' s1 = (Some (inr true), s'', net') /\
            requests (trace s'') = requests (trace s1) /\ cache s'' = cache s1)
    as Hlater.
  { intros s1 Hf Hc me' u' net' Hhost.
    unfold can_fetch, with_lock. cbn. rewrite Hf, Hhost. cbn. rewrite Hc. cbn.
    rewrite Hempty. eexists. split; [reflexivity|]. split; reflexivity. }
  unfold can_fetch, with_lock. cbn. rewrite Hfree. cbn. rewrite Hmiss. cbn.
  assert (forall s1 : shared,
            robots_lock s1 = None ->
            cache s1 = <[netloc u := []]> (cache s) ->
            cache s1 !! netloc u = Some []) as Hin.
  { intros s1 _ ->. apply lookup_insert_eq. }
  destruct o as [e|resp]; cbn.
  - rewrite Hempty. eexists. split; [reflexivity|].
    split; [reflexivity|]. split; [reflexivity|].
    apply Hlater; [reflexivity|]. apply Hin; reflexivity.
  - destruct (Z.eqb_spec (status resp) 200) as [E|E]; cbn.
    + destruct Ho as [Ho|[e Ho]]; [contradiction|]. rewrite Ho. cbn.
      rewrite Hempty. eexists. split; [reflexivity|].
      split; [reflexivity|]. split; [reflexivity|].
      apply Hlater; [reflexivity|]. apply Hin; reflexivity.
    + rewrite Hempty. eexists. split; [reflexivity|].
      split; [reflexivity|]. split; [reflexivity|].
      apply Hlater; [reflexivity|]. apply Hin; reflexivity.
Qed.

(** ** More on one call *)

Lemma alone_imdb_fetch me u t rl o net s :
  0 < sem_value s -> rate_lock s = None ->
  exists s' new,
    alone me (imdb_fetch u rl t) (o :: net) s = (Some (attempt_result o), s', net) /\
    trace s' = new ++ trace s /\
    fetch_view new = [Attempt u] /\
    sem_value s' = sem_value s /\ rate_lock s' = None /\
    alone me (fetch u 1 t rl) (o :: net) s
    = (Some (match attempt_result o with
             | inl e => inl e
             | inr text => inr (Some text)
             end), s', net).
Proof.
  intros Hsem Hfree.
  assert ((0 <? sem_value s) = true) as Hs by (apply Z.ltb_lt; assumption).
  destruct (alone_attempt me u t rl o net (sem_acquire me s) Hfree)
    as (s1 & Hrun & Hl & _ & Hv & _ & new & Htr & Hnew).
  exists (sem_release me s1), ([EvSemRelease me] ++ new ++ [EvSemAcquire me]).
  split; [|split; [|split; [|split; [|split]]]].
  - change (imdb_fetch u rl t) with (with_semaphore (attempt u t rl)).
    unfold with_semaphore. cbn [alone]. rewrite Hs, alone_bind, Hrun. reflexivity.
  - cbn. rewrite Htr. cbn. rewrite <- app_assoc. reflexivity.
  - rewrite !fetch_view_app, Hnew. reflexivity.
  - cbn. rewrite Hv. cbn. lia.
  - cbn. rewrite Hl. assumption.
  - unfold fetch, with_semaphore. rewrite range_cons, range_nil by lia.
    cbn [alone fetch_loop]. rewrite Hs, !alone_bind, Hrun.
    destruct (attempt_result o); reflexivity.
Qed.

(** X11. [fetch] of [async_imdb.py], alone on the loop with a free slot:
    whatever the network answers, it sends one request and no more, never
    sleeps a backoff, gives its slot back and leaves the lock of the
    limiter free; it returns the text of a response with a status below
    400 and raises every failure at once. It does what [fetch] of
    [async_scraper.py] does with [retries = 1]. *)
Theorem imdb_fetch_single_attempt me u t rl o net s :
  0 < sem_value s -> rate_lock s = None ->
  exists s' new,
    alone me (imdb_fetch u rl t) (o :: net) s = (Some (attempt_result o), s', net) /\
    trace s' = new ++ trace s /\
    fetch_view new = [Attempt u] /\
    sem_value s' = sem_value s /\ rate_lock s' = None /\
    alone me (fetch u 1 t rl) (o :: net) s
    = (Some (match attempt_result o with
             | inl e => inl e
             | inr text => inr (Some text)
             end), s', net).
Proof. exact (alone_imdb_fetch me u t rl o net s). Qed.

Lemma alone_can_fetch_hit me rc u rp net s :
  robots_lock s = None -> cache s !! netloc u = Some rp ->
  exists s',
    alone me (can_fetch rc u) net s
    = (Some (inr (rp_can_fetch rp (user_agent rc) u)), s', net) /\
    requests (trace s') = requests (trace s) /\
    cache s' = cache s /\ robots_lock s' = None.
Proof.
  intros Hfree Hc. unfold can_fetch, with_lock. cbn. rewrite Hfree. cbn.
  rewrite Hc. cbn. eexists. split; [reflexivity|]. repeat split.
Qed.

Lemma alone_can_fetch_miss me rc u o net s :
  robots_lock s = None -> cache s !! netloc u = None ->
  exists s',
    alone me (can_fetch rc u) (o :: net) s
    = (Some (match parse_robots (robots_text_of o) with
             | inr rp => inr (rp_can_fetch rp (user_agent rc) u)
             | inl e => inl e
             end), s', net) /\
    requests (trace s')
    = EvGet me InRobots (robots_url (netloc u)) (clock s) :: requests (trace s) /\
    cache s' = match parse_robots (robots_text_of o) with
               | inr rp => <[netloc u := rp]> (cache s)
               | inl _ => cache s
               end /\
    robots_lock s' = None.
Proof.
  intros Hfree Hc. unfold can_fetch, with_lock. cbn. rewrite Hfree. cbn.
  rewrite Hc. cbn.
  destruct o as [e|resp]; cbn.
  - eexists. split; [reflexivity|]. repeat split.
  - destruct (status resp =? 200); cbn.
    + destruct (body resp) as [e|text]; cbn.
      * eexists. split; [reflexivity|]. repeat split.
      * destruct (parse_robots text); cbn;
          (eexists; split; [reflexivity|]; repeat split).
    + eexists. split; [reflexivity|]. repeat split.
Qed.

(** X12. [can_fetch] for a host that is not in the cache sends one
    request, for [https://host/robots.txt], and has the text of a 200
    response, or the empty text. When [rp.parse] reads the lines of the
    text, they are stored as the rules of the host and decide, and every
    later call for a URL of that host decides on the stored rules and
    sends nothing. When [rp.parse] raises, [can_fetch] raises that
    exception with its lock released and nothing stored, and the next
    call for the host sends the request again. *)
Theorem can_fetch_caches_rules me rc u o net s :
  robots_lock s = None -> cache s !! netloc u = None ->
  exists s',
    requests (trace s')
    = EvGet me InRobots (robots_url (netloc u)) (clock s) :: requests (trace s) /\
    robots_lock s' = None /\
    match parse_robots (robots_text_of o) with
    | inr rp =>
        alone me (can_fetch rc u) (o :: net) s
        = (Some (inr (rp_can_fetch rp (user_agent rc) u)), s', net) /\
        cache s' = <[netloc u := rp]> (cache s) /\
        forall me' u' net', netloc u' = netloc u ->
          exists s'',
            alone me' (can_fetch rc u') net' s'
            = (Some (inr (rp_can_fetch rp (user_agent rc) u')), s'', net') /\
            requests (trace s'') = requests (trace s') /\
            cache s'' = cache s'
    | inl e =>
        alone me (can_fetch rc u) (o :: net) s = (Some (inl e), s', net) /\
        cache s' = cache s /\
        forall me' u' o' net', netloc u' = netloc u ->
          exists r s'',
            alone me' (can_fetch rc u') (o' :: net') s' = (Some r, s'', net') /\
            requests (trace s'')
            = EvGet me' InRobots (robots_url (netloc u)) (clock s')
                :: requests (trace s')
    end.
Proof.
  intros Hfree Hc.
  destruct (alone_can_fetch_miss me rc u o net s Hfree Hc)
    as (s' & Hrun & Hreq & Hcache & Hfree').
  exists s'. split; [assumption|]. split; [assumption|].
  destruct (parse_robots (robots_text_of o)) as [e|rp].
  - split; [assumption|]. split; [assumption|].
    intros me' u' o' net' Hhost.
    destruct (alone_can_fetch_miss me' rc u' o' net' s' Hfree')
      as (s'' & Hrun' & Hreq' & _).
    { rewrite Hhost, Hcache. assumption. }
    eexists _, s''. split; [eassumption|]. rewrite <- Hhost. assumption.
  - split; [assumption|]. split; [assumption|].
    intros me' u' net' Hhost.
    destruct (alone_can_fetch_hit me' rc u' rp net' s' Hfree')
      as (s'' & Hrun' & Hreq' & Hcache' & _).
    { rewrite Hhost, Hcache. apply lookup_insert_eq. }
    exists s''. auto.
Qed.

Lemma alone_scrape_one me u sels rl fs o tail s :
  0 < sem_value s -> rate_lock s = None ->
  Z.of_nat (length fs) < 3 ->
  Forall (fun o => is_Some (failure_of o)) fs ->
  (Z.of_nat (length fs) = 2 \/ failure_of o = None) ->
  exists s',
    alone me (scrape_one u sels rl None) (fs ++ o :: tail) s
    = (Some (inr (match attempt_result o with
                  | inl e => failed u e
                  | inr text =>
                      match parse_html text sels with
                      | inr d => succeeded u d
                      | inl e => failed u e
                      end
                  end)), s', tail) /\
    sem_value s' = sem_value s.
Proof.
  intros Hsem Hfree Hlen Hfs Hend.
  assert (Z.of_nat (length fs) = 3 - 1 \/ failure_of o = None) as Hend'
    by (destruct Hend; [left; lia | right; assumption]).
  destruct (alone_fetch me u 3 20 rl fs o tail s Hsem Hfree Hlen Hfs Hend')
    as (s' & new & Hrun & _ & _ & Hs).
  exists s'. split; [|assumption].
  unfold scrape_one, bind_exn. cbn [bind negb].
  rewrite !alone_bind, Hrun.
  destruct (attempt_result o) as [e|text]; cbn; [reflexivity|].
  destruct (parse_html text sels); reflexivity.
Qed.

(** X17. [_scrape_one] without a robots cache, alone on the loop: after
    at most two failed attempts, a page that is read goes to
    [parse_html] and its data come back with [ok = True]; an exception
    of [parse_html], like the failure of a third attempt, comes back as
    the error text of a result with [ok = False]. The slot is given
    back in each case. *)
Theorem scrape_one_extracts_or_reports me u sels rl fs o tail s :
  0 < sem_value s -> rate_lock s = None ->
  Z.of_nat (length fs) < 3 ->
  Forall (fun o => is_Some (failure_of o)) fs ->
  (Z.of_nat (length fs) = 2 \/ failure_of o = None) ->
  exists s',
    alone me (scrape_one u sels rl None) (fs ++ o :: tail) s
    = (Some (inr (match attempt_result o with
                  | inl e => failed u e
                  | inr text =>
                      match parse_html text sels with
                      | inr d => succeeded u d
                      | inl e => failed u e
                      end
                  end)), s', tail) /\
    sem_value s' = sem_value s.
Proof. exact (alone_scrape_one me u sels rl fs o tail s). Qed.

(** X18. A [RateLimiter] made with a delay of zero or less (a negative
    delay becomes zero) never waits: [wait] returns at once in every
    state, without the lock, which another task may hold, and leaves the
    state as it is. *)
Theorem wait_without_delay me d ph u net s :
  (d <= 0)%Q ->
  delay (RateLimiter_init d ph) == 0 /\
  alone me (wait (RateLimiter_init d ph) u) net s = (Some tt, s, net).
Proof.
  intros Hd. unfold RateLimiter_init, wait, Qmax0. cbn [delay].
  rewrite (proj2 (Qle_bool_iff d 0) Hd). split; reflexivity.
Qed.

(** ** The coroutine and the machine move alike *)

Lemma limiter_on_delay :
  is_Some limiter_on -> Qle_bool (delay the_rl) 0 = false.
Proof.
  unfold limiter_on, the_rl. intros [rl H].
  destruct rate_limiter as [rl'|]; [|discriminate]. cbn.
  destruct (Qle_bool (delay rl') 0); [discriminate | reflexivity].
Qed.

(** Entering the loop of [fetch] with [attempts] left. *)
Lemma run_loop me u attempts b s :
  run me (after_fetch u
            (r <- fetch_loop u 3 20 rate_limiter attempts b ;; SemRelease (Ret r))) s
  = to_task u (loop_from me u attempts b s).
Proof.
  destruct attempts as [|n rest].
  - cbn. reflexivity.
  - unfold to_task, loop_from, begin_attempt, limiter_on.
    cbn [fetch_loop]. unfold attempt.
    destruct rate_limiter as [rl|] eqn:E.
    + unfold wait. destruct (Qle_bool (delay rl) 0) eqn:Ed; cbn.
      * unfold task_of, code_of, in_fetch, after_fetch. rewrite E. reflexivity.
      * unfold task_of, code_of, in_fetch, after_fetch, the_rl, wait. rewrite E. cbn.
        rewrite Ed. reflexivity.
    + cbn. unfold task_of, code_of, in_fetch, after_fetch. rewrite E. reflexivity.
Qed.

(** Leaving [fetch] with value [r]. *)
Lemma run_finish me u r s :
  run me (after_fetch u (SemRelease (Ret r))) s
  = to_task u (finish me u r s).
Proof.
  unfold finish. destruct r as [e|html]; cbn; [reflexivity|].
  destruct (parse_fetched html selectors); reflexivity.
Qed.

(** The body of the [try] ended with exception [e]. *)
Lemma run_attempt_failed me u n rest b e s :
  run me (in_fetch u n rest b (Ret (inl e))) s
  = to_task u (attempt_failed me u n rest b e s).
Proof.
  unfold attempt_failed, in_fetch. cbn [bind].
  destruct (n =? 3).
  - apply (run_finish me u (inl e) s).
  - reflexivity.
Qed.

(** Out of [wait], with the lock: reserve the slot, release, send. *)
Lemma run_reserve me u n rest b s :
  run me (in_fetch u n rest b
            ((now <- loop_time ;;
              (if per_host the_rl
               then per_host_next_set (netloc u) (now + delay the_rl)
               else next_ready_global_set (now + delay the_rl)) ;;
              LockRelease RateLock (Ret tt)) ;;
             request u)) s
  = to_task u (reserve_and_send me u n rest b s).
Proof.
  unfold reserve_and_send, set_next. cbn.
  destruct (per_host the_rl); reflexivity.
Qed.

Lemma resume_task_of me u f ans s :
  wf f ->
  resume me (task_of u f) ans s
  = to_task u <$> next_form me u f ans s.
Proof.
  intros Hwf. destruct f.
  - cbn. destruct (robots_lock s); [reflexivity|]. cbn.
    destruct (cache s !! netloc u); cbn.
    + unfold robots_decided.
      destruct (rp_can_fetch _ _ _); reflexivity.
    + reflexivity.
  - cbn. destruct ans as [e|resp]; cbn.
    + unfold robots_parsed, robots_decided. cbn.
      destruct (rp_can_fetch _ _ _); reflexivity.
    + destruct (status resp =? 200); cbn; [reflexivity|].
      unfold robots_parsed, robots_decided. cbn.
      destruct (rp_can_fetch _ _ _); reflexivity.
  - cbn. unfold robots_parsed, robots_decided.
    destruct (body resp) as [e|text]; cbn.
    + destruct (rp_can_fetch _ _ _); reflexivity.
    + destruct (parse_robots text) as [e|rp]; cbn; [reflexivity|].
      destruct (rp_can_fetch _ _ _); reflexivity.
  - cbn [next_form]. unfold resume. cbn [task_of code_of code after_fetch].
    unfold fetch, with_semaphore. cbn [bind bind_exn scrape_handler].
    destruct (0 <? sem_value s); [|reflexivity].
    cbn [fmap option_fmap option_map]; rewrite <- run_loop. reflexivity.
  - cbn [next_form]. unfold resume. cbn [task_of code_of code].
    pose proof (limiter_on_delay Hwf) as Hd.
    unfold wait. rewrite Hd. unfold with_lock, in_fetch, after_fetch.
    cbn [bind bind_exn scrape_handler lock_owner].
    destruct (rate_lock s); [reflexivity|].
    unfold next_of. cbv zeta. cbn [clock lock log set_lock].
    destruct (per_host the_rl) eqn:Hph.
    + cbn. destruct (Qltb _ _).
      * cbn. unfold to_task, task_of, code_of, in_fetch, after_fetch, wait_sleeping.
        cbn. rewrite Hph. reflexivity.
      * cbn [fmap option_fmap option_map]; rewrite <- run_reserve. rewrite Hph. reflexivity.
    + cbn. destruct (Qltb _ _).
      * cbn. unfold to_task, task_of, code_of, in_fetch, after_fetch, wait_sleeping.
        cbn. rewrite Hph. reflexivity.
      * cbn [fmap option_fmap option_map]; rewrite <- run_reserve. rewrite Hph. reflexivity.
  - cbn [next_form]. unfold resume. cbn [task_of code_of code wake wake_of].
    unfold wait_sleeping, in_fetch, after_fetch. cbn [bind bind_exn scrape_handler].
    destruct (Qle_bool until (clock s)); [|reflexivity].
    cbn [fmap option_fmap option_map]; rewrite <- run_reserve. reflexivity.
  - cbn [next_form]. unfold resume. cbn [task_of code_of code].
    unfold request, session_get, in_fetch, after_fetch.
    cbn [bind bind_exn scrape_handler].
    destruct ans as [e|resp].
    + cbn [fmap option_fmap option_map]; rewrite <- run_attempt_failed. reflexivity.
    + destruct (raise_for_status resp) as [e|].
      * cbn [fmap option_fmap option_map]; rewrite <- run_attempt_failed. reflexivity.
      * reflexivity.
  - cbn [next_form]. unfold resume. cbn [task_of code_of code].
    unfold resp_text, in_fetch, after_fetch.
    cbn [bind bind_exn scrape_handler].
    destruct (body resp) as [e|text].
    + cbn [fmap option_fmap option_map]; rewrite <- run_attempt_failed. reflexivity.
    + cbn [fmap option_fmap option_map]; rewrite <- (run_finish me u (inr (Some text)) s). reflexivity.
  - cbn [next_form]. unfold resume. cbn [task_of code_of code wake wake_of].
    unfold sleep, after_fetch. cbn [bind bind_exn scrape_handler].
    destruct (Qle_bool until (clock s)); [|reflexivity].
    cbn [fmap option_fmap option_map]; rewrite <- run_loop. reflexivity.
  - reflexivity.
  - reflexivity.
  - reflexivity.
Qed.

Lemma next_form_wf me u f ans s f' s' :
  next_form me u f ans s = Some (f', s') -> wf f -> wf f'.
Proof.
  assert (forall n rest b s0 f0 s1,
            begin_attempt me u n rest b s0 = (f0, s1) -> wf f0) as Hbegin.
  { intros n rest b s0 f0 s1. unfold begin_attempt, send_request.
    destruct limiter_on eqn:E; intros [= <- <-]; cbn.
    - rewrite E. eexists; reflexivity.
    - exact I. }
  assert (forall r s0 f0 s1, finish me u r s0 = (f0, s1) -> wf f0) as Hfin.
  { intros r s0 f0 s1. unfold finish.
    destruct r as [e|html]; [|destruct (parse_fetched html selectors)];
      intros [= <- <-]; exact I. }
  assert (forall attempts b s0 f0 s1,
            loop_from me u attempts b s0 = (f0, s1) -> wf f0) as Hloop.
  { intros [|n rest] b s0 f0 s1; cbn [loop_from]; eauto. }
  assert (forall n rest b e s0 f0 s1,
            attempt_failed me u n rest b e s0 = (f0, s1) -> wf f0) as Hfail.
  { intros n rest b e s0 f0 s1. unfold attempt_failed.
    destruct (n =? 3); [eauto|]. intros [= <- <-]. exact I. }
  assert (forall rp s0 f0 s1,
            is_Some robots -> robots_decided me u rp s0 = (f0, s1) -> wf f0) as Hdec.
  { intros rp s0 f0 s1 Hr. unfold robots_decided.
    destruct (rp_can_fetch _ _ _); intros [= <- <-]; cbn; auto. }
  assert (forall text s0 f0 s1,
            is_Some robots -> robots_parsed me u text s0 = (f0, s1) -> wf f0)
    as Hparsed.
  { intros text s0 f0 s1 Hr. unfold robots_parsed.
    destruct (parse_robots text) as [e|rp] eqn:E; [|eauto].
    intros [= <- <-]. split; [exact Hr | eauto]. }
  intros H Hwf. destruct f; cbn [next_form wf] in H, Hwf; cbv zeta in H.
  - destruct (robots_lock s); [discriminate|].
    destruct (cache _ !! _).
    + injection H as H. eauto.
    + injection H as <- <-. exact Hwf.
  - destruct ans as [e|resp]; [|destruct (status resp =? 200)].
    + injection H as H. eauto.
    + injection H as <- <-. exact Hwf.
    + injection H as H. eauto.
  - injection H as H. eauto.
  - destruct (0 <? sem_value s); [|discriminate]. injection H as H. eauto.
  - destruct (rate_lock s); [discriminate|].
    destruct (Qltb _ _).
    + injection H as <- <-. exact Hwf.
    + unfold reserve_and_send, send_request in H. injection H as <- <-. exact I.
  - destruct (Qle_bool _ _); [|discriminate].
    unfold reserve_and_send, send_request in H. injection H as <- <-. exact I.
  - destruct ans as [e|resp]; [|destruct (raise_for_status resp)].
    + injection H as H. eauto.
    + injection H as H. eauto.
    + injection H as <- <-. exact I.
  - destruct (body resp).
    + injection H as H. exact (Hfail _ _ _ _ _ _ _ H).
    + injection H as H. exact (Hfin (inr (Some s0)) s _ _ H).
  - destruct (Qle_bool _ _); [|discriminate]. injection H as H. eauto.
  - discriminate.
  - discriminate.
  - discriminate.
Qed.

Lemma tasks_of_lookup urls fs i u f :
  urls !! i = Some u -> fs !! i = Some f ->
  tasks_of urls fs !! i = Some (task_of u f).
Proof.
  intros Hu Hf. unfold tasks_of. rewrite lookup_zip_with, Hu, Hf. reflexivity.
Qed.

Lemma tasks_of_lookup_None urls fs i :
  length fs = length urls ->
  (urls !! i = None \/ fs !! i = None) -> tasks_of urls fs !! i = None.
Proof.
  intros Hlen H. unfold tasks_of. rewrite lookup_zip_with.
  destruct H as [H|H].
  - rewrite H. reflexivity.
  - rewrite H. destruct (urls !! i); reflexivity.
Qed.

Lemma tasks_of_insert urls fs i u f :
  urls !! i = Some u ->
  <[i := task_of u f]> (tasks_of urls fs) = tasks_of urls (<[i := f]> fs).
Proof.
  intros Hu. unfold tasks_of.
  rewrite insert_zip_with. rewrite (list_insert_id urls i u Hu). reflexivity.
Qed.

(** One turn of the loop on the world is one step of the machine. *)
Lemma step_world_of urls c a :
  Forall wf a.2 -> length a.2 = length urls ->
  step c (world_of urls a) = world_of urls <$> machine_step urls c a.
Proof.
  destruct a as [s fs]. cbn [fst snd]. intros Hwf Hlen.
  unfold step, machine_step, world_of. cbn [state tasks fst snd].
  destruct (Qle_bool 0 (dt c)); [|reflexivity].
  destruct (urls !! pick c) as [u|] eqn:Hu;
    [|rewrite tasks_of_lookup_None by auto; reflexivity].
  destruct (fs !! pick c) as [f|] eqn:Hf;
    [|rewrite tasks_of_lookup_None by auto; reflexivity].
  rewrite (tasks_of_lookup urls fs _ u f Hu Hf).
  rewrite resume_task_of by (eapply Forall_lookup_1; eassumption).
  destruct (next_form _ _ _ _ _) as [[f' s']|]; [|reflexivity].
  cbn. rewrite tasks_of_insert by assumption. reflexivity.
Qed.

Lemma machine_step_wf urls c a a' :
  machine_step urls c a = Some a' ->
  Forall wf a.2 -> length a.2 = length urls ->
  Forall wf a'.2 /\ length a'.2 = length urls.
Proof.
  destruct a as [s fs]. unfold machine_step. cbn [fst snd].
  intros H Hwf Hlen.
  destruct (Qle_bool 0 (dt c)); [|discriminate].
  destruct (urls !! pick c) as [u|]; [|discriminate].
  destruct (fs !! pick c) as [f|] eqn:Hf; [|discriminate].
  destruct (next_form _ _ _ _ _) as [[f' s']|] eqn:Hn; [|discriminate].
  injection H as <-. cbn [snd]. split.
  - apply Forall_insert; [assumption|].
    eapply next_form_wf; [eassumption|]. eapply Forall_lookup_1; eassumption.
  - rewrite length_insert. assumption.
Qed.

Lemma exec_world_of urls cs : forall a,
  Forall wf a.2 -> length a.2 = length urls ->
  exec cs (world_of urls a) = world_of urls <$> machine_exec urls cs a.
Proof.
  induction cs as [|c cs IH]; intros a Hwf Hlen; [reflexivity|].
  cbn [exec machine_exec]. rewrite step_world_of by assumption.
  destruct (machine_step urls c a) as [a'|] eqn:Hs; [|reflexivity].
  cbn. destruct (machine_step_wf _ _ _ _ Hs Hwf Hlen). apply IH; assumption.
Qed.

(** The tasks that [gather] creates are the machine in its first state. *)
Lemma scrape_one_first_form u :
  scrape_one u selectors rate_limiter robots = code_of u first_form.
Proof.
  unfold first_form, code_of, after_robots, after_fetch, scrape_one, the_rc.
  destruct robots; reflexivity.
Qed.

Lemma run_first_form me u s :
  run me (code_of u first_form) s = (task_of u first_form, s).
Proof. unfold first_form. destruct robots; reflexivity. Qed.

Lemma spawn_first_forms urls : forall me s,
  spawn me (map (fun u => scrape_one u selectors rate_limiter robots) urls) s
  = (tasks_of urls (first_forms urls), s).
Proof.
  induction urls as [|u urls IH]; intros me s; [reflexivity|].
  cbn [map spawn]. rewrite scrape_one_first_form, run_first_form, IH.
  reflexivity.
Qed.

Lemma first_forms_wf urls : Forall wf (first_forms urls).
Proof.
  unfold first_forms. apply Forall_forall. intros f Hf.
  apply list_elem_of_fmap in Hf as (u & -> & _).
  unfold first_form. destruct robots eqn:E; cbn; [|exact I].
  rewrite E. eexists; reflexivity.
Qed.

Lemma first_forms_length urls : length (first_forms urls) = length urls.
Proof. apply length_map. Qed.

(** ** The locks and the semaphore *)

(** Every case of [next_form], with the pieces of code unfolded. *)
Ltac next_form_cases H :=
  cbn [next_form] in H; cbv zeta in H;
  try change (range 1 (3 + 1)) with [1; 2; 3] in H;
  unfold robots_parsed, robots_decided, reserve_and_send, send_request,
    loop_from, begin_attempt, attempt_failed, finish, set_next, next_of in H;
  repeat match type of H with
         | context [match ?x with _ => _ end] => destruct x eqn:?
         end;
  try discriminate H;
  injection H as <- <-.

Ltac crush :=
  cbn; repeat split; intros; try discriminate; try assumption;
  try reflexivity; try congruence; try lia.

Lemma next_form_rate_lock me u f ans s f' s' :
  next_form me u f ans s = Some (f', s') ->
  rate_lock s' = (if holds_rate f'
                  then if holds_rate f then rate_lock s else Some me
                  else if holds_rate f then None else rate_lock s) /\
  (holds_rate f' = true -> holds_rate f = false -> rate_lock s = None).
Proof.
  intros H. destruct f; next_form_cases H; crush.
Qed.

Lemma next_form_robots_lock me u f ans s f' s' :
  next_form me u f ans s = Some (f', s') ->
  robots_lock s' = (if holds_robots f'
                    then if holds_robots f then robots_lock s else Some me
                    else if holds_robots f then None else robots_lock s) /\
  (holds_robots f' = true -> holds_robots f = false -> robots_lock s = None).
Proof.
  intros H. destruct f; next_form_cases H; crush.
Qed.

Lemma next_form_sem me u f ans s f' s' :
  next_form me u f ans s = Some (f', s') ->
  sem_value s' + slot f' = sem_value s + slot f.
Proof.
  intros H. destruct f; next_form_cases H; crush.
Qed.

Lemma next_form_sem_nonneg me u f ans s f' s' :
  next_form me u f ans s = Some (f', s') ->
  0 <= sem_value s -> slot f = 1 \/ 0 <= sem_value s'.
Proof.
  intros H. destruct f; next_form_cases H;
    try (left; reflexivity); cbn; intros; right;
    repeat match goal with
           | E : (0 <? _) = true |- _ => apply Z.ltb_lt in E
           end; lia.
Qed.

Lemma next_form_clock me u f ans s f' s' :
  next_form me u f ans s = Some (f', s') -> clock s' = clock s.
Proof.
  intros H. destruct f; next_form_cases H; crush.
Qed.

Lemma lock_inv_insert holds owner owner' fs i f f' :
  lock_inv holds owner fs ->
  fs !! i = Some f ->
  owner' = (if holds f' then if holds f then owner else Some i
            else if holds f then None else owner) ->
  (holds f' = true -> holds f = false -> owner = None) ->
  lock_inv holds owner' (<[i := f']> fs).
Proof.
  intros [Ha Hb] Hf -> Hfree.
  assert (i < length fs)%nat as Hi by (eapply lookup_lt_Some; eassumption).
  split.
  - intros j g Hg Hh.
    destruct (decide (j = i)) as [->|Hne].
    + rewrite list_lookup_insert_eq in Hg by assumption. injection Hg as <-.
      rewrite Hh. destruct (holds f) eqn:E; [|reflexivity].
      apply (Ha _ _ Hf E).
    + rewrite list_lookup_insert_ne in Hg by auto.
      pose proof (Ha _ _ Hg Hh) as Ho.
      destruct (holds f) eqn:E.
      * pose proof (Ha _ _ Hf E). congruence.
      * destruct (holds f') eqn:E'; [|assumption].
        rewrite Hfree in Ho by reflexivity. discriminate.
  - intros j Hj.
    destruct (holds f') eqn:E'.
    + destruct (holds f) eqn:E.
      * pose proof (Ha _ _ Hf E) as Ho. assert (j = i) as -> by congruence.
        exists f'. rewrite list_lookup_insert_eq by assumption. auto.
      * injection Hj as <-.
        exists f'. rewrite list_lookup_insert_eq by assumption. auto.
    + destruct (holds f) eqn:E; [discriminate|].
      destruct (Hb _ Hj) as (g & Hg & Hh).
      assert (j <> i) as Hne by (intros ->; congruence).
      exists g. rewrite list_lookup_insert_ne by auto. auto.
Qed.

Lemma slots_insert fs : forall i f f',
  fs !! i = Some f -> slots (<[i := f']> fs) = slots fs - slot f + slot f'.
Proof.
  induction fs as [|g fs IH]; intros [|i] f f' Hf; try discriminate.
  - injection Hf as ->.
    change (slot f' + slots fs = slot f + slots fs - slot f + slot f'). lia.
  - change (slot g + slots (<[i := f']> fs) = slot g + slots fs - slot f + slot f').
    rewrite (IH i f f' Hf). lia.
Qed.

Lemma slots_first_forms urls : slots (first_forms urls) = 0.
Proof.
  induction urls as [|u urls IH]; [reflexivity|].
  change (slot first_form + slots (first_forms urls) = 0). rewrite IH.
  unfold first_form. destruct robots; reflexivity.
Qed.

Lemma machine_step_inv urls c a a' :
  machine_step urls c a = Some a' ->
  exists u f f' s',
    (0 <= dt c)%Q /\
    urls !! pick c = Some u /\ a.2 !! pick c = Some f /\
    next_form (pick c) u f (answer c) (set_clock (clock a.1 + dt c)%Q a.1)
    = Some (f', s') /\
    a' = (s', <[pick c := f']> a.2).
Proof.
  unfold machine_step. intros H.
  destruct (Qle_bool 0 (dt c)) eqn:Hdt; [|discriminate].
  destruct (urls !! pick c) as [u|]; [|discriminate].
  destruct (a.2 !! pick c) as [f|]; [|discriminate].
  destruct (next_form _ _ _ _ _) as [[f' s']|] eqn:Hn; [|discriminate].
  injection H as <-. exists u, f, f', s'.
  apply Qle_bool_iff in Hdt. auto.
Qed.

Lemma locks_inv_step k urls c a a' :
  machine_step urls c a = Some a' -> locks_inv k a -> locks_inv k a'.
Proof.
  intros Hs (Hrate & Hrobots & Hsem & Hpos).
  destruct (machine_step_inv _ _ _ _ Hs) as (u & f & f' & s' & _ & _ & Hf & Hn & ->).
  destruct (next_form_rate_lock _ _ _ _ _ _ _ Hn) as [Hr1 Hr2].
  destruct (next_form_robots_lock _ _ _ _ _ _ _ Hn) as [Hb1 Hb2].
  pose proof (next_form_sem _ _ _ _ _ _ _ Hn) as Hs1.
  pose proof (next_form_sem_nonneg _ _ _ _ _ _ _ Hn) as Hs2.
  cbn in Hr1, Hr2, Hb1, Hb2, Hs1, Hs2.
  split; [eapply lock_inv_insert; eauto|].
  split; [eapply lock_inv_insert; eauto|].
  cbn [fst snd]. rewrite (slots_insert _ _ _ _ Hf).
  assert (0 <= slot f' <= 1) by (unfold slot; destruct (active f'); lia).
  split; [lia|]. destruct (Hs2 Hpos); lia.
Qed.

Lemma locks_inv_first t0 k urls :
  0 <= k -> locks_inv k (fresh t0 k, first_forms urls).
Proof.
  intros Hk.
  assert (forall holds, (forall f, wf f -> holds first_form = false) ->
          lock_inv holds None (first_forms urls)) as H.
  { intros holds Hh. split; [|discriminate].
    intros i f Hf Hf'. exfalso.
    unfold first_forms in Hf. rewrite list_lookup_fmap in Hf.
    destruct (urls !! i); [|discriminate]. injection Hf as <-.
    rewrite (Hh first_form) in Hf'; [discriminate|].
    apply (Forall_lookup_1 _ _ 0%nat _ (first_forms_wf ["x"])). reflexivity. }
  split; [|split; [|split]]; cbn [fst snd fresh rate_lock robots_lock sem_value].
  - apply H. intros _ _. unfold first_form. destruct robots; reflexivity.
  - apply H. intros _ _. unfold first_form. destruct robots; reflexivity.
  - rewrite slots_first_forms. lia.
  - assumption.
Qed.

(** ** The spacing of the requests *)

Lemma next_of_scope rl u u' s :
  scope_of rl u' = scope_of rl u -> next_of rl u' s = next_of rl u s.
Proof.
  unfold scope_of, next_of. destruct (per_host rl); [|reflexivity].
  intros ->. reflexivity.
Qed.

Lemma next_of_set_next_same rl u u' v s :
  scope_of rl u' = scope_of rl u -> next_of rl u' (set_next rl u v s) = v.
Proof.
  unfold scope_of, next_of, set_next. destruct (per_host rl); [|reflexivity].
  intros ->. cbn. rewrite lookup_insert_eq. reflexivity.
Qed.

Lemma next_of_set_next_other rl u u' v s :
  scope_of rl u' <> scope_of rl u ->
  next_of rl u' (set_next rl u v s) = next_of rl u' s.
Proof.
  unfold scope_of, next_of, set_next. destruct (per_host rl); [|congruence].
  intros Hne. cbn. rewrite lookup_insert_ne by congruence. reflexivity.
Qed.

(** A turn outside [wait] leaves the schedule and the page requests as
    they are, when the limiter is on. *)
Lemma next_form_quiet me u f ans s f' s' :
  is_Some limiter_on ->
  next_form me u f ans s = Some (f', s') ->
  match f with RateAcq _ _ _ | RateSleep _ _ _ _ _ => False | _ => True end ->
  per_host_next s' = per_host_next s /\
  next_ready_global s' = next_ready_global s /\
  page_requests (trace s') = page_requests (trace s) /\
  holds_rate f' = false.
Proof.
  intros [rl Hon] H Hf. destruct f; try contradiction;
    cbn [next_form] in H; cbv zeta in H;
    unfold robots_parsed, robots_decided, loop_from, begin_attempt,
      attempt_failed, finish in H;
    rewrite ?Hon in H;
    repeat match type of H with
           | context [match ?x with _ => _ end] => destruct x eqn:?
           end;
    try discriminate H; injection H as <- <-; crush.
Qed.

(** Taking the lock of the limiter too early: the task goes to sleep. *)
Lemma next_form_rate_acq me u n rest b ans s f' s' :
  next_form me u (RateAcq n rest b) ans s = Some (f', s') ->
  rate_lock s = None /\
  ((Qltb (clock s) (next_of the_rl u s) = true /\
    f' = RateSleep n rest b (next_of the_rl u s - clock s)
           (clock s + (next_of the_rl u s - clock s)) /\
    s' = log (EvSleep me InWait (next_of the_rl u s - clock s) (clock s))
           (lock me RateLock s)) \/
   (Qltb (clock s) (next_of the_rl u s) = false /\
    (f', s') = reserve_and_send me u n rest b (lock me RateLock s))).
Proof.
  cbn [next_form]. cbv zeta. intros H.
  destruct (rate_lock s); [discriminate|]. split; [reflexivity|].
  change (next_of the_rl u (lock me RateLock s)) with (next_of the_rl u s) in H.
  change (clock (lock me RateLock s)) with (clock s) in H.
  destruct (Qltb _ _); injection H as <- <-; auto.
Qed.

Lemma next_form_rate_sleep me u n rest b d until ans s f' s' :
  next_form me u (RateSleep n rest b d until) ans s = Some (f', s') ->
  (until <= clock s)%Q /\ (f', s') = reserve_and_send me u n rest b s.
Proof.
  cbn [next_form]. intros H.
  destruct (Qle_bool until (clock s)) eqn:E; [|discriminate].
  apply Qle_bool_iff in E. injection H as <- <-. auto.
Qed.

Lemma spaced_requests_same rl l l' :
  l' = l -> spaced rl l -> spaced rl l'.
Proof. intros ->. auto. Qed.

(** Reserving and sending at a time when the entry of the scope has
    passed keeps the spacing. *)
Lemma time_inv_reserve me u n rest b s fs urls i f' s' :
  (0 < delay the_rl)%Q ->
  (next_of the_rl u s <= clock s)%Q ->
  (forall j g, fs !! j = Some g -> holds_rate g = true -> j = i) ->
  time_inv urls (s, fs) ->
  (f', s') = reserve_and_send me u n rest b s ->
  time_inv urls (s', <[i := f']> fs).
Proof.
  intros Hd Hnext Honly (Hsp & Hle & Hsl) Hrs.
  unfold reserve_and_send, send_request in Hrs. injection Hrs as -> ->.
  unfold time_inv. cbn [fst snd] in *.
  set (s1 := set_next the_rl u (clock s + delay the_rl) s).
  assert (forall u0, next_of the_rl u0
            (log (EvGet me InFetch u (clock s1)) (unlock me RateLock s1))
          = next_of the_rl u0 s1) as Hn1.
  { intros u0. reflexivity. }
  assert (clock s1 = clock s) as Hc.
  { subst s1. unfold set_next. destruct (per_host the_rl); reflexivity. }
  assert (page_requests (trace (log (EvGet me InFetch u (clock s1))
                                  (unlock me RateLock s1)))
          = (u, clock s) :: page_requests (trace s)) as Htr.
  { rewrite Hc. subst s1. unfold set_next.
    destruct (per_host the_rl); reflexivity. }
  rewrite Htr. split; [|split].
  - cbn [spaced]. split; [|assumption].
    intros u' t' Hin Hsc. specialize (Hle _ _ Hin).
    rewrite (next_of_scope _ _ _ _ Hsc) in Hle. lra.
  - intros u0 t0 [[= <- <-]|Hin]; rewrite Hn1.
    + subst s1. rewrite next_of_set_next_same by reflexivity. lra.
    + specialize (Hle _ _ Hin). subst s1.
      destruct (decide (scope_of the_rl u0 = scope_of the_rl u)) as [E|E].
      * rewrite next_of_set_next_same by assumption.
        rewrite (next_of_scope _ _ _ _ E) in Hle. lra.
      * rewrite next_of_set_next_other by assumption. assumption.
  - intros j u0 n0 rest0 b0 d0 until0 Hu0 Hj. exfalso.
    destruct (decide (j = i)) as [->|Hne].
    + apply list_lookup_insert_Some in Hj as [(_ & [=] & _)|(? & _)]; congruence.
    + rewrite list_lookup_insert_ne in Hj by auto.
      apply Hne. eapply Honly; [eassumption | reflexivity].
Qed.

Lemma next_of_ext rl u s s' :
  per_host_next s' = per_host_next s ->
  next_ready_global s' = next_ready_global s ->
  next_of rl u s' = next_of rl u s.
Proof. unfold next_of. intros -> ->. reflexivity. Qed.

Lemma time_inv_ext urls s s' fs :
  per_host_next s' = per_host_next s ->
  next_ready_global s' = next_ready_global s ->
  page_requests (trace s') = page_requests (trace s) ->
  time_inv urls (s, fs) -> time_inv urls (s', fs).
Proof.
  intros H1 H2 H3 (Hsp & Hle & Hsl). unfold time_inv. cbn [fst snd] in *.
  rewrite H3. split; [assumption|]. split.
  - intros u t Hin. rewrite (next_of_ext _ _ _ _ H1 H2). auto.
  - intros i u n rest b d until Hu Hf. rewrite (next_of_ext _ _ _ _ H1 H2). eauto.
Qed.

Lemma limiter_on_positive : is_Some limiter_on -> (0 < delay the_rl)%Q.
Proof. intros H. apply Qle_bool_false. apply limiter_on_delay. assumption. Qed.

Lemma time_inv_step k urls c a a' :
  is_Some limiter_on ->
  machine_step urls c a = Some a' ->
  locks_inv k a -> time_inv urls a -> time_inv urls a'.
Proof.
  intros Hon Hs ([Hra Hrb] & _ & _) Ht.
  destruct (machine_step_inv _ _ _ _ Hs) as (u & f & f' & s' & Hdt & Hu & Hf & Hn & ->).
  destruct a as [s fs]. cbn [fst snd] in *.
  set (s0 := set_clock (clock s + dt c) s) in *.
  assert (time_inv urls (s0, fs)) as Ht0.
  { revert Ht. apply time_inv_ext; reflexivity. }
  pose proof (limiter_on_positive Hon) as Hd.
  destruct f.
  all: try (
    destruct (next_form_quiet _ _ _ _ _ _ _ Hon Hn I) as (H1 & H2 & H3 & H4);
    pose proof (time_inv_ext urls s0 s' fs H1 H2 H3 Ht0) as (Hsp & Hle & Hsl);
    split; [assumption|]; split; [assumption|]; cbn [fst snd] in *;
    intros j u0 n0 rest0 b0 d0 until0 Hu0 Hj;
    destruct (decide (j = pick c)) as [->|Hne];
    [ apply list_lookup_insert_Some in Hj as [(_ & E & _)|(? & _)];
      [rewrite E in H4; discriminate H4 | congruence]
    | rewrite list_lookup_insert_ne in Hj by auto; eauto ]).
  - (* RateAcq *)
    destruct (next_form_rate_acq _ _ _ _ _ _ _ _ _ Hn) as [Hfree [(Hlt & -> & ->)|(Hge & Hrs)]].
    + apply Qltb_true in Hlt.
      destruct Ht0 as (Hsp & Hle & Hsl). split; [assumption|].
      split; [assumption|]. cbn [fst snd] in *.
      intros j u0 n0 rest0 b0 d0 until0 Hu0 Hj.
      destruct (decide (j = pick c)) as [->|Hne].
      * rewrite list_lookup_insert_eq in Hj by (eapply lookup_lt_Some; eassumption).
        injection Hj as <- <- <- <- <-.
        assert (u0 = u) as -> by congruence.
        change (next_of the_rl u (log _ (lock (pick c) RateLock s0)))
          with (next_of the_rl u s0). lra.
      * rewrite list_lookup_insert_ne in Hj by auto. eauto.
    + apply Qltb_false in Hge.
      eapply (time_inv_reserve (pick c) u n rest b (lock (pick c) RateLock s0));
        [assumption | exact Hge | | | exact Hrs].
      * intros j g Hg Hh. pose proof (Hra _ _ Hg Hh) as Ho.
        change (rate_lock s0) with (rate_lock s) in Hfree. congruence.
      * revert Ht0. apply time_inv_ext; reflexivity.
  - (* RateSleep *)
    destruct (next_form_rate_sleep _ _ _ _ _ _ _ _ _ _ _ Hn) as [Hwake Hrs].
    eapply (time_inv_reserve (pick c) u n rest b s0);
      [assumption | | | exact Ht0 | exact Hrs].
    + destruct Ht0 as (_ & _ & Hsl). specialize (Hsl _ _ _ _ _ _ _ Hu Hf).
      cbn [fst snd] in Hsl. lra.
    + intros j g Hg Hh. pose proof (Hra _ _ Hg Hh) as Ho.
      pose proof (Hra _ _ Hf eq_refl). congruence.
Qed.

Lemma time_inv_first t0 k urls : time_inv urls (fresh t0 k, first_forms urls).
Proof.
  split; [exact I|]. split; [intros u t []|].
  cbn [fst snd]. intros i u n rest b d until _ Hf. exfalso.
  unfold first_forms in Hf. rewrite list_lookup_fmap in Hf.
  destruct (urls !! i); [|discriminate]. injection Hf as Hf.
  unfold first_form in Hf. destruct robots; discriminate.
Qed.

(** ** The events of one task *)

Lemma phase_of_trace_app i new tr :
  (forall e, In e new -> who e <> i) ->
  phase_of_trace i (new ++ tr) = phase_of_trace i tr.
Proof.
  induction new as [|e new IH]; intros H; [reflexivity|].
  cbn [app phase_of_trace]. rewrite IH by (intros; apply H; right; assumption).
  unfold fetch_step_of.
  destruct (Nat.eqb_spec (who e) i) as [E|E]; [|reflexivity].
  exfalso. apply (H e); [left; reflexivity | assumption].
Qed.

Lemma existsb_app_other (p : nat -> event -> bool) i new tr :
  (forall e, In e new -> p i e = false) ->
  existsb (p i) (new ++ tr) = existsb (p i) tr.
Proof.
  intros H. rewrite existsb_app.
  replace (existsb (p i) new) with false; [reflexivity|].
  symmetry. apply not_true_is_false. intros E.
  apply existsb_exists in E as (e & Hin & He).
  rewrite (H e Hin) in He. discriminate.
Qed.

Lemma left_robots_other i e : who e <> i -> left_robots i e = false.
Proof.
  intros H. destruct e; try reflexivity. destruct l; [reflexivity|].
  cbn in *. apply Nat.eqb_neq. assumption.
Qed.

Lemma sent_cons i e tr :
  sent i (e :: tr) = (if sent_page i e then 1 else 0) + sent i tr.
Proof.
  unfold sent. cbn [List.filter]. destruct (sent_page i e); cbn [length]; lia.
Qed.

Lemma sent_app_other i new tr :
  (forall e, In e new -> who e <> i) -> sent i (new ++ tr) = sent i tr.
Proof.
  induction new as [|e new IH]; intros H; [reflexivity|].
  cbn [app]. rewrite sent_cons, IH by (intros; apply H; right; assumption).
  replace (sent_page i e) with false; [reflexivity|].
  symmetry. destruct e; try reflexivity. destruct at_; try reflexivity.
  cbn. apply Nat.eqb_neq. apply (H (EvGet who0 InFetch u t)). left. reflexivity.
Qed.

Lemma length_range lo hi : length (range lo hi) = Z.to_nat (hi - lo).
Proof. unfold range. rewrite length_map, length_seq. reflexivity. Qed.

(** The loop variables stay those of a loop over [1, 2, 3]. *)
Lemma next_form_counted me u f ans s f' s' :
  next_form me u f ans s = Some (f', s') -> counted f -> counted f'.
Proof.
  intros H Hc. destruct f; cbn [counted] in Hc.
  9: { destruct Hc as (n & Hn & ->).
       assert (n = 1 \/ n = 2) as [-> | ->] by lia;
         cbn [next_form] in H;
         destruct (Qle_bool until (clock s)); try discriminate H;
         injection H as H; cbn in H; unfold begin_attempt, send_request in H;
         destruct limiter_on; injection H as <- <-; cbn; split; (lia || reflexivity). }
  all: next_form_cases H; cbn; try exact I; try assumption;
    try (split; [lia | reflexivity]).
  all: destruct Hc as [Hn ->]; exists n;
    repeat match goal with
           | E : (_ =? _) = false |- _ => apply Z.eqb_neq in E
           end; split; [lia | reflexivity].
Qed.

(** What a turn of task [me] adds to the trace. *)
Lemma next_form_trace me u f ans s f' s' :
  next_form me u f ans s = Some (f', s') -> counted f ->
  exists new,
    trace s' = new ++ trace s /\
    (forall e, In e new -> who e = me) /\
    (phase_of_trace me (trace s) = phase_of f ->
     phase_of_trace me (trace s') = phase_of f') /\
    (sent_at f (sent me (trace s)) -> sent_at f' (sent me (trace s'))) /\
    (existsb (left_robots me) (trace s)
     = match f with RobotsAcq | RobotsGet | RobotsText _ => false | _ => true end ->
     existsb (left_robots me) (trace s')
     = match f' with RobotsAcq | RobotsGet | RobotsText _ => false | _ => true end).
Proof.
  intros H Hc.
  assert (Nat.eqb me me = true) as Hme by apply Nat.eqb_refl.
  assert (forall rest b until, f = BackoffSleep rest b until ->
            rest = [2; 3] \/ rest = [3]) as Hrest.
  { intros rest b until ->. destruct Hc as (n & Hn & ->).
    assert (n = 1 \/ n = 2) as [-> | ->] by lia; auto. }
  destruct f; cbn [counted] in Hc;
    try (destruct (Hrest _ _ _ eq_refl) as [-> | ->]);
    next_form_cases H;
    (first [ exists []; split; [reflexivity|]
           | eexists [_]; split; [reflexivity|]
           | eexists [_; _]; split; [reflexivity|]
           | eexists [_; _; _]; split; [reflexivity|]
           | eexists [_; _; _; _]; split; [reflexivity|] ]);
    (split; [intros ev0 Hev0; cbn in Hev0; intuition (subst; reflexivity)|]);
    cbn [trace log lock unlock set_lock sem_acquire sem_release set_sem
         set_cache set_next_ready_global set_per_host_next set_clock];
    rewrite ?sent_cons;
    cbn [phase_of_trace phase_of active existsb sent_page left_robots sent_at length];
    unfold fetch_step_of; cbn [who]; rewrite ?Hme; cbn [phase_after orb];
    (split; [intros ->; reflexivity|]);
    (split; [ try match type of Hc with
                  | _ /\ _ => destruct Hc as [? ?]; subst; try rewrite length_range
                  end; intros; lia
            | intros ?; try assumption; try reflexivity ]).
Qed.

Lemma trace_inv_step urls c a a' :
  machine_step urls c a = Some a' -> Forall counted a.2 ->
  trace_inv a -> trace_inv a'.
Proof.
  intros Hs Hcnt Hinv.
  destruct (machine_step_inv _ _ _ _ Hs) as (u & f & f' & s' & _ & _ & Hf & Hn & ->).
  destruct a as [s fs]. cbn [fst snd] in *.
  destruct (next_form_trace _ _ _ _ _ _ _ Hn) as (new & Htr & Hwho & Hph & Hsent & Hrob).
  { eapply Forall_lookup_1; eassumption. }
  change (trace (set_clock (clock s + dt c) s)) with (trace s) in *.
  intros j g Hg. cbn [fst snd] in *.
  destruct (decide (j = pick c)) as [->|Hne].
  - rewrite list_lookup_insert_eq in Hg by (eapply lookup_lt_Some; eassumption).
    injection Hg as <-. destruct (Hinv _ _ Hf) as (H1 & H2 & H3). cbn [fst snd] in *.
    auto.
  - rewrite list_lookup_insert_ne in Hg by auto.
    destruct (Hinv _ _ Hg) as (H1 & H2 & H3). cbn [fst snd] in *.
    assert (forall e, In e new -> who e <> j) as Hother.
    { intros e He. rewrite (Hwho e He). auto. }
    rewrite Htr. split; [|split].
    + rewrite phase_of_trace_app by assumption. assumption.
    + rewrite sent_app_other by assumption. assumption.
    + intros Hr. rewrite existsb_app_other; [auto|].
      intros e He. apply left_robots_other. auto.
Qed.

Lemma first_forms_lookup urls i f :
  first_forms urls !! i = Some f -> f = first_form /\ is_Some (urls !! i).
Proof.
  unfold first_forms. rewrite list_lookup_fmap.
  destruct (urls !! i); [|discriminate]. intros [= <-]. eauto.
Qed.

Lemma trace_inv_first t0 k urls : trace_inv (fresh t0 k, first_forms urls).
Proof.
  intros i f Hf. apply first_forms_lookup in Hf as [-> _]. cbn [fst snd fresh trace].
  unfold first_form. split; [|split].
  - destruct robots; reflexivity.
  - destruct robots; reflexivity.
  - intros [rc ->]. reflexivity.
Qed.

(** ** The results *)

Lemma next_form_result me u f ans s f' s' res :
  next_form me u f ans s = Some (f', s') -> f' = Done res -> result_for u res.
Proof.
  intros H. destruct f; next_form_cases H; intros [= <-];
    first [ left; eexists; reflexivity | right; eexists; reflexivity ].
Qed.

Lemma results_inv_step urls c a a' :
  machine_step urls c a = Some a' -> results_inv urls a -> results_inv urls a'.
Proof.
  intros Hs Hinv.
  destruct (machine_step_inv _ _ _ _ Hs) as (u & f & f' & s' & _ & Hu & Hf & Hn & ->).
  intros j u0 res Hu0 Hg. cbn [fst snd] in *.
  destruct (decide (j = pick c)) as [->|Hne].
  - rewrite list_lookup_insert_eq in Hg by (eapply lookup_lt_Some; eassumption).
    injection Hg as ->. assert (u0 = u) as -> by congruence.
    eapply next_form_result; [eassumption | reflexivity].
  - rewrite list_lookup_insert_ne in Hg by auto. eauto.
Qed.

Lemma results_inv_first t0 k urls : results_inv urls (fresh t0 k, first_forms urls).
Proof.
  intros i u res _ Hf. apply first_forms_lookup in Hf as [Hf _].
  unfold first_form in Hf. destruct robots; discriminate.
Qed.

(** ** Termination *)

Lemma range_1_4 : range 1 (3 + 1) = [1; 2; 3].
Proof. reflexivity. Qed.

Lemma counted_short f :
  counted f ->
  match f with
  | RateAcq _ rest _ | RateSleep _ rest _ _ _ | PageGet _ rest _
  | PageText _ rest _ _ | BackoffSleep rest _ _ => (length rest <= 2)%nat
  | _ => True
  end.
Proof.
  destruct f; cbn; try exact (fun _ => I);
    try (intros [Hn ->]; rewrite length_range; lia).
  intros (n & Hn & ->). rewrite length_range. lia.
Qed.

Lemma next_form_fuel me u f ans s f' s' :
  next_form me u f ans s = Some (f', s') -> counted f ->
  (fuel f' < fuel f)%nat.
Proof.
  intros H Hc. apply counted_short in Hc.
  destruct f; next_form_cases H; cbn in *; lia.
Qed.

Lemma total_fuel_insert fs : forall i f f',
  fs !! i = Some f ->
  (total_fuel (<[i := f']> fs) + fuel f = total_fuel fs + fuel f')%nat.
Proof.
  induction fs as [|g fs IH]; intros [|i] f f' Hf; try discriminate.
  - injection Hf as ->.
    change (fuel f' + total_fuel fs + fuel f = fuel f + total_fuel fs + fuel f')%nat.
    lia.
  - change (fuel g + total_fuel (<[i := f']> fs) + fuel f
            = fuel g + total_fuel fs + fuel f')%nat.
    pose proof (IH i f f' Hf). lia.
Qed.

Lemma machine_step_fuel urls c a a' :
  machine_step urls c a = Some a' -> Forall counted a.2 ->
  (total_fuel a'.2 < total_fuel a.2)%nat /\ Forall counted a'.2.
Proof.
  intros Hs Hsh.
  destruct (machine_step_inv _ _ _ _ Hs) as (u & f & f' & s' & _ & _ & Hf & Hn & ->).
  cbn [fst snd].
  pose proof (Forall_lookup_1 _ _ _ _ Hsh Hf) as Hc.
  pose proof (next_form_fuel _ _ _ _ _ _ _ Hn Hc) as Hlt.
  split.
  - pose proof (total_fuel_insert _ _ _ f' Hf). lia.
  - apply Forall_insert; [assumption|]. eapply next_form_counted; eassumption.
Qed.

Lemma machine_exec_fuel urls cs : forall a a',
  machine_exec urls cs a = Some a' -> Forall counted a.2 ->
  (length cs + total_fuel a'.2 <= total_fuel a.2)%nat.
Proof.
  induction cs as [|c cs IH]; intros a a' H Hsh.
  - injection H as <-. cbn. lia.
  - cbn [machine_exec] in H.
    destruct (machine_step urls c a) as [a1|] eqn:Hs; [|discriminate].
    destruct (machine_step_fuel _ _ _ _ Hs Hsh) as [Hlt Hsh1].
    pose proof (IH _ _ H Hsh1). cbn [length]. lia.
Qed.

Lemma total_fuel_first_forms urls :
  (total_fuel (first_forms urls) <= 19 * length urls)%nat.
Proof.
  induction urls as [|u urls IH]; [cbn; lia|].
  change (fuel first_form + total_fuel (first_forms urls) <= 19 * S (length urls))%nat.
  assert (fuel first_form <= 19)%nat.
  { unfold first_form. destruct robots; cbn; lia. }
  lia.
Qed.

Lemma first_forms_counted urls : Forall counted (first_forms urls).
Proof.
  apply Forall_forall. intros f Hf. apply list_elem_of_fmap in Hf as (u & -> & _).
  unfold first_form. destruct robots; exact I.
Qed.

(** ** The robots cache *)

Lemma length_append_string (a b : string) :
  String.length (a ++ b)%string = (String.length a + String.length b)%nat.
Proof.
  induction a as [|x a IH]; [reflexivity|].
  change (S (String.length (a ++ b)%string)
          = S (String.length a + String.length b)).
  f_equal. exact IH.
Qed.

Lemma app_inj_tail_string (a b c : string) :
  (a ++ c)%string = (b ++ c)%string -> a = b.
Proof.
  revert b. induction a as [|x a IH]; intros [|y b] H.
  - reflexivity.
  - exfalso. change (c = (String y b ++ c)%string) in H.
    apply (f_equal String.length) in H.
    rewrite (length_append_string (String y b)) in H. cbn in H. lia.
  - exfalso. change ((String x a ++ c)%string = c) in H.
    apply (f_equal String.length) in H.
    rewrite (length_append_string (String x a)) in H. cbn in H. lia.
  - change (String x (a ++ c)%string = String y (b ++ c)%string) in H.
    injection H as -> H. f_equal. auto.
Qed.

Lemma robots_url_inj h h' : robots_url h = robots_url h' -> h = h'.
Proof.
  unfold robots_url. intros H.
  apply (String.app_inj "https://") in H.
  apply app_inj_tail_string in H. assumption.
Qed.

(** The five kinds of turns, seen from the robots cache. *)
Lemma next_form_robots me u f ans s f' s' :
  next_form me u f ans s = Some (f', s') ->
  (holds_robots f = false /\ holds_robots f' = false /\
   cache s' = cache s /\ robots_gets (trace s') = robots_gets (trace s) /\
   match f with
   | RobotsAcq =>
       exists rp, cache s !! netloc u = Some rp /\
         verdict f' = Some (rp_can_fetch rp (user_agent the_rc) u)
   | _ => verdict f' = verdict f
   end) \/
  (f = RobotsAcq /\ f' = RobotsGet /\ robots_lock s = None /\
   cache s !! netloc u = None /\ cache s' = cache s /\
   robots_gets (trace s') = robots_url (netloc u) :: robots_gets (trace s)) \/
  (holds_robots f = true /\ holds_robots f' = true /\
   cache s' = cache s /\ robots_gets (trace s') = robots_gets (trace s)) \/
  (holds_robots f = true /\ holds_robots f' = false /\
   robots_gets (trace s') = robots_gets (trace s) /\
   exists rp, cache s' = <[netloc u := rp]> (cache s) /\
     verdict f' = Some (rp_can_fetch rp (user_agent the_rc) u)) \/
  (holds_robots f = true /\ holds_robots f' = false /\
   robots_gets (trace s') = robots_gets (trace s) /\
   cache s' = cache s /\ verdict f' = None).
Proof.
  intros H. destruct f; next_form_cases H;
    first
      [ left; repeat split; first [reflexivity | eexists; split; [eassumption|];
                                   cbn; congruence]
      | right; left; repeat split; solve [reflexivity | assumption]
      | right; right; left; repeat split; reflexivity
      | right; right; right; right; repeat split; reflexivity
      | right; right; right; left; repeat split; try reflexivity;
        eexists; split; [reflexivity|]; cbn; congruence ].
Qed.

Lemma robots_fetches_cons_get w h h' t tr :
  robots_fetches h (EvGet w InRobots (robots_url h') t :: tr)
  = if bool_decide (h' = h) then S (robots_fetches h tr) else robots_fetches h tr.
Proof.
  unfold robots_fetches. cbn [robots_gets omap]. 
  change (omap _ tr) with (robots_gets tr).
  case_bool_decide as E.
  - subst. cbn. destruct (string_dec _ _); [reflexivity | contradiction].
  - cbn. destruct (string_dec _ _) as [E'|]; [|reflexivity].
    apply robots_url_inj in E'. contradiction.
Qed.

Lemma robots_inv_step k urls c a a' :
  machine_step urls c a = Some a' ->
  locks_inv k a -> robots_inv urls a -> robots_inv urls a'.
Proof.
  intros Hs (_ & [Hba Hbb] & _) (R1 & R3).
  destruct (machine_step_inv _ _ _ _ Hs) as (u & f & f' & s' & _ & Hu & Hf & Hn & ->).
  destruct a as [s fs]. cbn [fst snd] in *.
  set (s0 := set_clock (clock s + dt c) s) in *.
  destruct (next_form_robots_lock _ _ _ _ _ _ _ Hn) as [Hlock _].
  change (robots_lock s0) with (robots_lock s) in Hlock.
  assert (forall j g v, j <> pick c ->
            urls !! j = Some g -> <[pick c := f']> fs !! j = Some v ->
            fs !! j = Some v) as Hother.
  { intros j g v Hne _ Hv. rewrite list_lookup_insert_ne in Hv by auto. exact Hv. }
  assert (<[pick c := f']> fs !! pick c = Some f') as Hmine.
  { apply list_lookup_insert_eq. eapply lookup_lt_Some; eassumption. }
  destruct (next_form_robots _ _ _ _ _ _ _ Hn)
    as [(Hh & Hh' & Hc & Hg & Hv)
       |[(-> & -> & Hfree & Hmiss & Hc & Hg)
       |[(Hh & Hh' & Hc & Hg)
       |[(Hh & Hh' & Hg & rp & Hc & Hv)
        |(Hh & Hh' & Hg & Hc & Hv)]]]];
    change (cache s0) with (cache s) in *;
    change (trace s0) with (trace s) in *;
    change (robots_lock s0) with (robots_lock s) in *;
    rewrite ?Hh, ?Hh' in Hlock; cbn [holds_robots] in Hlock.
  - (* a turn away from the cache *)
    assert (fetching_host urls s' = fetching_host urls s) as Hfh.
    { unfold fetching_host. rewrite Hlock. reflexivity. }
    unfold robots_inv. cbn [fst snd].
    rewrite Hfh, Hc. split; [assumption|].
    intros Hr j g fj v Hg0 Hfj Hvj.
    destruct (decide (j = pick c)) as [->|Hne].
    + rewrite Hmine in Hfj. injection Hfj as <-.
      assert (g = u) as -> by congruence.
      destruct f; try (rewrite Hv in Hvj; eapply R3; eassumption).
      destruct Hv as (rp & Hrp & Hv). exists rp. split; [assumption|]. congruence.
    + eapply R3; eauto.
  - (* the fetch of robots.txt starts *)
    assert (fetching_host urls s = None) as Hfh.
    { unfold fetching_host. rewrite Hfree. reflexivity. }
    assert (fetching_host urls s' = Some (netloc u)) as Hfh'.
    { unfold fetching_host. rewrite Hlock, Hu. reflexivity. }
    unfold robots_inv. cbn [fst snd]. rewrite Hfh', Hc. split.
    + intros h [= <-]. assumption.
    + intros Hr j g fj v Hg0 Hfj Hvj.
      destruct (decide (j = pick c)) as [->|Hne].
      * rewrite Hmine in Hfj. injection Hfj as <-. discriminate.
      * eapply R3; eauto.
  - (* the text of robots.txt is awaited *)
    assert (fetching_host urls s' = fetching_host urls s) as Hfh.
    { unfold fetching_host. rewrite Hlock. reflexivity. }
    unfold robots_inv. cbn [fst snd].
    rewrite Hfh, Hc. split; [assumption|].
    intros Hr j g fj v Hg0 Hfj Hvj.
    destruct (decide (j = pick c)) as [->|Hne].
    + rewrite Hmine in Hfj. injection Hfj as <-.
      destruct f'; discriminate.
    + eapply R3; eauto.
  - (* the rules are cached *)
    pose proof (Hba _ _ Hf Hh) as Hown.
    assert (fetching_host urls s = Some (netloc u)) as Hfh.
    { unfold fetching_host. rewrite Hown, Hu. reflexivity. }
    assert (fetching_host urls s' = None) as Hfh'.
    { unfold fetching_host. rewrite Hlock. reflexivity. }
    pose proof (R1 _ Hfh) as Hmiss.
    unfold robots_inv. cbn [fst snd]. rewrite Hfh', Hc. split.
    + discriminate.
    + intros Hr j g fj v Hg0 Hfj Hvj.
      destruct (decide (j = pick c)) as [->|Hne].
      * rewrite Hmine in Hfj. injection Hfj as <-.
        assert (g = u) as -> by congruence.
        exists rp. rewrite lookup_insert_eq. split; [reflexivity | congruence].
      * destruct (R3 Hr j g fj v Hg0 (Hother _ _ _ Hne Hg0 Hfj) Hvj) as (rp' & Hrp' & Hv').
        exists rp'. split; [|assumption].
        rewrite lookup_insert_ne; [assumption|]. congruence.
  - (* the parse of robots.txt raises *)
    assert (fetching_host urls s' = None) as Hfh'.
    { unfold fetching_host. rewrite Hlock. reflexivity. }
    unfold robots_inv. cbn [fst snd]. rewrite Hfh', Hc. split.
    + discriminate.
    + intros Hr j g fj v Hg0 Hfj Hvj.
      destruct (decide (j = pick c)) as [->|Hne].
      * rewrite Hmine in Hfj. injection Hfj as <-. congruence.
      * eapply R3; eauto.
Qed.

Lemma robots_inv_first t0 k urls : robots_inv urls (fresh t0 k, first_forms urls).
Proof.
  unfold robots_inv. cbn [fst snd]. split.
  - intros h H. discriminate H.
  - intros Hr i u f v _ Hf. apply first_forms_lookup in Hf as [-> _].
    unfold first_form. destruct Hr as [rc ->]. discriminate.
Qed.

(** ** No deadlock, and an end *)

Lemma slots_none fs : Forall (fun f => active f = false) fs -> slots fs = 0.
Proof.
  induction 1 as [|f fs Hf _ IH]; [reflexivity|].
  change (slot f + slots fs = 0). unfold slot. rewrite Hf, IH. reflexivity.
Qed.

Lemma Qmax0_wakes until now :
  (0 <= Qmax0 (until - now))%Q /\
  Qle_bool until (now + Qmax0 (until - now)) = true.
Proof.
  unfold Qmax0. destruct (Qle_bool (until - now) 0) eqn:E.
  - apply Qle_bool_iff in E. split; [lra|]. apply Qle_bool_iff. lra.
  - apply Qle_bool_false in E. split; [lra|]. apply Qle_bool_iff. lra.
Qed.

(** A task that waits for the network or for the time can go on. *)
Lemma ready_step me u f s :
  ready f = true ->
  exists d p, (0 <= d)%Q /\
    next_form me u f (inl "") (set_clock (clock s + d)%Q s) = Some p.
Proof.
  intros Hr. destruct f; try discriminate Hr.
  - exists 0%Q. eexists. split; [lra | reflexivity].
  - exists 0%Q. eexists. split; [lra | reflexivity].
  - destruct (Qmax0_wakes until (clock s)) as [H0 Hw].
    exists (Qmax0 (until - clock s)). eexists. split; [assumption|].
    cbn [next_form clock set_clock]. rewrite Hw. reflexivity.
  - exists 0%Q. eexists. split; [lra | reflexivity].
  - exists 0%Q. cbn [next_form].
    destruct (body resp); eexists; (split; [lra | reflexivity]).
  - destruct (Qmax0_wakes until (clock s)) as [H0 Hw].
    exists (Qmax0 (until - clock s)). eexists. split; [assumption|].
    cbn [next_form clock set_clock]. rewrite Hw. reflexivity.
Qed.

Lemma machine_step_of urls i u f d ans p s fs :
  (0 <= d)%Q -> urls !! i = Some u -> fs !! i = Some f ->
  next_form i u f ans (set_clock (clock s + d)%Q s) = Some p ->
  exists a', machine_step urls (mkTurn i d ans) (s, fs) = Some a'.
Proof.
  intros Hd Hu Hf Hn. unfold machine_step. cbn [pick dt answer fst snd].
  apply Qle_bool_iff in Hd. rewrite Hd, Hu, Hf, Hn.
  destruct p. eexists; reflexivity.
Qed.

Lemma exists_form (p : form -> bool) fs :
  {i : nat & {f | fs !! i = Some f /\ p f = true}} +
  {Forall (fun f => p f = false) fs}.
Proof.
  induction fs as [|g fs [(i & f & Hf & Hp)|IH]].
  - right. constructor.
  - left. exists (S i), f. auto.
  - destruct (p g) eqn:E.
    + left. exists 0%nat, g. auto.
    + right. constructor; assumption.
Qed.

Lemma progress k urls a :
  1 <= k -> locks_inv k a -> length a.2 = length urls ->
  ~ Forall (fun f => is_done f = true) a.2 ->
  exists c a', machine_step urls c a = Some a'.
Proof.
  destruct a as [s fs]. cbn [fst snd].
  intros Hk ([_ Hrate] & [_ Hrobots] & Hsem & _) Hlen Hnot. cbn [fst snd] in *.
  assert (forall i f, fs !! i = Some f -> exists u, urls !! i = Some u) as Hurl.
  { intros i f Hf. apply lookup_lt_Some in Hf. rewrite Hlen in Hf.
    apply lookup_lt_is_Some_2 in Hf as [u Hu]. eauto. }
  destruct (exists_form ready fs) as [(i & f & Hf & Hr)|Hnone].
  { destruct (Hurl _ _ Hf) as [u Hu].
    destruct (ready_step i u f s Hr) as (d & p & Hd & Hn).
    exists (mkTurn i d (inl "")). eapply machine_step_of; eassumption. }
  assert (rate_lock s = None) as Hfree1.
  { destruct (rate_lock s) as [j|] eqn:E; [|reflexivity].
    destruct (Hrate j eq_refl) as (g & Hg & Hh).
    pose proof (Forall_lookup_1 _ _ _ _ Hnone Hg) as Hg'.
    destruct g; discriminate. }
  assert (robots_lock s = None) as Hfree2.
  { destruct (robots_lock s) as [j|] eqn:E; [|reflexivity].
    destruct (Hrobots j eq_refl) as (g & Hg & Hh).
    pose proof (Forall_lookup_1 _ _ _ _ Hnone Hg) as Hg'.
    destruct g; discriminate. }
  destruct (exists_form (fun f => match f with RobotsAcq | RateAcq _ _ _ => true
                                  | _ => false end) fs)
    as [(i & f & Hf & Hp)|Hnolock].
  { destruct (Hurl _ _ Hf) as [u Hu].
    exists (mkTurn i 0 (inl "")).
    destruct f; try discriminate Hp.
    - assert (exists p, next_form i u RobotsAcq (inl "")
                          (set_clock (clock s + 0)%Q s) = Some p) as [p Hn].
      { cbn [next_form robots_lock set_clock]. rewrite Hfree2. cbv zeta.
        destruct (cache _ !! _); eexists; reflexivity. }
      eapply (machine_step_of urls i u RobotsAcq 0%Q); [lra | eassumption..].
    - assert (exists p, next_form i u (RateAcq n rest b) (inl "")
                          (set_clock (clock s + 0)%Q s) = Some p) as [p Hn].
      { cbn [next_form rate_lock set_clock]. rewrite Hfree1. cbv zeta.
        destruct (Qltb _ _); eexists; reflexivity. }
      eapply (machine_step_of urls i u (RateAcq n rest b) 0%Q);
        [lra | eassumption..]. }
  destruct (exists_form (fun f => match f with SemAcq => true | _ => false end) fs)
    as [(i & f & Hf & Hp)|Hnosem].
  { destruct (Hurl _ _ Hf) as [u Hu].
    exists (mkTurn i 0 (inl "")).
    destruct f; try discriminate Hp.
    eapply (machine_step_of urls i u SemAcq 0%Q); [lra | eassumption..|].
    cbn [next_form sem_value set_clock].
    assert (slots fs = 0) as H0.
    { apply slots_none. apply Forall_forall. intros g Hg.
      pose proof (proj1 (Forall_forall _ _) Hnone g Hg).
      pose proof (proj1 (Forall_forall _ _) Hnolock g Hg).
      destruct g; first [reflexivity | discriminate]. }
    destruct (Z.ltb_spec 0 (sem_value s)); [reflexivity | lia]. }
  exfalso. apply Hnot. apply Forall_forall. intros g Hg.
  pose proof (proj1 (Forall_forall _ _) Hnone g Hg).
  pose proof (proj1 (Forall_forall _ _) Hnolock g Hg).
  pose proof (proj1 (Forall_forall _ _) Hnosem g Hg).
  destruct g; first [reflexivity | discriminate].
Qed.

(** ** The batch as a whole *)

Lemma batch_inv_step k urls c a a' :
  machine_step urls c a = Some a' -> batch_inv k urls a -> batch_inv k urls a'.
Proof.
  intros Hs (Hwf & Hlen & Hsh & Hl & Htr & Hres & Hrob & Htime).
  destruct (machine_step_wf _ _ _ _ Hs Hwf Hlen) as [Hwf' Hlen'].
  destruct (machine_step_fuel _ _ _ _ Hs Hsh) as [_ Hsh'].
  split; [assumption|]. split; [assumption|]. split; [assumption|].
  split; [eapply locks_inv_step; eauto|].
  split; [eapply trace_inv_step; eassumption|].
  split; [eapply results_inv_step; eauto|].
  split; [eapply robots_inv_step; eauto|].
  intros Hon. eapply time_inv_step; eauto.
Qed.

Lemma batch_inv_exec k urls cs : forall a a',
  machine_exec urls cs a = Some a' -> batch_inv k urls a -> batch_inv k urls a'.
Proof.
  induction cs as [|c cs IH]; intros a a' H Hinv.
  - injection H as <-. assumption.
  - cbn [machine_exec] in H.
    destruct (machine_step urls c a) as [a1|] eqn:Hs; [|discriminate].
    eapply IH; [eassumption|]. eapply batch_inv_step; eassumption.
Qed.

Lemma batch_inv_first t0 k urls :
  0 <= k -> batch_inv k urls (fresh t0 k, first_forms urls).
Proof.
  intros Hk.
  split; [apply first_forms_wf|].
  split; [apply first_forms_length|].
  split; [apply first_forms_counted|].
  split; [apply locks_inv_first; assumption|].
  split; [apply trace_inv_first|].
  split; [apply results_inv_first|].
  split; [apply robots_inv_first|].
  intros _. apply time_inv_first.
Qed.

Lemma machine_exec_app urls cs1 : forall cs2 a a1 a2,
  machine_exec urls cs1 a = Some a1 -> machine_exec urls cs2 a1 = Some a2 ->
  machine_exec urls (cs1 ++ cs2) a = Some a2.
Proof.
  induction cs1 as [|c cs1 IH]; intros cs2 a a1 a2 H1 H2.
  - injection H1 as ->. assumption.
  - cbn [machine_exec app] in *.
    destruct (machine_step urls c a); [|discriminate]. eauto.
Qed.

(** Whatever happened so far, the batch can be brought to its end. *)
Lemma completion k urls : 1 <= k -> forall n a,
  (total_fuel a.2 <= n)%nat -> batch_inv k urls a ->
  exists cs a', machine_exec urls cs a = Some a' /\
                Forall (fun f => is_done f = true) a'.2.
Proof.
  intros Hk. induction n as [|n IH]; intros a Hn Hinv.
  - destruct (decide (Forall (fun f => is_done f = true) a.2)) as [Hd|Hd].
    + exists [], a. auto.
    + destruct Hinv as (_ & Hlen & Hsh & Hl & _).
      destruct (progress k urls a Hk Hl Hlen Hd) as (c & a1 & Hs).
      destruct (machine_step_fuel _ _ _ _ Hs Hsh). lia.
  - destruct (decide (Forall (fun f => is_done f = true) a.2)) as [Hd|Hd].
    + exists [], a. auto.
    + pose proof Hinv as (_ & Hlen & Hsh & Hl & _).
      destruct (progress k urls a Hk Hl Hlen Hd) as (c & a1 & Hs).
      destruct (machine_step_fuel _ _ _ _ Hs Hsh) as [Hlt _].
      destruct (IH a1) as (cs & a' & He & Hdone); [lia | |].
      { eapply batch_inv_step; eassumption. }
      exists (c :: cs), a'. cbn [machine_exec]. rewrite Hs. auto.
Qed.

(** [gather] on the tasks of the machine. *)
Lemma gather_tasks_of urls : forall fs,
  length fs = length urls ->
  gather (tasks_of urls fs)
  = if bool_decide (Forall (fun f => is_done f = true) fs)
    then Some (inr (zip_with result_of urls fs))
    else None.
Proof.
  induction urls as [|u urls IH]; intros [|f fs] Hlen; try discriminate.
  - reflexivity.
  - cbn [tasks_of zip_with gather]. fold (tasks_of urls fs).
    injection Hlen as Hlen. rewrite (IH fs Hlen).
    destruct f; cbn [task_of code_of code];
      try (rewrite (bool_decide_eq_false_2 (Forall _ (_ :: fs)));
           [ reflexivity
           | intros H; apply Forall_cons in H as [H _]; discriminate H ]).
    + rewrite (bool_decide_eq_false_2 (Forall _ (_ :: fs)))
        by (intros H; apply Forall_cons in H as [H _]; discriminate H).
      unfold in_fetch, after_fetch, wait.
      destruct (Qle_bool (delay the_rl) 0); reflexivity.
    + case_bool_decide as E.
      * rewrite (bool_decide_eq_true_2 (Forall _ (_ :: fs)))
          by (constructor; [reflexivity | assumption]).
        reflexivity.
      * rewrite (bool_decide_eq_false_2 (Forall _ (_ :: fs))); [reflexivity|].
        intros H; apply Forall_cons in H as [_ H]; contradiction.
    + case_bool_decide as E.
      * rewrite (bool_decide_eq_true_2 (Forall _ (_ :: fs)))
          by (constructor; [reflexivity | assumption]).
        reflexivity.
      * rewrite (bool_decide_eq_false_2 (Forall _ (_ :: fs))); [reflexivity|].
        intros H; apply Forall_cons in H as [_ H]; contradiction.
    + case_bool_decide as E.
      * rewrite (bool_decide_eq_true_2 (Forall _ (_ :: fs)))
          by (constructor; [reflexivity | assumption]).
        reflexivity.
      * rewrite (bool_decide_eq_false_2 (Forall _ (_ :: fs))); [reflexivity|].
        intros H; apply Forall_cons in H as [_ H]; contradiction.
Qed.

(** ** Reading the tasks and the trace *)

(** The place of a task, from the head of its code. *)
Lemma code_of_sleep_in_wait u f d k :
  code_of u f = Sleep InWait d k ->
  exists n rest b until, f = RateSleep n rest b d until.
Proof.
  destruct f; cbn; try discriminate.
  - unfold in_fetch, after_fetch, wait.
    destruct (Qle_bool (delay the_rl) 0); discriminate.
  - intros [= <- _]. eauto.
Qed.

Lemma code_of_rate_lock u f k :
  code_of u f = LockAcquire RateLock k -> exists n rest b, f = RateAcq n rest b.
Proof.
  destruct f; cbn; try discriminate. eauto.
Qed.

Lemma code_of_ret u f r :
  code_of u f = Ret r ->
  (f = DoneBlocked /\ r = inr (disallowed u)) \/
  (exists e, f = DoneRaised e /\ r = inr (failed u e)) \/
  (exists res, f = Done res /\ r = inr res).
Proof.
  destruct f; cbn; try discriminate.
  - unfold in_fetch, after_fetch, wait.
    destruct (Qle_bool (delay the_rl) 0); discriminate.
  - intros [= <-]. auto.
  - intros [= <-]. eauto.
  - intros [= <-]. eauto.
Qed.



(** What the phase of a task says about its events. *)
Lemma phase_facts i tr :
  match phase_of_trace i tr with
  | Before => takes i tr = 0%nat /\ existsb (took_slot i) tr = false /\
              existsb (gave_slot i) tr = false /\ existsb (works i) tr = false
  | Inside => takes i tr = 1%nat /\ existsb (took_slot i) tr = true /\
              existsb (gave_slot i) tr = false
  | After => takes i tr = 1%nat /\ existsb (took_slot i) tr = true /\
             existsb (gave_slot i) tr = true
  | Broken => True
  end.
Proof.
  induction tr as [|e tr IH]; [cbn; auto|].
  cbn [phase_of_trace]. unfold takes in *. cbn [existsb List.filter].
  unfold fetch_step_of.
  destruct e as [w l|w l|w|w|w a d t|w a u t]; cbn [who took_slot gave_slot works];
    destruct (Nat.eqb w i); cbn [phase_after orb];
    try exact IH;
    try (destruct a; cbn [phase_after]; try exact IH);
    destruct (phase_of_trace i tr); cbn [phase_after length orb]; try exact I;
    intuition (try lia; try congruence).
Qed.

Lemma phase_broken_stays i e tr :
  phase_of_trace i tr = Broken -> phase_of_trace i (e :: tr) = Broken.
Proof.
  intros H. cbn [phase_of_trace]. rewrite H.
  destruct (fetch_step_of i e) as [[]|]; reflexivity.
Qed.

Lemma phase_suffix i later tr :
  phase_of_trace i (later ++ tr) <> Broken -> phase_of_trace i tr <> Broken.
Proof.
  induction later as [|e later IH]; [auto|].
  cbn [app]. intros H. apply IH. intros Hb. apply H.
  apply phase_broken_stays. assumption.
Qed.

(** A page request or a backoff sleep comes with the slot taken and not
    given back. *)
Lemma works_inside i later e earlier :
  phase_of_trace i (later ++ e :: earlier) <> Broken ->
  works i e = true ->
  existsb (took_slot i) earlier = true /\ existsb (gave_slot i) earlier = false.
Proof.
  intros H Hw. apply phase_suffix in H. cbn [phase_of_trace] in H.
  assert (fetch_step_of i e = Some Work) as Hs.
  { unfold fetch_step_of. destruct e; try discriminate Hw;
      destruct at_; try discriminate Hw; cbn in Hw |- *; rewrite Hw; reflexivity. }
  rewrite Hs in H. pose proof (phase_facts i earlier) as Hf.
  destruct (phase_of_trace i earlier); cbn in H; try congruence.
  destruct Hf as (_ & ? & ?). auto.
Qed.

Lemma in_section_active i f tr :
  phase_of_trace i tr = phase_of f -> in_section tr i = active f.
Proof.
  intros H. pose proof (phase_facts i tr) as Hf. rewrite H in Hf.
  unfold in_section, phase_of in *.
  destruct (active f).
  - destruct Hf as (_ & -> & ->). reflexivity.
  - destruct f; destruct Hf as (_ & Ht & Hg & ?) || destruct Hf as (_ & Ht & Hg);
      rewrite Ht, Hg; reflexivity.
Qed.

Lemma sections_slots tr fs : forall start,
  (forall i f, fs !! i = Some f -> in_section tr (start + i) = active f) ->
  Z.of_nat (length (List.filter (in_section tr) (seq start (length fs)))) = slots fs.
Proof.
  induction fs as [|g fs IH]; intros start H; [reflexivity|].
  cbn [length seq List.filter].
  change (slots (g :: fs)) with (slot g + slots fs).
  pose proof (H 0%nat g eq_refl) as H0. rewrite Nat.add_0_r in H0. rewrite H0.
  rewrite <- (IH (S start)).
  - unfold slot. destruct (active g); cbn [length]; lia.
  - intros i f Hf. rewrite <- (H (S i) f Hf). f_equal. lia.
Qed.

(** Rules, once cached, stay. *)
Lemma cache_stays_step k urls c a a' h rp :
  machine_step urls c a = Some a' -> locks_inv k a -> robots_inv urls a ->
  cache a.1 !! h = Some rp -> cache a'.1 !! h = Some rp.
Proof.
  intros Hs (_ & [Hba _] & _) (R1 & _) Hc.
  destruct (machine_step_inv _ _ _ _ Hs) as (u & f & f' & s' & _ & Hu & Hf & Hn & ->).
  destruct a as [s fs]. cbn [fst snd] in *.
  destruct (next_form_robots _ _ _ _ _ _ _ Hn)
    as [(_ & _ & E & _)|[(_ & _ & _ & _ & E & _)|[(_ & _ & E & _)
       |[(Hh & _ & _ & rp' & E & _)|(_ & _ & _ & E & _)]]]];
    rewrite E; try exact Hc.
  change (cache (set_clock (clock s + dt c) s)) with (cache s).
  rewrite lookup_insert_ne; [exact Hc|].
  intros <-. pose proof (Hba _ _ Hf Hh) as Hown.
  assert (fetching_host urls s = Some (netloc u)) as Hfh.
  { unfold fetching_host. rewrite Hown, Hu. reflexivity. }
  rewrite (R1 _ Hfh) in Hc. discriminate.
Qed.

Lemma cache_stays k urls cs : forall a a' h rp,
  machine_exec urls cs a = Some a' -> batch_inv k urls a ->
  cache a.1 !! h = Some rp -> cache a'.1 !! h = Some rp.
Proof.
  induction cs as [|c cs IH]; intros a a' h rp H Hinv Hc.
  - injection H as <-. assumption.
  - cbn [machine_exec] in H.
    destruct (machine_step urls c a) as [a1|] eqn:Hs; [|discriminate].
    eapply IH; [eassumption | eapply batch_inv_step; eassumption |].
    destruct Hinv as (_ & _ & _ & Hl & _ & _ & Hr & _).
    eapply cache_stays_step; eassumption.
Qed.

(** Once the rules of a host are cached, its [robots.txt] is not
    requested again. *)
Lemma fetches_stay_step urls c a a' h rp :
  machine_step urls c a = Some a' ->
  cache a.1 !! h = Some rp ->
  robots_fetches h (trace a'.1) = robots_fetches h (trace a.1).
Proof.
  intros Hs Hc.
  destruct (machine_step_inv _ _ _ _ Hs) as (u & f & f' & s' & _ & Hu & Hf & Hn & ->).
  destruct a as [s fs]. cbn [fst snd] in *. unfold robots_fetches.
  destruct (next_form_robots _ _ _ _ _ _ _ Hn)
    as [(_ & _ & _ & E & _)|[(_ & _ & _ & Hmiss & _ & E)|[(_ & _ & _ & E)
       |[(_ & _ & E & _)|(_ & _ & E & _)]]]];
    rewrite E; try reflexivity.
  change (cache (set_clock (clock s + dt c) s)) with (cache s) in Hmiss.
  cbn [count_occ]. destruct (string_dec _ _) as [E'|]; [|reflexivity].
  apply robots_url_inj in E'. congruence.
Qed.

Lemma fetches_stay k urls cs : forall a a' h rp,
  machine_exec urls cs a = Some a' -> batch_inv k urls a ->
  cache a.1 !! h = Some rp ->
  robots_fetches h (trace a'.1) = robots_fetches h (trace a.1).
Proof.
  induction cs as [|c cs IH]; intros a a' h rp H Hinv Hc.
  - injection H as <-. reflexivity.
  - cbn [machine_exec] in H.
    destruct (machine_step urls c a) as [a1|] eqn:Hs; [|discriminate].
    rewrite (IH a1 a' h rp H).
    + eapply fetches_stay_step; eassumption.
    + eapply batch_inv_step; eassumption.
    + destruct Hinv as (_ & _ & _ & Hl & _ & _ & Hr & _).
      eapply cache_stays_step; eassumption.
Qed.

(** ** What holds of every run of a batch *)

Lemma batch_reach t0 k urls cs w :
  0 <= k -> exec cs (batch_world t0 k urls) = Some w ->
  exists a,
    machine_exec urls cs (fresh t0 k, first_forms urls) = Some a /\
    w = world_of urls a /\ batch_inv k urls a.
Proof.
  intros Hk H. unfold batch_world in H.
  rewrite exec_world_of in H
    by (cbn [snd]; auto using first_forms_wf, first_forms_length).
  destruct (machine_exec _ _ _) as [a|] eqn:E; [|discriminate].
  injection H as <-. exists a. split; [reflexivity|]. split; [reflexivity|].
  eapply batch_inv_exec; [eassumption|]. apply batch_inv_first. assumption.
Qed.

Lemma world_of_exec urls cs a w :
  batch_inv 0 urls a \/ (exists k, batch_inv k urls a) ->
  exec cs (world_of urls a) = Some w ->
  exists a', machine_exec urls cs a = Some a' /\ w = world_of urls a'.
Proof.
  intros Hinv H.
  assert (Forall wf a.2 /\ length a.2 = length urls) as [Hwf Hlen].
  { destruct Hinv as [(? & ? & _)|[k (? & ? & _)]]; auto. }
  rewrite exec_world_of in H by assumption.
  destruct (machine_exec _ _ _) as [a'|]; [|discriminate].
  injection H as <-. eauto.
Qed.

Lemma spaced_app rl l1 l2 :
  spaced rl (l1 ++ l2) -> spaced rl l2.
Proof.
  induction l1 as [|[u t] l1 IH]; [auto|]. cbn. intros [_ H]. auto.
Qed.

Lemma page_requests_app tr1 tr2 :
  page_requests (tr1 ++ tr2) = page_requests tr1 ++ page_requests tr2.
Proof. apply omap_app. Qed.

(** Two page requests of one scope are at least [delay] apart. *)
Lemma batch_spacing t0 k urls cs w later mid older w1 u1 t1 w2 u2 t2 :
  0 <= k -> is_Some limiter_on ->
  exec cs (batch_world t0 k urls) = Some w ->
  trace (state w)
  = later ++ EvGet w2 InFetch u2 t2 :: mid ++ EvGet w1 InFetch u1 t1 :: older ->
  scope_of the_rl u1 = scope_of the_rl u2 ->
  (t1 + delay the_rl <= t2)%Q.
Proof.
  intros Hk Hon Hex Htr Hsc.
  destruct (batch_reach _ _ _ _ _ Hk Hex) as (a & _ & -> & Hinv).
  destruct Hinv as (_ & _ & _ & _ & _ & _ & _ & Ht).
  destruct (Ht Hon) as (Hsp & _). cbn [world_of state] in Htr.
  rewrite Htr, page_requests_app in Hsp. apply spaced_app in Hsp.
  cbn [page_requests omap] in Hsp. cbn [spaced] in Hsp.
  destruct Hsp as [Hsp _]. apply (Hsp u1 t1); [|assumption].
  change (omap _ (mid ++ EvGet w1 InFetch u1 t1 :: older))
    with (page_requests (mid ++ EvGet w1 InFetch u1 t1 :: older)).
  rewrite page_requests_app. apply in_or_app. right. left. reflexivity.
Qed.

Lemma result_for_url u res : result_for u res -> url res = u.
Proof. intros [[d ->]|[e ->]]; reflexivity. Qed.

Lemma map_url_results urls : forall fs,
  length fs = length urls ->
  (forall i u res, urls !! i = Some u -> fs !! i = Some (Done res) ->
                   result_for u res) ->
  map url (zip_with result_of urls fs) = urls.
Proof.
  induction urls as [|u urls IH]; intros [|f fs] Hlen H; try discriminate.
  - reflexivity.
  - cbn [zip_with map]. f_equal.
    + destruct f; try reflexivity.
      apply result_for_url. apply (H 0%nat u res); reflexivity.
    + apply IH; [injection Hlen; auto|].
      intros i u0 res Hu Hf. apply (H (S i) u0 res); assumption.
Qed.

(** When every task is done, [gather] gives one result per URL, in the
    order of the URLs. *)
Lemma batch_results t0 k urls cs w res :
  0 <= k ->
  exec cs (batch_world t0 k urls) = Some w ->
  gather (tasks w) = Some res ->
  exists results,
    res = inr results /\ length results = length urls /\
    map url results = urls.
Proof.
  intros Hk Hex Hg.
  destruct (batch_reach _ _ _ _ _ Hk Hex) as (a & _ & -> & Hinv).
  destruct Hinv as (_ & Hlen & _ & _ & _ & Hres & _).
  cbn [world_of tasks] in Hg. rewrite gather_tasks_of in Hg by assumption.
  case_bool_decide; [|discriminate]. injection Hg as <-.
  eexists. split; [reflexivity|]. split.
  - rewrite length_zip_with, Hlen. apply Nat.min_id.
  - apply map_url_results; assumption.
Qed.

(** A run has at most 19 turns per URL, and can always be brought to the
    end of the batch. *)
Lemma batch_completes t0 k urls cs w :
  1 <= k ->
  exec cs (batch_world t0 k urls) = Some w ->
  (length cs <= 19 * length urls)%nat /\
  exists cs' w' results,
    exec cs' w = Some w' /\ gather (tasks w') = Some (inr results).
Proof.
  intros Hk Hex. assert (0 <= k) as Hk0 by lia.
  destruct (batch_reach _ _ _ _ _ Hk0 Hex) as (a & Hm & -> & Hinv).
  split.
  - pose proof (machine_exec_fuel _ _ _ _ Hm (first_forms_counted urls)) as H.
    pose proof (total_fuel_first_forms urls). cbn [snd] in H. lia.
  - destruct (completion k urls Hk _ a (Nat.le_refl _) Hinv) as (cs' & a' & He & Hd).
    pose proof Hinv as (Hwf & Hlen & _).
    exists cs', (world_of urls a'). eexists. split.
    + rewrite exec_world_of by assumption. rewrite He. reflexivity.
    + pose proof (batch_inv_exec _ _ _ _ _ He Hinv) as (_ & Hlen' & _).
      cbn [world_of tasks]. rewrite gather_tasks_of by assumption.
      rewrite bool_decide_eq_true_2 by assumption. reflexivity.
Qed.

Lemma tasks_of_lookup_inv urls fs i t :
  tasks_of urls fs !! i = Some t ->
  exists u f, urls !! i = Some u /\ fs !! i = Some f /\ t = task_of u f.
Proof.
  unfold tasks_of. rewrite lookup_zip_with.
  destruct (urls !! i) as [u|]; [|discriminate]. cbn.
  destruct (fs !! i) as [f|]; [|discriminate]. cbn.
  intros [= <-]. eauto.
Qed.

Lemma step_world_inv urls a c w' :
  Forall wf a.2 -> length a.2 = length urls ->
  step c (world_of urls a) = Some w' ->
  exists u f f' s',
    (0 <= dt c)%Q /\
    urls !! pick c = Some u /\ a.2 !! pick c = Some f /\
    next_form (pick c) u f (answer c) (set_clock (clock a.1 + dt c)%Q a.1)
    = Some (f', s') /\
    w' = world_of urls (s', <[pick c := f']> a.2).
Proof.
  intros Hwf Hlen H. rewrite step_world_of in H by assumption.
  destruct (machine_step urls c a) as [a'|] eqn:Hs; [|discriminate].
  injection H as <-.
  destruct (machine_step_inv _ _ _ _ Hs) as (u & f & f' & s' & ? & ? & ? & ? & ->).
  exists u, f, f', s'. auto.
Qed.




(** Once [can_fetch] has returned for a task, either its [rp.parse]
    raised and the task is done with that exception as its error, or the
    rules of the host of its URL are in the cache and the task went the
    way these rules say; rules in the cache stay what they are, and the
    [robots.txt] of their host is not requested again. *)
Lemma batch_robots t0 k urls cs w :
  0 <= k -> exec cs (batch_world t0 k urls) = Some w ->
  (is_Some robots ->
   forall i u t, urls !! i = Some u -> tasks w !! i = Some t ->
     existsb (left_robots i) (trace (state w)) = true ->
     (exists e text,
        parse_robots text = inl e /\ code t = Ret (inr (failed u e)) /\
        existsb (took_slot i) (trace (state w)) = false) \/
     (exists rp,
       cache (state w) !! netloc u = Some rp /\
       (rp_can_fetch rp (user_agent the_rc) u = false ->
        code t = Ret (inr (disallowed u)) /\
        existsb (took_slot i) (trace (state w)) = false) /\
       (rp_can_fetch rp (user_agent the_rc) u = true ->
        (exists kk, code t = SemAcquire kk) \/
        existsb (took_slot i) (trace (state w)) = true))) /\
  (forall h rp cs' w', cache (state w) !! h = Some rp ->
     exec cs' w = Some w' ->
     cache (state w') !! h = Some rp /\
     robots_fetches h (trace (state w')) = robots_fetches h (trace (state w))).
Proof.
  intros Hk Hex.
  destruct (batch_reach _ _ _ _ _ Hk Hex) as (a & _ & -> & Hinv).
  pose proof Hinv as (Hwf & Hlen & _ & _ & Htr & _ & (R1 & R3) & _).
  cbn [world_of state tasks]. split.
  - intros Hr i u t Hu Ht Hleft.
    apply tasks_of_lookup_inv in Ht as (u0 & f & Hu0 & Hf & ->).
    assert (u0 = u) as -> by congruence.
    destruct (Htr _ _ Hf) as (Hph & _ & Hl). rewrite (Hl Hr) in Hleft.
    pose proof (phase_facts i (trace a.1)) as Hfacts. rewrite Hph in Hfacts.
    destruct (verdict f) as [v|] eqn:Hv.
    + right. destruct (R3 Hr _ _ _ _ Hu Hf Hv) as (rp & Hrp & Hcf).
      exists rp. split; [assumption|].
      split; intros E; rewrite E in Hcf; subst v.
      * destruct f; try discriminate Hv. split; [reflexivity|].
        cbn in Hfacts. tauto.
      * destruct f; try discriminate Hv; try discriminate Hleft;
          cbn in Hfacts; first [left; eexists; reflexivity | right; tauto].
    + left. destruct f; try discriminate Hv; try discriminate Hleft.
      pose proof (Forall_lookup_1 _ _ _ _ Hwf Hf) as (_ & text & Htext).
      exists e, text. split; [assumption|]. split; [reflexivity|].
      cbn in Hfacts. tauto.
  - intros h rp cs' w' Hc Hex'.
    destruct (world_of_exec urls cs' a w') as (a' & He & ->); [eauto | assumption |].
    cbn [world_of state]. split.
    + eapply cache_stays; eassumption.
    + eapply fetches_stay; eassumption.
Qed.

(** The tasks inside their [async with semaphore] are as many as the
    slots taken, so at most [k]; a task takes a slot once at most, and
    each of its page requests and backoff sleeps comes after it took the
    slot and before it gave it back. *)
Lemma batch_semaphore t0 k urls cs w :
  0 <= k -> exec cs (batch_world t0 k urls) = Some w ->
  Z.of_nat (length (sections (trace (state w)) (length urls)))
  = k - sem_value (state w) /\
  0 <= sem_value (state w) /\
  (forall i u, urls !! i = Some u -> (takes i (trace (state w)) <= 1)%nat) /\
  (forall i u later e earlier,
     urls !! i = Some u ->
     trace (state w) = later ++ e :: earlier -> works i e = true ->
     existsb (took_slot i) earlier = true /\
     existsb (gave_slot i) earlier = false).
Proof.
  intros Hk Hex.
  destruct (batch_reach _ _ _ _ _ Hk Hex) as (a & _ & -> & Hinv).
  destruct Hinv as (_ & Hlen & _ & (_ & _ & Hsem & Hpos) & Htr & _).
  cbn [world_of state].
  assert (forall i u, urls !! i = Some u ->
            phase_of_trace i (trace a.1) <> Broken) as Hok.
  { intros i u Hu.
    assert (i < length a.2)%nat as Hi.
    { rewrite Hlen. eapply lookup_lt_Some; eassumption. }
    apply lookup_lt_is_Some_2 in Hi as [f Hf].
    destruct (Htr _ _ Hf) as (-> & _). unfold phase_of.
    destruct (active f); [discriminate|]. destruct f; discriminate. }
  split; [|split; [assumption|split]].
  - unfold sections. rewrite <- Hlen, (sections_slots _ a.2 0%nat); [lia|].
    intros i f Hf. apply in_section_active. apply (Htr _ _ Hf).
  - intros i u Hu. pose proof (phase_facts i (trace a.1)) as Hf.
    pose proof (Hok _ _ Hu).
    destruct (phase_of_trace i (trace a.1)); try congruence;
      destruct Hf as (-> & _); lia.
  - intros i u later e earlier Hu Htrace Hw.
    apply (works_inside i later e earlier); [|assumption].
    rewrite <- Htrace. eauto.
Qed.

(** A task whose URL the cached rules disallow takes no slot and sends no
    page request, and once its [can_fetch] has returned it is done: with
    the result "Disallowed by robots.txt", or, if its own [rp.parse]
    raised before these rules came into the cache, with that exception. *)
Lemma batch_disallowed t0 k urls cs w i u t rp :
  0 <= k -> exec cs (batch_world t0 k urls) = Some w ->
  is_Some robots ->
  urls !! i = Some u -> tasks w !! i = Some t ->
  cache (state w) !! netloc u = Some rp ->
  rp_can_fetch rp (user_agent the_rc) u = false ->
  existsb (took_slot i) (trace (state w)) = false /\
  existsb (works i) (trace (state w)) = false /\
  sent i (trace (state w)) = 0 /\
  (existsb (left_robots i) (trace (state w)) = true ->
   code t = Ret (inr (disallowed u)) \/
   exists e text, parse_robots text = inl e /\ code t = Ret (inr (failed u e))).
Proof.
  intros Hk Hex Hr Hu Ht Hc Hno.
  destruct (batch_reach _ _ _ _ _ Hk Hex) as (a & _ & -> & Hinv).
  destruct Hinv as (Hwf & _ & _ & (_ & [Hba _] & _) & Htr & _ & (R1 & R3) & _).
  cbn [world_of state tasks] in *.
  apply tasks_of_lookup_inv in Ht as (u0 & f & Hu0 & Hf & ->).
  assert (u0 = u) as -> by congruence.
  destruct (Htr _ _ Hf) as (Hph & Hsent & Hl). specialize (Hl Hr).
  pose proof (phase_facts i (trace a.1)) as Hfacts. rewrite Hph in Hfacts.
  pose proof (Forall_lookup_1 _ _ _ _ Hwf Hf) as Hwff.
  assert (f = RobotsAcq \/ f = DoneBlocked \/ exists e, f = DoneRaised e) as Hf'.
  { destruct (verdict f) as [[|]|] eqn:Hv.
    - destruct (R3 Hr _ _ _ _ Hu Hf Hv) as (rp' & Hrp' & Hcf). congruence.
    - destruct f; try discriminate Hv. auto.
    - destruct f; try discriminate Hv; eauto; exfalso.
      + pose proof (Hba _ _ Hf eq_refl) as Hown.
        assert (fetching_host urls a.1 = Some (netloc u)) as Hfh.
        { unfold fetching_host. rewrite Hown, Hu. reflexivity. }
        rewrite (R1 _ Hfh) in Hc. discriminate.
      + pose proof (Hba _ _ Hf eq_refl) as Hown.
        assert (fetching_host urls a.1 = Some (netloc u)) as Hfh.
        { unfold fetching_host. rewrite Hown, Hu. reflexivity. }
        rewrite (R1 _ Hfh) in Hc. discriminate. }
  destruct Hf' as [-> | [-> | [e ->]]]; cbn in Hfacts, Hsent, Hl;
    (split; [tauto|]); (split; [tauto|]); (split; [assumption|]).
  - rewrite Hl. discriminate.
  - left. reflexivity.
  - right. destruct Hwff as (_ & text & Htext). eauto.
Qed.

(** The turn in which [can_fetch] returns to a task with rules in the
    cache that disallow its URL: the task is done, with the result
    "Disallowed by robots.txt". *)
Lemma batch_disallow_return t0 k urls cs w c w' u t' rp :
  0 <= k -> exec cs (batch_world t0 k urls) = Some w ->
  is_Some robots ->
  step c w = Some w' ->
  urls !! pick c = Some u -> tasks w' !! pick c = Some t' ->
  existsb (left_robots (pick c)) (trace (state w)) = false ->
  cache (state w') !! netloc u = Some rp ->
  rp_can_fetch rp (user_agent the_rc) u = false ->
  code t' = Ret (inr (disallowed u)).
Proof.
  intros Hk Hex Hr Hstep Hu Ht' Hleft Hc Hno.
  destruct (batch_reach _ _ _ _ _ Hk Hex) as (a & _ & -> & Hinv).
  destruct Hinv as (Hwf & Hlen & _ & (_ & [Hba _] & _) & Htr & _ & (R1 & R3) & _).
  destruct (step_world_inv _ _ _ _ Hwf Hlen Hstep)
    as (u1 & f & f' & s' & _ & Hu1 & Hf & Hn & ->).
  assert (u1 = u) as -> by congruence.
  cbn [world_of state tasks fst snd] in *.
  assert (t' = task_of u f') as ->.
  { apply tasks_of_lookup_inv in Ht' as (u0 & f0 & Hu0 & Hf0 & ->).
    rewrite list_lookup_insert_eq in Hf0 by (eapply lookup_lt_Some; eassumption).
    congruence. }
  destruct (Htr _ _ Hf) as (_ & _ & Hl). rewrite (Hl Hr) in Hleft.
  assert (holds_robots f = true -> cache a.1 !! netloc u = None) as Hheld.
  { intros Hh. apply R1. unfold fetching_host.
    rewrite (Hba _ _ Hf Hh), Hu. reflexivity. }
  cbn [task_of code].
  destruct (next_form_robots _ _ _ _ _ _ _ Hn)
    as [(Hh & _ & E & _ & Hv)
       |[(_ & _ & _ & Hmiss & E & _)
       |[(Hh & _ & E & _)
       |[(_ & _ & _ & rp' & E & Hv)
        |(Hh & _ & _ & E & _)]]]];
    rewrite E in Hc;
    change (cache (set_clock (clock a.1 + dt c) a.1)) with (cache a.1) in *.
  - destruct f; try discriminate Hleft; try discriminate Hh.
    destruct Hv as (rp0 & Hrp0 & Hv).
    assert (rp0 = rp) as -> by congruence. rewrite Hno in Hv.
    destruct f'; try discriminate Hv. reflexivity.
  - congruence.
  - rewrite (Hheld Hh) in Hc. discriminate.
  - rewrite lookup_insert_eq in Hc. injection Hc as ->. rewrite Hno in Hv.
    destruct f'; try discriminate Hv. reflexivity.
  - rewrite (Hheld Hh) in Hc. discriminate.
Qed.





Lemma reserve_and_send_facts me u n rest b s f' s' :
  (f', s') = reserve_and_send me u n rest b s ->
  f' = PageGet n rest b /\
  trace s' = EvGet me InFetch u (clock s) :: EvUnlock me RateLock :: trace s /\
  next_of the_rl u s' = (clock s + delay the_rl)%Q /\
  clock s' = clock s /\ rate_lock s' = None.
Proof.
  unfold reserve_and_send, send_request. intros [= -> ->].
  unfold set_next, next_of. destruct (per_host the_rl); cbn.
  - rewrite lookup_insert_eq. auto.
  - auto.
Qed.

(** [RateLimiter.wait] in a batch. A task that takes the lock of the
    limiter before the time of its scope goes to sleep for the difference
    with the lock held; otherwise, and when it wakes up, it reads the
    clock, sets the entry of its scope to now plus [delay], releases the
    lock and sends its request, all at once. While it sleeps nobody else
    gets the lock. *)
Lemma batch_wait t0 k urls cs w i u t :
  0 <= k -> exec cs (batch_world t0 k urls) = Some w ->
  urls !! i = Some u -> tasks w !! i = Some t ->
  (forall kk d ans w',
     code t = LockAcquire RateLock kk ->
     step (mkTurn i d ans) w = Some w' ->
     let now := (clock (state w) + d)%Q in
     let next := next_of the_rl u (state w) in
     rate_lock (state w) = None /\
     ((now < next)%Q ->
      rate_lock (state w') = Some i /\
      trace (state w')
      = EvSleep i InWait (next - now) now :: EvLock i RateLock :: trace (state w) /\
      exists t' kk', tasks w' !! i = Some t' /\
        code t' = Sleep InWait (next - now) kk' /\
        wake t' = (now + (next - now))%Q) /\
     ((next <= now)%Q ->
      rate_lock (state w') = None /\
      trace (state w')
      = EvGet i InFetch u now :: EvUnlock i RateLock :: EvLock i RateLock
          :: trace (state w) /\
      next_of the_rl u (state w') = (now + delay the_rl)%Q)) /\
  (forall sleep_for kk,
     code t = Sleep InWait sleep_for kk ->
     rate_lock (state w) = Some i /\
     (next_of the_rl u (state w) <= wake t)%Q /\
     (forall j t' kk' d ans,
        tasks w !! j = Some t' -> code t' = LockAcquire RateLock kk' ->
        step (mkTurn j d ans) w = None) /\
     (forall d ans w',
        step (mkTurn i d ans) w = Some w' ->
        let now := (clock (state w) + d)%Q in
        (wake t <= now)%Q /\
        rate_lock (state w') = None /\
        trace (state w')
        = EvGet i InFetch u now :: EvUnlock i RateLock :: trace (state w) /\
        next_of the_rl u (state w') = (now + delay the_rl)%Q)).
Proof.
  intros Hk Hex Hu Ht.
  destruct (batch_reach _ _ _ _ _ Hk Hex) as (a & _ & -> & Hinv).
  destruct Hinv as (Hwf & Hlen & _ & ([Hra _] & _) & _ & _ & _ & Htime).
  destruct a as [s fs]. cbn [world_of state tasks fst snd] in *.
  apply tasks_of_lookup_inv in Ht as (u0 & f & Hu0 & Hf & ->).
  assert (u0 = u) as -> by congruence.
  pose proof (Forall_lookup_1 _ _ _ _ Hwf Hf) as Hwff.
  split.
  - intros kk d ans w' Hc Hstep. cbn [task_of code] in Hc.
    destruct (code_of_rate_lock _ _ _ Hc) as (n & rest & b & ->).
    destruct (step_world_inv urls (s, fs) _ _ Hwf Hlen Hstep)
      as (u1 & f1 & f' & s' & _ & Hu1 & Hf1 & Hn & ->).
    cbn [pick answer dt fst snd] in *.
    assert (u1 = u) as -> by congruence.
    assert (f1 = RateAcq n rest b) as -> by congruence.
    destruct (next_form_rate_acq _ _ _ _ _ _ _ _ _ Hn)
      as [Hfree [(Hlt & -> & ->)|(Hge & Hrs)]];
      cbn [clock set_clock] in *;
      change (next_of the_rl u (set_clock (clock s + d) s))
        with (next_of the_rl u s) in *;
      (split; [exact Hfree|]); cbn [world_of state tasks fst snd].
    + apply Qltb_true in Hlt. split.
      * intros _. split; [reflexivity|]. split; [reflexivity|].
        eexists (task_of u _), _. split.
        { apply tasks_of_lookup; [assumption|].
          apply list_lookup_insert_eq. eapply lookup_lt_Some; eassumption. }
        split; reflexivity.
      * intros Hle. exfalso. lra.
    + apply Qltb_false in Hge.
      destruct (reserve_and_send_facts _ _ _ _ _ _ _ _ Hrs)
        as (_ & Htr & Hnext & _ & Hlock).
      split.
      * intros Hlt. exfalso. lra.
      * intros _. auto.
  - intros sleep_for kk Hc. cbn [task_of code wake] in Hc |- *.
    destruct (code_of_sleep_in_wait _ _ _ _ Hc) as (n & rest & b & until & ->).
    pose proof (Hra _ _ Hf eq_refl) as Hown.
    split; [assumption|]. split.
    + destruct (Htime Hwff) as (_ & _ & Hsl). apply (Hsl _ _ _ _ _ _ _ Hu Hf).
    + split.
      * intros j t' kk' d ans Ht' Hc'. unfold step, world_of.
        cbn [pick dt answer state tasks fst snd].
        destruct (Qle_bool 0 d); [|reflexivity]. rewrite Ht'.
        unfold resume. rewrite Hc'. cbn [lock_owner rate_lock set_clock].
        rewrite Hown. reflexivity.
      * intros d ans w' Hstep.
        destruct (step_world_inv urls (s, fs) _ _ Hwf Hlen Hstep)
          as (u1 & f1 & f' & s' & _ & Hu1 & Hf1 & Hn & ->).
        cbn [pick answer dt fst snd] in *.
        assert (u1 = u) as -> by congruence.
        assert (f1 = RateSleep n rest b sleep_for until) as -> by congruence.
        destruct (next_form_rate_sleep _ _ _ _ _ _ _ _ _ _ _ Hn) as [Hwake Hrs].
        destruct (reserve_and_send_facts _ _ _ _ _ _ _ _ Hrs)
          as (_ & Htr & Hnext & _ & Hlock).
        cbn [world_of state fst wake_of clock set_clock] in *. auto.
Qed.

(** ** More on a batch *)

(** A task sends at most three page requests. *)
Lemma batch_sent_bound t0 k urls cs w i u :
  0 <= k -> exec cs (batch_world t0 k urls) = Some w ->
  urls !! i = Some u ->
  0 <= sent i (trace (state w)) <= 3.
Proof.
  intros Hk Hex Hu.
  destruct (batch_reach _ _ _ _ _ Hk Hex) as (a & _ & -> & Hinv).
  destruct Hinv as (_ & Hlen & Hcnt & _ & Htr & _).
  cbn [world_of state].
  assert (i < length a.2)%nat as Hi.
  { rewrite Hlen. eapply lookup_lt_Some; eassumption. }
  apply lookup_lt_is_Some_2 in Hi as [f Hf].
  destruct (Htr _ _ Hf) as (_ & Hs & _).
  pose proof (proj1 (Forall_lookup _ _) Hcnt _ _ Hf) as Hc.
  destruct f; cbn in Hs, Hc; try lia.
  destruct Hc as (n & Hn & ->). rewrite length_range in Hs. lia.
Qed.

(** When every task is done the slots are all back and the two locks
    are free. *)
Lemma batch_end_state t0 k urls cs w res :
  0 <= k -> exec cs (batch_world t0 k urls) = Some w ->
  gather (tasks w) = Some res ->
  sem_value (state w) = k /\ rate_lock (state w) = None /\
  robots_lock (state w) = None.
Proof.
  intros Hk Hex Hg.
  destruct (batch_reach _ _ _ _ _ Hk Hex) as (a & _ & -> & Hinv).
  destruct Hinv as (_ & Hlen & _ & ((_ & Hr) & (_ & Hb) & Hsem & _) & _).
  cbn [world_of state tasks] in *. rewrite gather_tasks_of in Hg by assumption.
  case_bool_decide as Hd; [|discriminate].
  assert (forall i f, a.2 !! i = Some f -> is_done f = true) as Hdone.
  { intros i f Hf. exact (proj1 (Forall_lookup _ _) Hd _ _ Hf). }
  split; [|split].
  - rewrite slots_none in Hsem; [lia|].
    apply Forall_forall. intros f Hin.
    apply list_elem_of_lookup in Hin as [i Hf]. apply Hdone in Hf.
    destruct f; try discriminate Hf; reflexivity.
  - destruct (rate_lock a.1) as [i|]; [|reflexivity].
    destruct (Hr i eq_refl) as (f & Hf & Hh). apply Hdone in Hf.
    destruct f; discriminate.
  - destruct (robots_lock a.1) as [i|]; [|reflexivity].
    destruct (Hb i eq_refl) as (f & Hf & Hh). apply Hdone in Hf.
    destruct f; discriminate.
Qed.

(** *** [Semaphore(0)] *)

Lemma slots_nonneg fs : 0 <= slots fs.
Proof.
  induction fs as [|f fs IH]; [reflexivity|].
  change (0 <= slot f + slots fs). unfold slot. destruct (active f); lia.
Qed.

Lemma next_form_idle me u f ans s f' s' :
  next_form me u f ans s = Some (f', s') ->
  sem_value s <= 0 -> idle f = true -> idle f' = true.
Proof.
  intros H Hs Hi. destruct f; try discriminate Hi; next_form_cases H;
    try reflexivity; try lia.
Qed.

Lemma machine_exec_idle urls cs : forall a a',
  machine_exec urls cs a = Some a' -> batch_inv 0 urls a ->
  Forall (fun f => idle f = true) a.2 -> Forall (fun f => idle f = true) a'.2.
Proof.
  induction cs as [|c cs IH]; intros a a' H Hinv Hidle.
  - injection H as <-. assumption.
  - cbn [machine_exec] in H.
    destruct (machine_step urls c a) as [a1|] eqn:Hs; [|discriminate].
    apply (IH a1 a' H); [eapply batch_inv_step; eassumption|].
    destruct (machine_step_inv _ _ _ _ Hs) as (u & f & f' & s' & _ & _ & Hf & Hn & ->).
    destruct Hinv as (_ & _ & _ & (_ & _ & Hsem & _) & _).
    pose proof (slots_nonneg a.2).
    cbn [snd]. apply Forall_insert; [assumption|].
    eapply next_form_idle; [eassumption | cbn; lia |].
    exact (proj1 (Forall_lookup _ _) Hidle _ _ Hf).
Qed.

Lemma first_forms_idle urls : Forall (fun f => idle f = true) (first_forms urls).
Proof.
  apply Forall_forall. intros f Hin. apply list_elem_of_lookup in Hin as [i Hf].
  apply first_forms_lookup in Hf as [-> _]. unfold first_form.
  destruct robots; reflexivity.
Qed.

Lemma batch_zero t0 urls cs w :
  exec cs (batch_world t0 0 urls) = Some w ->
  (forall i u, urls !! i = Some u ->
     existsb (took_slot i) (trace (state w)) = false /\
     existsb (works i) (trace (state w)) = false /\
     sent i (trace (state w)) = 0) /\
  (forall i t r, tasks w !! i = Some t -> code t = Ret r ->
     is_Some robots /\
     exists u, urls !! i = Some u /\
       (r = inr (disallowed u) \/
        exists e text, parse_robots text = inl e /\ r = inr (failed u e))) /\
  (robots = None -> urls <> [] -> gather (tasks w) = None).
Proof.
  intros Hex.
  destruct (batch_reach _ _ _ _ _ (Z.le_refl 0) Hex) as (a & Hm & -> & Hinv).
  pose proof (machine_exec_idle _ _ _ _ Hm (batch_inv_first t0 0 urls (Z.le_refl 0))
                (first_forms_idle urls)) as Hidle.
  pose proof Hinv as (Hwf & Hlen & _ & _ & Htr & _).
  cbn [world_of state tasks]. split; [|split].
  - intros i u Hu.
    assert (i < length a.2)%nat as Hi.
    { rewrite Hlen. eapply lookup_lt_Some; eassumption. }
    apply lookup_lt_is_Some_2 in Hi as [f Hf].
    pose proof (proj1 (Forall_lookup _ _) Hidle _ _ Hf) as Hid.
    destruct (Htr _ _ Hf) as (Hph & Hs & _).
    pose proof (phase_facts i (trace a.1)) as Hfacts. rewrite Hph in Hfacts.
    destruct f; try discriminate Hid; cbn in Hs, Hfacts; tauto.
  - intros i t r Ht Hc.
    apply tasks_of_lookup_inv in Ht as (u & f & Hu & Hf & ->).
    pose proof (proj1 (Forall_lookup _ _) Hidle _ _ Hf) as Hid.
    pose proof (Forall_lookup_1 _ _ _ _ Hwf Hf) as Hw.
    destruct (code_of_ret _ _ _ Hc) as [[-> ->]|[(e & -> & ->)|(res & -> & _)]];
      [| |discriminate Hid].
    + split; [exact Hw|]. exists u. auto.
    + destruct Hw as (Hr & text & Htext). split; [exact Hr|]. exists u.
      split; [assumption|]. right. eauto.
  - intros Hr Hne. rewrite gather_tasks_of by assumption.
    rewrite bool_decide_eq_false_2; [reflexivity|].
    intros Hd. destruct urls as [|u urls]; [contradiction|].
    destruct a as [s [|f fs]]; [discriminate Hlen|]. cbn [snd] in *.
    apply Forall_cons in Hd as [Hd _]. apply Forall_cons in Hidle as [Hid _].
    apply Forall_cons in Hwf as [Hw _].
    destruct f; try discriminate Hd; try discriminate Hid;
      cbn in Hw; rewrite Hr in Hw;
      [destruct Hw as [? [=]] | destruct Hw as [[? [=]] _]].
Qed.

(** A task that comes to a free lock of the cache that is empty, gets a
    [robots.txt] that [rp.parse] cannot read, and is resumed up to the
    end of [can_fetch]: one request for [robots.txt], nothing in the
    cache, and the task is done with the exception of [rp.parse]. *)
Lemma machine_parse_raises urls i u resp text e s fs :
  urls !! i = Some u -> fs !! i = Some RobotsAcq ->
  robots_lock s = None -> cache s = ∅ ->
  status resp = 200 -> body resp = inr text -> parse_robots text = inl e ->
  exists s',
    machine_exec urls
      [mkTurn i 0 (inr resp); mkTurn i 0 (inr resp); mkTurn i 0 (inr resp)]
      (s, fs)
    = Some (s', <[i := DoneRaised e]> fs) /\
    robots_gets (trace s') = robots_url (netloc u) :: robots_gets (trace s) /\
    cache s' = ∅ /\ robots_lock s' = None.
Proof.
  intros Hu Hf Hl Hc Hst Hb He.
  assert (i < length fs)%nat as Hi by (eapply lookup_lt_Some; eassumption).
  cbn [machine_exec]. unfold machine_step at 1.
  cbn [dt pick answer fst snd]. change (Qle_bool 0 0) with true. cbv iota.
  rewrite Hu, Hf. cbn [next_form]. cbv zeta.
  change (robots_lock (set_clock (clock s + 0) s)) with (robots_lock s).
  rewrite Hl.
  change (cache (lock i RobotsLock (set_clock (clock s + 0) s))) with (cache s).
  rewrite Hc, lookup_empty.
  unfold machine_step at 1.
  cbn [dt pick answer fst snd]. change (Qle_bool 0 0) with true. cbv iota.
  rewrite Hu, list_lookup_insert_eq by assumption.
  cbn [next_form]. rewrite Hst. cbn [Z.eqb Pos.eqb].
  unfold machine_step at 1.
  cbn [dt pick answer fst snd]. change (Qle_bool 0 0) with true. cbv iota.
  rewrite Hu, list_lookup_insert_eq by (rewrite length_insert; assumption).
  cbn [next_form]. rewrite Hb. unfold robots_parsed. rewrite He.
  rewrite !list_insert_insert_eq.
  eexists. split; [reflexivity|]. cbn. rewrite Hc. auto.
Qed.

(** Two tasks of one host and a [robots.txt] that [rp.parse] cannot
    read: each of them requests it. *)
Lemma machine_refetch t0 k u0 u1 rest resp text e :
  is_Some robots ->
  netloc u1 = netloc u0 ->
  status resp = 200 -> body resp = inr text -> parse_robots text = inl e ->
  exists s,
    machine_exec (u0 :: u1 :: rest)
      ([mkTurn 0 0 (inr resp); mkTurn 0 0 (inr resp); mkTurn 0 0 (inr resp)]
       ++ [mkTurn 1 0 (inr resp); mkTurn 1 0 (inr resp); mkTurn 1 0 (inr resp)])
      (fresh t0 k, first_forms (u0 :: u1 :: rest))
    = Some (s, DoneRaised e :: DoneRaised e :: first_forms rest) /\
    robots_gets (trace s) = [robots_url (netloc u0); robots_url (netloc u0)] /\
    cache s = ∅.
Proof.
  intros [rc Hr] Hh Hst Hb He.
  assert (forall l, first_forms l = map (fun _ => RobotsAcq) l) as Hfirst.
  { intros l. unfold first_forms, first_form. rewrite Hr. reflexivity. }
  rewrite !Hfirst. cbn [map]. set (fs0 := map (fun _ : string => RobotsAcq) rest).
  destruct (machine_parse_raises (u0 :: u1 :: rest) 0%nat u0 resp text e
              (fresh t0 k) (RobotsAcq :: RobotsAcq :: fs0)
              eq_refl eq_refl eq_refl eq_refl Hst Hb He) as (s1 & H1 & G1 & C1 & L1).
  cbn [insert list_insert] in H1.
  destruct (machine_parse_raises (u0 :: u1 :: rest) 1%nat u1 resp text e
              s1 (DoneRaised e :: RobotsAcq :: fs0)
              eq_refl eq_refl L1 C1 Hst Hb He) as (s2 & H2 & G2 & C2 & _).
  cbn [insert list_insert] in H2.
  exists s2. split; [eapply machine_exec_app; eassumption|].
  split; [|assumption]. rewrite G2, G1, Hh. reflexivity.
Qed.
(** ** How often a [robots.txt] is requested *)








End Batch.

(** ** [scrape_many] *)

Lemma scrape_many_world t0 urls selectors k headers delay per_host respect w0 :
  scrape_many t0 urls selectors k headers delay per_host respect = inr w0 ->
  0 <= k /\
  w0 = batch_world selectors (limiter_of delay per_host)
         (robots_of headers respect) t0 k urls.
Proof.
  unfold scrape_many, scrape_tasks.
  destruct (Z.ltb_spec k 0); [discriminate|].
  rewrite spawn_first_forms. intros [= <-]. split; [assumption | reflexivity].
Qed.

Lemma limiter_of_on delay per_host :
  (0 < delay)%Q ->
  is_Some (limiter_on (limiter_of delay per_host)) /\
  the_rl (limiter_of delay per_host) = mkRateLimiter delay per_host.
Proof.
  intros H. unfold limiter_of, limiter_on, the_rl, RateLimiter_init, Qmax0.
  rewrite (proj2 (Qltb_true 0 delay) H).
  rewrite (proj2 (Qle_bool_false delay 0) H). cbn.
  rewrite (proj2 (Qle_bool_false delay 0) H). split; [eexists|]; reflexivity.
Qed.

Lemma exec_app {R : Type} cs1 : forall cs2 (w w1 w2 : world R),
  exec cs1 w = Some w1 -> exec cs2 w1 = Some w2 ->
  exec (cs1 ++ cs2) w = Some w2.
Proof.
  induction cs1 as [|c cs1 IH]; intros cs2 w w1 w2 H1 H2.
  - injection H1 as ->. assumption.
  - cbn [exec app] in *. destruct (step c w); [|discriminate]. eauto.
Qed.

(** * The claims on a batch *)

(** C1. With [delay > 0], in every run of [scrape_many] (any number of
    URLs, any order of the turns of the event loop, any answers of the
    network, any passing of time), two page requests of the same
    rate-limit scope (the host with [per_host], the one global scope
    otherwise) are at least [delay] apart. The clock stands still while a
    task runs between two suspension points, and a sleep never ends
    early. *)
Theorem requests_spaced_by_delay t0 urls selectors k headers delay per_host
    respect w0 cs w later mid older w1 u1 t1 w2 u2 t2 :
  (0 < delay)%Q ->
  scrape_many t0 urls selectors k headers delay per_host respect = inr w0 ->
  exec cs w0 = Some w ->
  trace (state w)
  = later ++ EvGet w2 InFetch u2 t2 :: mid ++ EvGet w1 InFetch u1 t1 :: older ->
  scope_of (RateLimiter_init delay per_host) u1
  = scope_of (RateLimiter_init delay per_host) u2 ->
  (t1 + delay <= t2)%Q.
Proof.
  intros Hd H0 Hex Htr Hsc.
  destruct (scrape_many_world _ _ _ _ _ _ _ _ _ H0) as [Hk ->].
  destruct (limiter_of_on delay per_host Hd) as [Hon Hrl].
  pose proof (batch_spacing selectors (limiter_of delay per_host)
                (robots_of headers respect) t0 k urls cs w later mid older
                w1 u1 t1 w2 u2 t2 Hk Hon Hex Htr) as H.
  rewrite Hrl in H. apply H. exact Hsc.
Qed.

(** C2. Whenever the tasks of [scrape_many] are all done, in whatever
    order they ran and finished, [gather] returns a list with one result
    per URL, the i-th result being that of the i-th URL. With a positive
    [concurrency] every run is finite (at most 19 turns per URL) and can
    be continued until that point. *)
Theorem scrape_many_results_in_input_order t0 urls selectors k headers delay
    per_host respect w0 :
  scrape_many t0 urls selectors k headers delay per_host respect = inr w0 ->
  (forall cs w res,
     exec cs w0 = Some w -> gather (tasks w) = Some res ->
     exists results,
       res = inr results /\ length results = length urls /\
       map url results = urls) /\
  (1 <= k ->
   forall cs w, exec cs w0 = Some w ->
     (length cs <= 19 * length urls)%nat /\
     exists cs' w' results,
       exec cs' w = Some w' /\ gather (tasks w') = Some (inr results) /\
       map url results = urls).
Proof.
  intros H0. destruct (scrape_many_world _ _ _ _ _ _ _ _ _ H0) as [Hk ->].
  split.
  - intros cs w res Hex Hg. eapply batch_results; eassumption.
  - intros Hk1 cs w Hex.
    destruct (batch_completes _ _ _ _ _ _ _ _ Hk1 Hex)
      as (Hlen & cs' & w' & results & Hex' & Hg).
    split; [assumption|]. exists cs', w', results.
    split; [assumption|]. split; [assumption|].
    pose proof (exec_app _ _ _ _ _ Hex Hex') as Hall.
    destruct (batch_results _ _ _ _ _ _ _ _ _ Hk Hall Hg) as (r & [= <-] & _ & Hm).
    assumption.
Qed.


(** C6 does not hold of the code: [rp.parse] stands outside the [try]
    of [can_fetch], and when it raises nothing is stored in the cache.
    With [respect_robots], two URLs of one host whose [robots.txt] is
    served with a text that [rp.parse] cannot read: each of the two
    tasks requests the [robots.txt] of the host, so it is requested
    twice; the cache stays without rules for the host; and both tasks
    end with the exception of [rp.parse] as their error. *)
Theorem robots_refetched_when_parse_raises t0 u0 u1 rest selectors k headers
    delay per_host resp text e w0 :
  scrape_many t0 (u0 :: u1 :: rest) selectors k headers delay per_host true
  = inr w0 ->
  netloc u1 = netloc u0 ->
  status resp = 200 -> body resp = inr text ->
  text <> "" -> rp_parse_error (splitlines text) = Some e ->
  exists w t t',
    exec ([mkTurn 0 0 (inr resp); mkTurn 0 0 (inr resp); mkTurn 0 0 (inr resp)]
          ++ [mkTurn 1 0 (inr resp); mkTurn 1 0 (inr resp); mkTurn 1 0 (inr resp)])
      w0 = Some w /\
    robots_fetches (netloc u0) (trace (state w)) = 2%nat /\
    cache (state w) !! netloc u0 = None /\
    tasks w !! 0%nat = Some t /\ code t = Ret (inr (failed u0 e)) /\
    tasks w !! 1%nat = Some t' /\ code t' = Ret (inr (failed u1 e)).
Proof.
  intros H0 Hh Hst Hb Hne He.
  destruct (scrape_many_world _ _ _ _ _ _ _ _ _ H0) as [Hk ->].
  assert (parse_robots text = inl e) as Hp.
  { unfold parse_robots. apply String.eqb_neq in Hne. rewrite Hne, He. reflexivity. }
  destruct (machine_refetch selectors (limiter_of delay per_host)
              (robots_of headers true) t0 k u0 u1 rest resp text e
              ltac:(eexists; reflexivity) Hh Hst Hb Hp) as (s & Hm & Hg & Hc).
  eexists (world_of _ _ _ _ _), _, _. split.
  - unfold batch_world. rewrite exec_world_of
      by (cbn [snd]; auto using first_forms_wf, first_forms_length).
    rewrite Hm. reflexivity.
  - cbn [world_of state tasks fst snd tasks_of zip_with].
    split; [|split; [|split; [|split; [|split]]]]; try reflexivity.
    + unfold robots_fetches. rewrite Hg. cbn [count_occ].
      destruct (string_dec _ _); [reflexivity | contradiction].
    + rewrite Hc. apply lookup_empty.
Qed.

(** C7. In every run of [scrape_many] with [Semaphore(k)]:
    - the tasks inside their [async with semaphore] (slot taken, not given
      back) are as many as the semaphore counts, and at most [k];
    - a task takes a slot at most once;
    - every page request and every backoff sleep of a task happens after
      it took its slot and before it gave it back: all the attempts of a
      URL run in the one slot of its task. *)
Theorem semaphore_bounds_fetch_sections t0 urls selectors k headers delay
    per_host respect w0 cs w :
  scrape_many t0 urls selectors k headers delay per_host respect = inr w0 ->
  exec cs w0 = Some w ->
  Z.of_nat (length (sections (trace (state w)) (length urls))) <= k /\
  Z.of_nat (length (sections (trace (state w)) (length urls)))
  = k - sem_value (state w) /\
  (forall i u, urls !! i = Some u -> (takes i (trace (state w)) <= 1)%nat) /\
  (forall i u later e earlier,
     urls !! i = Some u ->
     trace (state w) = later ++ e :: earlier -> works i e = true ->
     existsb (took_slot i) earlier = true /\
     existsb (gave_slot i) earlier = false).
Proof.
  intros H0 Hex. destruct (scrape_many_world _ _ _ _ _ _ _ _ _ H0) as [Hk ->].
  destruct (batch_semaphore _ _ _ _ _ _ _ _ Hk Hex) as (H1 & H2 & H3 & H4).
  split; [lia|]. split; [assumption|]. split; assumption.
Qed.

(** C8. In every run of [scrape_many] with [respect_robots], a task whose
    URL the cached rules of its host disallow never takes a slot of the
    semaphore, never sends a page request and never sleeps a backoff;
    once its [can_fetch] has returned, the task is done: with
    [{"url": url, "ok": False, "error": "Disallowed by robots.txt"}], or,
    if [rp.parse] raised in its own call before these rules came into
    the cache, with that exception as its error; and when it is in the
    last turn that [can_fetch] returned to the task, the task is done
    with the disallow result. *)
Theorem disallowed_url_short_circuits t0 urls selectors k headers delay per_host
    w0 cs w i u t rp :
  scrape_many t0 urls selectors k headers delay per_host true = inr w0 ->
  exec cs w0 = Some w ->
  urls !! i = Some u -> tasks w !! i = Some t ->
  cache (state w) !! netloc u = Some rp ->
  rp_can_fetch rp (user_agent_of headers) u = false ->
  existsb (took_slot i) (trace (state w)) = false /\
  existsb (works i) (trace (state w)) = false /\
  sent i (trace (state w)) = 0 /\
  (existsb (left_robots i) (trace (state w)) = true ->
   code t = Ret (inr (disallowed u)) \/
   exists e text, parse_robots text = inl e /\ code t = Ret (inr (failed u e))) /\
  (forall cs1 c w1,
     exec cs1 w0 = Some w1 -> step c w1 = Some w -> pick c = i ->
     existsb (left_robots i) (trace (state w1)) = false ->
     code t = Ret (inr (disallowed u))).
Proof.
  intros H0 Hex Hu Ht Hc Hno.
  destruct (scrape_many_world _ _ _ _ _ _ _ _ _ H0) as [Hk ->].
  destruct (batch_disallowed selectors (limiter_of delay per_host)
              (robots_of headers true) t0 k urls cs w i u t rp Hk Hex
              ltac:(eexists; reflexivity) Hu Ht Hc Hno) as (H1 & H2 & H3 & H4).
  split; [assumption|]. split; [assumption|]. split; [assumption|].
  split; [assumption|].
  intros cs1 c w1 Hex1 Hstep <- Hleft.
  eapply (batch_disallow_return selectors (limiter_of delay per_host)
            (robots_of headers true)); try eassumption.
  eexists; reflexivity.
Qed.

(** C9, as amended. In every run of [scrape_many] with [delay > 0]:
    - a task that gets the lock of the limiter at a time [now] earlier
      than the entry [next] of its scope starts a sleep of [next - now]
      and keeps the lock; at a later time it sets the entry to
      [now + delay], releases the lock and sends its request, in one go;
    - a task asleep in [wait] holds the lock, every task that waits for
      the lock (of whatever scope) stays blocked, and the entry of the
      scope is not later than the end of the sleep;
    - when the sleeper is resumed its sleep is over; it reads the clock
      again, sets the entry of its scope to [now + delay], releases the
      lock and sends its request, in one go. *)
Theorem wait_sleeps_with_the_lock_held t0 urls selectors k headers delay
    per_host respect w0 cs w i u t :
  (0 < delay)%Q ->
  scrape_many t0 urls selectors k headers delay per_host respect = inr w0 ->
  exec cs w0 = Some w ->
  urls !! i = Some u -> tasks w !! i = Some t ->
  let rl := RateLimiter_init delay per_host in
  (forall kk d ans w',
     code t = LockAcquire RateLock kk ->
     step (mkTurn i d ans) w = Some w' ->
     let now := (clock (state w) + d)%Q in
     let next := next_of rl u (state w) in
     rate_lock (state w) = None /\
     ((now < next)%Q ->
      rate_lock (state w') = Some i /\
      trace (state w')
      = EvSleep i InWait (next - now) now :: EvLock i RateLock :: trace (state w) /\
      exists t' kk', tasks w' !! i = Some t' /\
        code t' = Sleep InWait (next - now) kk' /\
        wake t' = (now + (next - now))%Q) /\
     ((next <= now)%Q ->
      rate_lock (state w') = None /\
      trace (state w')
      = EvGet i InFetch u now :: EvUnlock i RateLock :: EvLock i RateLock
          :: trace (state w) /\
      next_of rl u (state w') = (now + delay)%Q)) /\
  (forall sleep_for kk,
     code t = Sleep InWait sleep_for kk ->
     rate_lock (state w) = Some i /\
     (next_of rl u (state w) <= wake t)%Q /\
     (forall j t' kk' d ans,
        tasks w !! j = Some t' -> code t' = LockAcquire RateLock kk' ->
        step (mkTurn j d ans) w = None) /\
     (forall d ans w',
        step (mkTurn i d ans) w = Some w' ->
        let now := (clock (state w) + d)%Q in
        (wake t <= now)%Q /\
        rate_lock (state w') = None /\
        trace (state w')
        = EvGet i InFetch u now :: EvUnlock i RateLock :: trace (state w) /\
        next_of rl u (state w') = (now + delay)%Q)).
Proof.
  intros Hd H0 Hex Hu Ht.
  destruct (scrape_many_world _ _ _ _ _ _ _ _ _ H0) as [Hk ->].
  destruct (limiter_of_on delay per_host Hd) as [_ Hrl].
  pose proof (batch_wait selectors (limiter_of delay per_host)
                (robots_of headers respect) t0 k urls cs w i u t Hk Hex Hu Ht) as H.
  rewrite Hrl in H. exact H.
Qed.

(** * More on a batch of [scrape_many] *)

(** X13. In every run of [scrape_many], whatever fails and however the
    tasks are interleaved, a URL is requested at most three times (the
    default [retries] of [fetch]). *)
Theorem scrape_many_at_most_three_requests t0 urls selectors k headers delay
    per_host respect w0 cs w i u :
  scrape_many t0 urls selectors k headers delay per_host respect = inr w0 ->
  exec cs w0 = Some w ->
  urls !! i = Some u ->
  0 <= sent i (trace (state w)) <= 3.
Proof.
  intros H0 Hex Hu. destruct (scrape_many_world _ _ _ _ _ _ _ _ _ H0) as [Hk ->].
  eapply batch_sent_bound; eassumption.
Qed.

(** X14. When [gather] returns, in whatever way the batch went, the
    semaphore is back at [concurrency] and the locks of the limiter and
    of the robots cache are free: no failure leaks a slot or a lock. *)
Theorem scrape_many_ends_with_all_released t0 urls selectors k headers delay
    per_host respect w0 cs w res :
  scrape_many t0 urls selectors k headers delay per_host respect = inr w0 ->
  exec cs w0 = Some w ->
  gather (tasks w) = Some res ->
  sem_value (state w) = k /\ rate_lock (state w) = None /\
  robots_lock (state w) = None.
Proof.
  intros H0 Hex Hg. destruct (scrape_many_world _ _ _ _ _ _ _ _ _ H0) as [Hk ->].
  eapply batch_end_state; eassumption.
Qed.

(** X15. With [concurrency = 0] the semaphore never has a slot: in every
    run no task ever takes one and no page is ever requested; a task
    ends only under [respect_robots] and only with [ok = False]: with
    the result "Disallowed by robots.txt" when the rules disallow its
    URL, or with the exception that [can_fetch] raised as its error;
    and without [respect_robots] no task ever ends, so the [gather] of a
    batch that is not empty never returns. *)
Theorem scrape_many_zero_concurrency_hangs t0 urls selectors headers delay
    per_host respect w0 cs w :
  scrape_many t0 urls selectors 0 headers delay per_host respect = inr w0 ->
  exec cs w0 = Some w ->
  (forall i u, urls !! i = Some u ->
     existsb (took_slot i) (trace (state w)) = false /\
     existsb (works i) (trace (state w)) = false /\
     sent i (trace (state w)) = 0) /\
  (forall i t r, tasks w !! i = Some t -> code t = Ret r ->
     respect = true /\
     exists u e, urls !! i = Some u /\ r = inr (failed u e)) /\
  (respect = false ->
   (forall i t r, tasks w !! i = Some t -> code t <> Ret r) /\
   (urls <> [] -> gather (tasks w) = None)).
Proof.
  intros H0 Hex. destruct (scrape_many_world _ _ _ _ _ _ _ _ _ H0) as [_ ->].
  destruct (batch_zero _ _ _ _ _ _ _ Hex) as (H1 & H2 & H3).
  assert (forall i t r, tasks w !! i = Some t -> code t = Ret r ->
            respect = true /\
            exists u e, urls !! i = Some u /\ r = inr (failed u e)) as Hend.
  { intros i t r Ht Hc.
    destruct (H2 i t r Ht Hc) as (Hr & u & Hu & [->|(e & _ & _ & ->)]).
    - split; [destruct respect; [reflexivity | destruct Hr as [? [=]]]|].
      exists u, "Disallowed by robots.txt". auto.
    - split; [destruct respect; [reflexivity | destruct Hr as [? [=]]]|].
      exists u, e. auto. }
  split; [assumption|]. split; [exact Hend|].
  intros ->. split.
  - intros i t r Ht Hc. destruct (Hend i t r Ht Hc) as [[=] _].
  - apply H3. reflexivity.
Qed.

(** X19. In every run of [scrape_many] with [respect_robots]:
    - once [can_fetch] has returned for a task, either [rp.parse] raised
      in it and the task is done with that exception as its error,
      without a slot; or the rules of the host of its URL are in the
      cache and the task went the way these rules say: disallowed, it
      is done with the disallow result and never took a slot; allowed,
      it is at the semaphore of [fetch] or has taken its slot;
    - rules in the cache are never replaced, and the [robots.txt] of
      their host is never requested again: all the later callers for the
      host decide on the same rules. *)
Theorem cached_rules_are_final t0 urls selectors k headers delay per_host
    w0 cs w :
  scrape_many t0 urls selectors k headers delay per_host true = inr w0 ->
  exec cs w0 = Some w ->
  (forall i u t, urls !! i = Some u -> tasks w !! i = Some t ->
     existsb (left_robots i) (trace (state w)) = true ->
     (exists e text,
        parse_robots text = inl e /\ code t = Ret (inr (failed u e)) /\
        existsb (took_slot i) (trace (state w)) = false) \/
     (exists rp,
       cache (state w) !! netloc u = Some rp /\
       (rp_can_fetch rp (user_agent_of headers) u = false ->
        code t = Ret (inr (disallowed u)) /\
        existsb (took_slot i) (trace (state w)) = false) /\
       (rp_can_fetch rp (user_agent_of headers) u = true ->
        (exists kk, code t = SemAcquire kk) \/
        existsb (took_slot i) (trace (state w)) = true))) /\
  (forall h rp cs' w', cache (state w) !! h = Some rp ->
     exec cs' w = Some w' ->
     cache (state w') !! h = Some rp /\
     robots_fetches h (trace (state w')) = robots_fetches h (trace (state w))).
Proof.
  intros H0 Hex. destruct (scrape_many_world _ _ _ _ _ _ _ _ _ H0) as [Hk ->].
  destruct (batch_robots _ _ _ _ _ _ _ _ Hk Hex) as (H1 & H2).
  split; [|assumption]. apply H1. eexists; reflexivity.
Qed.


End Program.

(** * The command-line helpers *)

Section ToolsFacts.
Variable isspace : ascii -> bool.

Lemma append_nil (s : string) : ("" ++ s)%string = s.
Proof. reflexivity. Qed.

Lemma append_cons d (a s : string) : (String d a ++ s)%string = String d (a ++ s).
Proof. reflexivity. Qed.

Lemma split1_absent c s : contains c s = false -> split1 c s = [s].
Proof.
  induction s as [|d r IH]; cbn; [reflexivity|].
  intros H. apply orb_false_iff in H as [Hd Hr]. rewrite Hd, (IH Hr). reflexivity.
Qed.

Lemma split1_present c s :
  contains c s = true ->
  exists a b, split1 c s = [a; b] /\ s = (a ++ String c b)%string /\
              contains c a = false.
Proof.
  induction s as [|d r IH]; cbn; [discriminate|].
  destruct (Ascii.eqb d c) eqn:E; cbn.
  - intros _. apply Ascii.eqb_eq in E as ->. exists "", r. auto.
  - intros H. destruct (IH H) as (a & b & -> & -> & Ha).
    exists (String d a), b. cbn. rewrite E, Ha. auto.
Qed.

Lemma split1_first c a b :
  contains c a = false -> split1 c (a ++ String c b) = [a; b].
Proof.
  induction a as [|d r IH]; intros H.
  - rewrite append_nil. cbn. rewrite Ascii.eqb_refl. reflexivity.
  - cbn in H. apply orb_false_iff in H as [Hd Hr].
    rewrite append_cons. cbn. rewrite Hd, (IH Hr). reflexivity.
Qed.

Lemma contains_app c a b : contains c (a ++ b) = contains c a || contains c b.
Proof.
  induction a as [|d r IH]; [reflexivity|].
  rewrite append_cons. cbn. rewrite IH. apply orb_assoc.
Qed.

Lemma contains_lstrip c s : contains c s = false -> contains c (lstrip isspace s) = false.
Proof.
  induction s as [|d r IH]; cbn; [auto|]. intros H.
  destruct (isspace d); [|exact H].
  apply orb_false_iff in H as [_ Hr]. auto.
Qed.

Lemma contains_rstrip c s : contains c s = false -> contains c (rstrip isspace s) = false.
Proof.
  induction s as [|d r IH]; cbn; [auto|]. intros H.
  apply orb_false_iff in H as [Hd Hr]. specialize (IH Hr).
  destruct (rstrip isspace r) eqn:E.
  - destruct (isspace d); cbn; [reflexivity|]. rewrite Hd. reflexivity.
  - cbn. rewrite Hd. exact IH.
Qed.

Lemma contains_strip c s : contains c s = false -> contains c (strip isspace s) = false.
Proof. intros H. apply contains_rstrip, contains_lstrip, H. Qed.

Lemma length_lstrip s : (String.length (lstrip isspace s) <= String.length s)%nat.
Proof.
  induction s as [|d r IH]; cbn; [lia|]. destruct (isspace d); cbn; lia.
Qed.

(** A string is its own [lstrip] when it does not start with a space. *)
Lemma lstrip_fixed s :
  lstrip isspace s = s <->
  match s with String c _ => isspace c = false | EmptyString => True end.
Proof.
  destruct s as [|c r]; cbn; [tauto|].
  destruct (isspace c); split; try congruence; try tauto.
  intros H. pose proof (length_lstrip r) as Hl. rewrite H in Hl. cbn in Hl. lia.
Qed.

Lemma lstrip_idem s : lstrip isspace (lstrip isspace s) = lstrip isspace s.
Proof.
  induction s as [|d r IH]; cbn; [reflexivity|].
  destruct (isspace d) eqn:E; [exact IH|]. cbn. rewrite E. reflexivity.
Qed.

Lemma rstrip_idem s : rstrip isspace (rstrip isspace s) = rstrip isspace s.
Proof.
  induction s as [|d r IH]; cbn; [reflexivity|].
  destruct (rstrip isspace r) as [|e r'] eqn:E.
  - destruct (isspace d) eqn:Ed; cbn; [reflexivity|]. rewrite Ed. reflexivity.
  - cbn. cbn in IH. rewrite IH. reflexivity.
Qed.

Lemma lstrip_rstrip s :
  lstrip isspace s = s -> lstrip isspace (rstrip isspace s) = rstrip isspace s.
Proof.
  intros H. apply lstrip_fixed in H. apply lstrip_fixed.
  destruct s as [|c r]; cbn; [trivial|].
  destruct (rstrip isspace r); [rewrite H|]; exact H.
Qed.

Lemma strip_fixed s :
  strip isspace s = s <-> lstrip isspace s = s /\ rstrip isspace s = s.
Proof.
  unfold strip. split.
  - intros H. assert (lstrip isspace s = s) as Hl.
    { rewrite <- H at 1. rewrite lstrip_rstrip by apply lstrip_idem. exact H. }
    split; [exact Hl|]. rewrite Hl in H. exact H.
  - intros [-> ->]. reflexivity.
Qed.

Lemma strip_idem s : strip isspace (strip isspace s) = strip isspace s.
Proof.
  apply strip_fixed. unfold strip. split.
  - apply lstrip_rstrip, lstrip_idem.
  - apply rstrip_idem.
Qed.


Lemma or_None_facts s :
  match or_None (strip isspace s) with
  | Some a => strip isspace a = a /\ a <> ""
  | None => True
  end.
Proof.
  unfold or_None. destruct (String.eqb_spec (strip isspace s) ""); [trivial|].
  split; [apply strip_idem | assumption].
Qed.

Lemma parse_selector_arg_at nm rest :
  contains "="%char nm = false ->
  parse_selector_arg isspace (nm ++ String "="%char rest)
  = if contains "@"%char rest then
      match split1 "@"%char rest with
      | [c; a] => inr (mkSelector (strip isspace nm) (strip isspace c)
                         (or_None (strip isspace a)))
      | _ => inl "not enough values to unpack"
      end
    else inr (mkSelector (strip isspace nm) (strip isspace rest) None).
Proof.
  intros Hn. unfold parse_selector_arg.
  rewrite contains_app, Hn. cbn [contains orb negb].
  rewrite Ascii.eqb_refl. cbn [orb negb].
  rewrite (split1_first _ _ _ Hn). cbn [unpack2].
  destruct (contains "@"%char rest) eqn:Hat; [|reflexivity].
  destruct (split1_present _ _ Hat) as (c & a & -> & _ & _). reflexivity.
Qed.

(** ** [parse_selector_arg] and [_load_selectors] *)

Lemma parse_selector_arg_result arg :
  if contains "="%char arg
  then exists sel, parse_selector_arg isspace arg = inr sel /\ parsed_form isspace sel
  else parse_selector_arg isspace arg
       = inl ("Selector must be in name=css[@attr] format: " ++ arg)%string.
Proof.
  destruct (contains "="%char arg) eqn:He.
  - destruct (split1_present _ _ He) as (nm & rest & _ & -> & Hn).
    rewrite (parse_selector_arg_at _ _ Hn).
    destruct (contains "@"%char rest) eqn:Hat.
    + destruct (split1_present _ _ Hat) as (c & a & -> & _ & Hc).
      eexists. split; [reflexivity|]. unfold parsed_form. cbn [name css attr].
      split; [apply strip_idem|]. split; [apply contains_strip, Hn|].
      split; [apply strip_idem|]. split; [apply contains_strip, Hc|].
      apply or_None_facts.
    + eexists. split; [reflexivity|]. unfold parsed_form. cbn [name css attr].
      split; [apply strip_idem|]. split; [apply contains_strip, Hn|].
      split; [apply strip_idem|]. split; [apply contains_strip, Hat|]. trivial.
  - unfold parse_selector_arg. rewrite He. reflexivity.
Qed.

(** X1. [parse_selector_arg] raises its [ValueError], with the argument
    in the message, exactly on the arguments without [=]. On every other
    argument it returns a selector (the unpacking of the two [split]s
    never fails), and this selector has no white space around its name,
    CSS and attribute, no [=] in the name, no [@] in the CSS, and an
    attribute that is [None] or not empty. *)
Theorem parse_selector_arg_needs_equals arg :
  if contains "="%char arg
  then exists sel, parse_selector_arg isspace arg = inr sel /\ parsed_form isspace sel
  else parse_selector_arg isspace arg
       = inl ("Selector must be in name=css[@attr] format: " ++ arg)%string.
Proof. exact (parse_selector_arg_result arg). Qed.

Lemma parse_selector_arg_parts nm c a :
  contains "="%char nm = false -> contains "@"%char c = false ->
  parse_selector_arg isspace (nm ++ "=" ++ c)
  = inr (mkSelector (strip isspace nm) (strip isspace c) None) /\
  parse_selector_arg isspace (nm ++ "=" ++ c ++ "@" ++ a)
  = inr (mkSelector (strip isspace nm) (strip isspace c)
           (or_None (strip isspace a))).
Proof.
  intros Hn Hc. split.
  - change (nm ++ "=" ++ c)%string with (nm ++ String "="%char c)%string.
    rewrite (parse_selector_arg_at _ _ Hn), Hc. reflexivity.
  - change (nm ++ "=" ++ c ++ "@" ++ a)%string
      with (nm ++ String "="%char (c ++ String "@"%char a))%string.
    rewrite (parse_selector_arg_at _ _ Hn), contains_app. cbn [contains].
    rewrite Ascii.eqb_refl, orb_true_r. cbn [orb].
    rewrite (split1_first _ _ _ Hc). reflexivity.
Qed.

(** X2. The name is what comes before the first [=], the CSS what
    follows up to the first [@] after it, the attribute the rest; each
    is stripped, and an attribute that is empty once stripped is [None].
    So the CSS may contain [=], and the attribute [@] and [=]. *)
Theorem parse_selector_arg_fields nm c a :
  contains "="%char nm = false -> contains "@"%char c = false ->
  parse_selector_arg isspace (nm ++ "=" ++ c)
  = inr (mkSelector (strip isspace nm) (strip isspace c) None) /\
  parse_selector_arg isspace (nm ++ "=" ++ c ++ "@" ++ a)
  = inr (mkSelector (strip isspace nm) (strip isspace c)
           (or_None (strip isspace a))).
Proof. exact (parse_selector_arg_parts nm c a). Qed.

(** X3. Writing a selector as [name=css] or [name=css@attr] and parsing
    the text gives the selector back exactly when the selector is in
    the form that the parser returns. *)
Theorem parse_selector_arg_round_trip sel :
  parsed_form isspace sel <->
  parse_selector_arg isspace (selector_arg sel) = inr sel.
Proof.
  split.
  - intros (Hn & Hne & Hc & Hca & Ha). destruct sel as [nm c [a|]];
      cbn [name css attr] in *; unfold selector_arg; cbn [name css attr].
    + destruct Ha as [Ha Hnz].
      rewrite (proj2 (parse_selector_arg_parts nm c a Hne Hca)), Hn, Hc, Ha.
      unfold or_None. destruct (String.eqb_spec a ""); [contradiction|reflexivity].
    + replace (c ++ "")%string with c.
      * rewrite (proj1 (parse_selector_arg_parts nm c "" Hne Hca)), Hn, Hc.
        reflexivity.
      * clear. induction c as [|d r IH]; [reflexivity|].
        rewrite append_cons, <- IH. reflexivity.
  - intros H. pose proof (parse_selector_arg_result (selector_arg sel)) as G.
    destruct (contains "="%char (selector_arg sel)).
    + destruct G as (sel' & G & Hp). rewrite H in G. injection G as <-. exact Hp.
    + rewrite H in G. discriminate.
Qed.


Lemma parse_selector_arg_ok arg :
  contains "="%char arg = true <-> exists sel, parse_selector_arg isspace arg = inr sel.
Proof.
  pose proof (parse_selector_arg_result arg) as H.
  destruct (contains "="%char arg); split; intros G; try discriminate.
  - destruct H as (sel & H & _). eauto.
  - reflexivity.
  - destruct G as [sel G]. congruence.
Qed.

Lemma parse_selector_args_spec raw :
  match parse_selector_args isspace raw with
  | inr sels =>
      Forall2 (fun arg sel => parse_selector_arg isspace arg = inr sel) raw sels
  | inl e =>
      exists before arg after,
        raw = before ++ arg :: after /\
        Forall (fun a => contains "="%char a = true) before /\
        contains "="%char arg = false /\
        e = ("Selector must be in name=css[@attr] format: " ++ arg)%string
  end.
Proof.
  induction raw as [|arg raw IH]; cbn [parse_selector_args]; [constructor|].
  pose proof (parse_selector_arg_result arg) as H.
  destruct (contains "="%char arg) eqn:He.
  - destruct H as (sel & Hs & _). rewrite Hs.
    destruct (parse_selector_args isspace raw) as [e|sels].
    + destruct IH as (before & a & after & -> & Hb & Ha & ->).
      exists (arg :: before), a, after. repeat split; auto.
    + constructor; assumption.
  - rewrite H. exists [], arg, raw. repeat split; auto.
Qed.

(** X4. [_load_selectors] returns the empty list without [--selector]
    options; otherwise one selector per option, in the order of the
    options, each the parse of its option. It raises when an option has
    no [=], with the message of the first such option. *)
Theorem load_selectors_all_or_first_error raw :
  match load_selectors isspace raw with
  | inr sels =>
      Forall2 (fun arg sel => parse_selector_arg isspace arg = inr sel)
        (default [] raw) sels
  | inl e =>
      exists before arg after,
        raw = Some (before ++ arg :: after) /\
        Forall (fun a => contains "="%char a = true) before /\
        contains "="%char arg = false /\
        e = ("Selector must be in name=css[@attr] format: " ++ arg)%string
  end.
Proof.
  destruct raw as [[|arg raw]|]; cbn [load_selectors default]; try constructor.
  pose proof (parse_selector_args_spec (arg :: raw)) as H.
  destruct (parse_selector_args isspace (arg :: raw)); [|exact H].
  destruct H as (before & a & after & -> & H). eauto.
Qed.

(** ** [_read_urls_from_file] *)

Lemma read_urls_filter lines :
  read_urls_from_file isspace lines
  = List.filter kept_line (map (strip isspace) lines).
Proof.
  unfold read_urls_from_file. induction lines as [|l lines IH]; [reflexivity|].
  cbn [List.filter map]. unfold kept_line at 1.
  destruct (_ && _); cbn [map]; rewrite IH; reflexivity.
Qed.

(** X5. The URLs read from a file are the stripped lines that are not
    empty and do not start with [#]: a blank line and a comment line,
    indented or not, give no URL. *)
Theorem read_urls_from_file_entries lines u :
  In u (read_urls_from_file isspace lines) <->
  (exists line, In line lines /\ strip isspace line = u) /\
  u <> "" /\ String.prefix "#" u = false.
Proof.
  rewrite read_urls_filter, filter_In, in_map_iff. unfold kept_line.
  rewrite andb_true_iff, !negb_true_iff, String.eqb_neq.
  split; intros ((x & H1 & H2) & H3 & H4); eauto 10.
Qed.

(** X6. Reading the URLs that were read gives them back: they are
    stripped, and none is dropped. *)
Theorem read_urls_from_file_idempotent lines :
  read_urls_from_file isspace (read_urls_from_file isspace lines)
  = read_urls_from_file isspace lines.
Proof.
  rewrite (read_urls_filter (read_urls_from_file isspace lines)).
  rewrite read_urls_filter.
  induction lines as [|l lines IH]; [reflexivity|].
  cbn [map List.filter].
  destruct (kept_line (strip isspace l)) eqn:E; [|exact IH].
  cbn [map List.filter]. rewrite strip_idem, E, IH. reflexivity.
Qed.

(** ** [write_csv] *)









End ToolsFacts.


(** * The extraction step *)

Section PageFacts.

Variable isspace : ascii -> bool.
Variable soup node : Type.
Variable lxml_installed : bool.
Variable BeautifulSoup : string -> string -> soup.
Variable title_string : soup -> option string.
Variable select : soup -> string -> exn + list node.
Variable get_text : node -> string.
Variable get : node -> string -> option value.

Lemma dict_get_set_same {V : Type} key (v : V) d :
  dict_get key (Page.dict_set key v d) = Some v.
Proof.
  induction d as [|[k x] d IH]; cbn.
  - unfold dict_get. cbn. rewrite String.eqb_refl. reflexivity.
  - destruct (String.eqb k key) eqn:E; unfold dict_get in *; cbn; rewrite E;
      [reflexivity | exact IH].
Qed.

Lemma dict_get_set_other {V : Type} key key' (v : V) d :
  key <> key' -> dict_get key' (Page.dict_set key v d) = dict_get key' d.
Proof.
  intros Hne. induction d as [|[k x] d IH]; cbn.
  - unfold dict_get. cbn. apply String.eqb_neq in Hne. rewrite Hne. reflexivity.
  - destruct (String.eqb_spec k key) as [->|Hk]; unfold dict_get in *; cbn.
    + apply String.eqb_neq in Hne. rewrite Hne. reflexivity.
    + destruct (String.eqb k key'); [reflexivity | exact IH].
Qed.

Lemma dict_get_in {V : Type} key (d : list (string * V)) :
  is_Some (dict_get key d) <-> key ∈ d.*1.
Proof.
  induction d as [|[k x] d IH]; unfold dict_get in *; cbn.
  - split; [intros [? [=]] | intros H; inversion H].
  - rewrite elem_of_cons. destruct (String.eqb_spec k key) as [->|Hk]; cbn.
    + split; eauto.
    + rewrite IH. split; [auto|]. intros [->|H]; [contradiction | exact H].
Qed.

Lemma dict_set_keys {V : Type} key (v : V) d :
  (Page.dict_set key v d).*1
  = if decide (key ∈ d.*1) then d.*1 else d.*1 ++ [key].
Proof.
  induction d as [|[k x] d IH]; cbn.
  - destruct (decide _) as [H|]; [inversion H | reflexivity].
  - destruct (String.eqb_spec k key) as [->|Hk]; cbn.
    + rewrite decide_True by (apply elem_of_cons; auto). reflexivity.
    + rewrite IH. destruct (decide (key ∈ d.*1)) as [Hi|Hi].
      * rewrite decide_True by (apply elem_of_cons; auto). reflexivity.
      * rewrite decide_False; [reflexivity|].
        rewrite elem_of_cons. intros [->|H]; contradiction.
Qed.

Lemma dict_set_NoDup {V : Type} key (v : V) d :
  NoDup d.*1 -> NoDup (Page.dict_set key v d).*1.
Proof.
  intros H. rewrite dict_set_keys. destruct (decide _) as [|Hn]; [exact H|].
  apply NoDup_app. split; [exact H|]. split; [|apply NoDup_singleton].
  intros x Hx Hk. apply list_elem_of_singleton in Hk as ->. contradiction.
Qed.

Local Abbreviation values_of := (Page.values_of node get_text get).
Local Abbreviation extract := (Page.extract soup node select get_text get).
Local Abbreviation last_named := (Page.last_named soup node select get_text get).
Local Abbreviation parse_html :=
  (Page.parse_html isspace soup node lxml_installed BeautifulSoup title_string
     select get_text get).

Lemma last_named_snoc sp key selectors sel :
  last_named sp key (selectors ++ [sel])
  = if String.eqb (name sel) key
    then Some (match select sp (css sel) with
               | inl e => inl e
               | inr nodes => inr (values_of sel nodes)
               end)
    else last_named sp key selectors.
Proof.
  unfold Page.last_named. rewrite rev_app_distr. cbn [rev app List.find].
  destruct (String.eqb (name sel) key); reflexivity.
Qed.

(** The loop, from the dictionary that the selectors [done] gave. *)
Lemma extract_spec sp : forall selectors done result d,
  extract sp selectors result = inr d ->
  NoDup result.*1 ->
  (forall key, key ∈ result.*1 <-> key ∈ map name done) ->
  (forall key, dict_get key result
               = match last_named sp key done with
                 | Some (inr values) => Some values
                 | _ => None
                 end) ->
  NoDup d.*1 /\
  (forall key, key ∈ d.*1 <-> key ∈ map name (done ++ selectors)) /\
  (forall key, dict_get key d
               = match last_named sp key (done ++ selectors) with
                 | Some (inr values) => Some values
                 | _ => None
                 end).
Proof.
  induction selectors as [|sel selectors IH]; intros done result d H Hnd Hk Hg.
  - injection H as <-. rewrite app_nil_r. auto.
  - cbn [Page.extract] in H.
    destruct (select sp (css sel)) as [e|nodes] eqn:Es; [discriminate|].
    replace (done ++ sel :: selectors) with ((done ++ [sel]) ++ selectors)
      by (rewrite <- app_assoc; reflexivity).
    apply (IH (done ++ [sel]) _ _ H).
    + apply dict_set_NoDup, Hnd.
    + intros key. rewrite dict_set_keys, map_app, elem_of_app. cbn [map].
      rewrite list_elem_of_singleton.
      destruct (decide (name sel ∈ result.*1)) as [Hi|Hi].
      * rewrite Hk. split; [auto|]. intros [H1| ->]; [exact H1|].
        apply Hk, Hi.
      * rewrite elem_of_app, list_elem_of_singleton, Hk. reflexivity.
    + intros key. rewrite last_named_snoc, Es.
      destruct (String.eqb_spec (name sel) key) as [<-|Hne].
      * apply dict_get_set_same.
      * rewrite dict_get_set_other by exact Hne. apply Hg.
Qed.

Lemma parse_html_dict html selectors d :
  parse_html html selectors = inr d -> selectors <> [] ->
  let sp := BeautifulSoup html (if lxml_installed then "lxml" else "html.parser") in
  NoDup d.*1 /\
  (forall key, key ∈ d.*1 <-> key ∈ map name selectors) /\
  (forall key, dict_get key d
               = match last_named sp key selectors with
                 | Some (inr values) => Some values
                 | _ => None
                 end).
Proof.
  intros H Hne sp. unfold Page.parse_html in H.
  destruct selectors as [|sel selectors]; [contradiction|].
  apply (extract_spec sp (sel :: selectors) [] [] d H).
  - constructor.
  - reflexivity.
  - reflexivity.
Qed.

(** X8. What [parse_html] returns for selectors, when [select] reads
    the CSS of each of them: a dictionary whose keys are the names of the
    selectors, each once; the values of a name are those that the last
    selector of that name extracts, the earlier ones of the same name are
    overwritten. *)
Theorem parse_html_keys html selectors d :
  parse_html html selectors = inr d -> selectors <> [] ->
  let sp := BeautifulSoup html (if lxml_installed then "lxml" else "html.parser") in
  NoDup d.*1 /\
  (forall key, key ∈ d.*1 <-> key ∈ map name selectors) /\
  (forall key, dict_get key d
               = match last_named sp key selectors with
                 | Some (inr values) => Some values
                 | _ => None
                 end).
Proof. exact (parse_html_dict html selectors d). Qed.

(** X9. Every column of [write_csv] is a key of what [parse_html]
    returns for the same selectors, without selectors too ([title] and
    [h1]): no cell of the row of a page is the default of a missing
    key. *)
Theorem write_csv_columns_extracted html selectors d :
  parse_html html selectors = inr d ->
  Forall (fun c => is_Some (dict_get c d)) (csv_cols selectors).
Proof.
  intros H. destruct selectors as [|sel selectors].
  - unfold Page.parse_html in H.
    destruct (select _ "h1"); [discriminate|]. injection H as <-.
    repeat constructor; eexists; reflexivity.
  - destruct (parse_html_dict _ _ _ H) as (_ & Hk & _); [discriminate|].
    apply Forall_forall. intros c Hc. apply dict_get_in, Hk. exact Hc.
Qed.

End PageFacts.


(** * The chart page *)

Section ImdbFacts.

Variable soup node : Type.
Variable BeautifulSoup : string -> soup.
Variable find_main_column : soup -> option node.
Variable soup_title_anchors : soup -> list node.
Variable title_anchors : node -> list node.
Variable find_ul : node -> option node.
Variable find_all_li : node -> list node.
Variable first_href : node -> option string.
Variable href : node -> option string.
Variable urljoin : string -> string -> string.

Local Abbreviation item_links := (Imdb.item_links node first_href urljoin).
Local Abbreviation parse_chart_links :=
  (Imdb.parse_chart_links soup node BeautifulSoup find_main_column
     soup_title_anchors title_anchors find_ul find_all_li first_href href urljoin).

Lemma unique_from_spec links : forall seen,
  NoDup (Imdb.unique_from seen links) /\
  (forall u, u ∈ Imdb.unique_from seen links <-> u ∈ links /\ u ∉ seen) /\
  sublist (Imdb.unique_from seen links) links.
Proof.
  induction links as [|v links IH]; intros seen; cbn [Imdb.unique_from].
  - split; [constructor|]. split; [|constructor].
    intros u. split; [intros H; inversion H | intros [H _]; inversion H].
  - destruct (decide (v ∈ seen)) as [Hv|Hv].
    + destruct (IH seen) as (Hnd & Hin & Hsub).
      split; [assumption|]. split; [|apply sublist_cons; assumption].
      intros u. rewrite Hin, elem_of_cons. split; [tauto|].
      intros [[->|H] Hs]; [contradiction | tauto].
    + destruct (IH ({[v]} ∪ seen)) as (Hnd & Hin & Hsub).
      split; [|split; [|apply sublist_skip; assumption]].
      * constructor; [|assumption]. rewrite Hin. intros [_ Hn]. apply Hn.
        apply elem_of_union. left. apply elem_of_singleton. reflexivity.
      * intros u. rewrite !elem_of_cons, Hin, elem_of_union, elem_of_singleton.
        destruct (decide (u = v)) as [->|Hne]; tauto.
Qed.

Lemma item_links_in items u :
  u ∈ item_links items <->
  exists li h, li ∈ items /\ first_href li = Some h /\
               Imdb.substring_in "/title/tt" h = true /\
               u = urljoin "https://www.imdb.com" h.
Proof.
  unfold Imdb.item_links. rewrite list_elem_of_omap. split.
  - intros (li & Hli & H). destruct (first_href li) as [h|] eqn:Eh; [|discriminate].
    destruct (Imdb.substring_in "/title/tt" h) eqn:Es; [|discriminate].
    injection H as <-. eauto 10.
  - intros (li & h & Hli & Eh & Es & ->). exists li. rewrite Eh, Es. auto.
Qed.

(** X10. On a chart page with its main column and the list in it,
    [parse_chart_links] returns every link once: the links are those of
    the list items whose first anchor with an [href] has [/title/tt] in
    it, joined to [https://www.imdb.com], in the order of the items,
    each at its first place. *)
Theorem parse_chart_links_unique html container ul :
  find_main_column (BeautifulSoup html) = Some container ->
  find_ul container = Some ul ->
  NoDup (parse_chart_links html) /\
  (forall u, u ∈ parse_chart_links html <->
     exists li h, li ∈ find_all_li ul /\ first_href li = Some h /\
                  Imdb.substring_in "/title/tt" h = true /\
                  u = urljoin "https://www.imdb.com" h) /\
  sublist (parse_chart_links html) (item_links (find_all_li ul)).
Proof.
  intros Hc Hul. unfold Imdb.parse_chart_links. rewrite Hc, Hul.
  destruct (unique_from_spec (item_links (find_all_li ul)) ∅) as (Hnd & Hin & Hsub).
  split; [assumption|]. split; [|assumption].
  intros u. rewrite Hin, item_links_in.
  pose proof (not_elem_of_empty (C := gset string) u). tauto.
Qed.

End ImdbFacts.


(** * From the batch to the CSV file *)

Section CsvOfBatch.

Variable netloc : string -> string.
Variable splitlines : string -> list string.
Variable rp_can_fetch : RobotFileParser -> string -> string -> bool.
Variable rp_parse_error : list string -> option exn.
Variable response_error : response -> exn.
Variable parse_html : string -> list Selector -> exn + Data.
Variable none_markup_error : exn.


End CsvOfBatch.


(** * Examples *)

(** The program with the small library. *)
Local Abbreviation toy_fetch := (fetch Toy.netloc Toy.response_error).
Local Abbreviation toy_can_fetch :=
  (can_fetch Toy.netloc Toy.splitlines Toy.rp_can_fetch Toy.rp_parse_error).
Local Abbreviation server_error := Toy.server_error.
Local Abbreviation toy_scrape_many :=
  (scrape_many Toy.netloc Toy.splitlines Toy.rp_can_fetch Toy.rp_parse_error Toy.response_error
     Toy.parse_html Toy.none_markup_error).

(** Three failed attempts out of three: the timeout of the third one is
    raised, after the requests and sleeps [get, 1s, get, 2s, get]; and a
    page served on the second attempt is returned without a third one. *)
Lemma fetch_retry_policy_witness :
  (exists s' new,
     alone 0 (toy_fetch "http://a/x" 3 20 None)
       ([inl "reset"; server_error] ++ [inl "timeout"]) (fresh 0 10)
     = (Some (inl "timeout"), s', []) /\
     trace s' = new ++ [] /\
     fetch_view new
     = [Attempt "http://a/x"; Backoff 1; Attempt "http://a/x"; Backoff 2;
        Attempt "http://a/x"] /\
     Z.of_nat (attempts_in (fetch_view new)) = 3) /\
  (exists s' new,
     alone 0 (toy_fetch "http://a/x" 3 20 None)
       ([server_error] ++ [inr (mkResponse 200 (inr "<html>")); inl "unused"])
       (fresh 0 10)
     = (Some (inr (Some "<html>")), s', [inl "unused"]) /\
     trace s' = new ++ [] /\
     fetch_view new = [Attempt "http://a/x"; Backoff 1; Attempt "http://a/x"]).
Proof.
  destruct (fetch_retry_policy Toy.netloc Toy.response_error 0%nat "http://a/x"
              3 20 None (fresh 0 10)) as [Hfail Hok].
  - lia.
  - reflexivity.
  - reflexivity.
  - split.
    + apply (Hfail [inl "reset"; server_error] (inl "timeout") "timeout" []).
      * reflexivity.
      * repeat constructor; eexists; reflexivity.
      * reflexivity.
    + apply (Hok [server_error] (mkResponse 200 (inr "<html>")) "<html>" [inl "unused"]).
      * reflexivity.
      * repeat constructor; eexists; reflexivity.
      * reflexivity.
      * reflexivity.
Defined.

(** C4 as stated fails on a status that is neither 2xx nor an error for
    aiohttp: with [retries = 3] and a server that answers 300 every time,
    the first attempt is the only one, and its text is returned. *)
Lemma fetch_status_300_not_retried :
  let multiple := inr (mkResponse 300 (inr "choices")) in
  exists s',
    alone 0 (toy_fetch "http://a/x" 3 20 None) [multiple; multiple; multiple]
      (fresh 0 10)
    = (Some (inr (Some "choices")), s', [multiple; multiple]) /\
    fetch_view (trace s') = [Attempt "http://a/x"].
Proof. eexists. split; reflexivity. Qed.

Lemma fetch_without_attempts_witness :
  toy_fetch "http://a/x" 0 20 None = SemAcquire (SemRelease (Ret (inr None))) /\
  (0 < sem_value (fresh 0 10) ->
   alone 0 (toy_fetch "http://a/x" 0 20 None) [inl "unused"] (fresh 0 10)
   = (Some (inr None), sem_release 0 (sem_acquire 0 (fresh 0 10)), [inl "unused"])).
Proof.
  apply (fetch_without_attempts Toy.netloc Toy.response_error 0%nat
           "http://a/x" 0 20 None [inl "unused"] (fresh 0 10)).
  lia.
Defined.

Lemma can_fetch_allows_when_robots_unavailable_witness :
  exists s',
    alone 0 (toy_can_fetch (mkRobotsCache "bot") "http://a/x")
      [inr (mkResponse 404 (inr "Disallow: /"))] (fresh 0 10)
    = (Some (inr true), s', []) /\
    cache s' = <[Toy.netloc "http://a/x" := []]> (cache (fresh 0 10)) /\
    robots_lock s' = None /\
    forall me' u' net', Toy.netloc u' = Toy.netloc "http://a/x" ->
      exists s'',
        alone me' (toy_can_fetch (mkRobotsCache "bot") u') net' s'
        = (Some (inr true), s'', net') /\
        requests (trace s'') = requests (trace s') /\
        cache s'' = cache s'.
Proof.
  apply (can_fetch_allows_when_robots_unavailable Toy.netloc Toy.splitlines
           Toy.rp_can_fetch Toy.rp_parse_error 0%nat (mkRobotsCache "bot") "http://a/x"
           (inr (mkResponse 404 (inr "Disallow: /"))) [] (fresh 0 10)).
  - reflexivity.
  - reflexivity.
  - reflexivity.
  - left. simpl. lia.
Defined.

(** ** Batches *)

(** Two URLs of host [a] with [delay = 1] per host: the second request
    goes out one second after the first. *)
Lemma requests_spaced_by_delay_witness :
  exists w0 w rest,
    toy_scrape_many 0 Toy.urls [] 10 None 1 true false = inr w0 /\
    exec (Toy.two_for_a ++ [Toy.after_ 1 1]) w0 = Some w /\
    trace (state w) = EvGet 1 InFetch "http://a/2" 1 :: rest /\
    (0 + 1 <= 1)%Q.
Proof.
  eexists _, _, _. split; [vm_compute; reflexivity|].
  split; [vm_compute; reflexivity|]. split; [vm_compute; reflexivity|].
  eapply (requests_spaced_by_delay Toy.netloc Toy.splitlines Toy.rp_can_fetch Toy.rp_parse_error
            Toy.response_error Toy.parse_html Toy.none_markup_error
            0 Toy.urls [] 10 None 1 true false _
            (Toy.two_for_a ++ [Toy.after_ 1 1]) _ []
            [EvUnlock 1 RateLock; EvSemAcquire 2; EvSleep 1 InWait 1 0;
             EvLock 1 RateLock; EvSemAcquire 1]
            [EvUnlock 0 RateLock; EvLock 0 RateLock; EvSemAcquire 0]
            0%nat "http://a/1" 0 1%nat "http://a/2" 1).
  - reflexivity.
  - vm_compute; reflexivity.
  - vm_compute; reflexivity.
  - vm_compute; reflexivity.
  - reflexivity.
Defined.

(** The batch of one URL whose three attempts fail: one result, for that
    URL; and every run of the batch of three URLs can be completed. *)
Lemma scrape_many_results_in_input_order_witness :
  (exists w0 w results,
     toy_scrape_many 0 ["http://a/1"] [] 1 None 0 false false = inr w0 /\
     exec Toy.failing_run w0 = Some w /\
     gather (tasks w) = Some (inr results) /\
     length results = 1%nat /\ map url results = ["http://a/1"]) /\
  (exists w0,
     toy_scrape_many 0 Toy.urls [] 10 None 1 true false = inr w0 /\
     forall cs w, exec cs w0 = Some w ->
       (length cs <= 19 * length Toy.urls)%nat /\
       exists cs' w' results,
         exec cs' w = Some w' /\ gather (tasks w') = Some (inr results) /\
         map url results = Toy.urls).
Proof.
  split.
  - eexists _, _, _. split; [vm_compute; reflexivity|].
    split; [vm_compute; reflexivity|]. split; [vm_compute; reflexivity|].
    destruct (scrape_many_results_in_input_order Toy.netloc Toy.splitlines
                Toy.rp_can_fetch Toy.rp_parse_error Toy.response_error Toy.parse_html
                Toy.none_markup_error 0 ["http://a/1"] [] 1 None 0 false false
                _ ltac:(vm_compute; reflexivity)) as [Hall _].
    destruct (Hall Toy.failing_run _ _ ltac:(vm_compute; reflexivity)
                ltac:(vm_compute; reflexivity)) as (results & Hres & Hlen & Hmap).
    injection Hres as <-. split; assumption.
  - eexists. split; [vm_compute; reflexivity|].
    apply (scrape_many_results_in_input_order Toy.netloc Toy.splitlines
             Toy.rp_can_fetch Toy.rp_parse_error Toy.response_error Toy.parse_html
             Toy.none_markup_error 0 Toy.urls [] 10 None 1 true false _
             ltac:(vm_compute; reflexivity)).
    lia.
Defined.



(** Two URLs of host [a], whose [robots.txt] has a line that [rp.parse]
    cannot read: two requests for it, no rules in the cache, and both
    URLs fail with the exception. *)
Lemma robots_refetched_when_parse_raises_witness :
  exists w0,
    toy_scrape_many 0 ["http://a/1"; "http://a/2"] [] 10 None 0 false true
    = inr w0 /\
    exists w t t',
    exec ([Toy.answered Toy.bad_robots_txt 0; Toy.answered Toy.bad_robots_txt 0;
           Toy.answered Toy.bad_robots_txt 0]
          ++ [Toy.answered Toy.bad_robots_txt 1; Toy.answered Toy.bad_robots_txt 1;
              Toy.answered Toy.bad_robots_txt 1]) w0 = Some w /\
    robots_fetches (Toy.netloc "http://a/1") (trace (state w)) = 2%nat /\
    cache (state w) !! Toy.netloc "http://a/1" = None /\
    tasks w !! 0%nat = Some t /\
    code t = Ret (inr (failed "http://a/1" "Invalid IPv6 URL")) /\
    tasks w !! 1%nat = Some t' /\
    code t' = Ret (inr (failed "http://a/2" "Invalid IPv6 URL")).
Proof.
  eexists. unfold Toy.answered, Toy.bad_robots_txt.
  split; [vm_compute; reflexivity|].
  apply (robots_refetched_when_parse_raises Toy.netloc Toy.splitlines
           Toy.rp_can_fetch Toy.rp_parse_error Toy.response_error
           Toy.parse_html Toy.none_markup_error 0 "http://a/1" "http://a/2" []
           [] 10 None 0 false (mkResponse 200 (inr "Disallow: //[x"))
           "Disallow: //[x" "Invalid IPv6 URL" _
           ltac:(vm_compute; reflexivity)); try reflexivity.
  discriminate.
Defined.

(** Three tasks in their [async with semaphore] out of ten slots. *)
Lemma semaphore_bounds_fetch_sections_witness :
  exists w0 w,
    toy_scrape_many 0 Toy.urls [] 10 None 1 true false = inr w0 /\
    exec Toy.two_for_a w0 = Some w /\
    sections (trace (state w)) 3 = [0; 1; 2]%nat /\
    sem_value (state w) = 7 /\
    Z.of_nat (length (sections (trace (state w)) (length Toy.urls))) <= 10 /\
    Z.of_nat (length (sections (trace (state w)) (length Toy.urls)))
    = 10 - sem_value (state w) /\
    (forall i u, Toy.urls !! i = Some u -> (takes i (trace (state w)) <= 1)%nat) /\
    (forall i u later e earlier,
       Toy.urls !! i = Some u ->
       trace (state w) = later ++ e :: earlier -> works i e = true ->
       existsb (took_slot i) earlier = true /\
       existsb (gave_slot i) earlier = false).
Proof.
  eexists _, _. split; [vm_compute; reflexivity|].
  split; [vm_compute; reflexivity|]. split; [vm_compute; reflexivity|].
  split; [vm_compute; reflexivity|].
  apply (semaphore_bounds_fetch_sections Toy.netloc Toy.splitlines
           Toy.rp_can_fetch Toy.rp_parse_error Toy.response_error Toy.parse_html
           Toy.none_markup_error 0 Toy.urls [] 10 None 1 true false
           _ Toy.two_for_a _ ltac:(vm_compute; reflexivity)
           ltac:(vm_compute; reflexivity)).
Defined.

(** The second URL of the host whose [robots.txt] forbids everything:
    no slot, no request, and the disallow result in the turn in which
    its [can_fetch] returns. *)
Lemma disallowed_url_short_circuits_witness :
  exists w0 w1 w t,
    toy_scrape_many 0 ["http://a/1"; "http://a/2"] [] 10 None 0 false true
    = inr w0 /\
    exec [Toy.go 0; Toy.answered Toy.robots_txt 0; Toy.go 0] w0 = Some w1 /\
    step (Toy.go 1) w1 = Some w /\
    exec Toy.robots_run w0 = Some w /\
    tasks w !! 1%nat = Some t /\
    existsb (took_slot 1) (trace (state w)) = false /\
    existsb (works 1) (trace (state w)) = false /\
    sent 1 (trace (state w)) = 0 /\
    code t = Ret (inr (mkResult "http://a/2" false None
                         (Some "Disallowed by robots.txt"))).
Proof.
  eexists _, _, _, _. split; [vm_compute; reflexivity|].
  split; [vm_compute; reflexivity|]. split; [vm_compute; reflexivity|].
  split; [vm_compute; reflexivity|]. split; [vm_compute; reflexivity|].
  destruct (disallowed_url_short_circuits Toy.netloc Toy.splitlines
              Toy.rp_can_fetch Toy.rp_parse_error Toy.response_error
              Toy.parse_html Toy.none_markup_error 0
              ["http://a/1"; "http://a/2"] [] 10 None
              0 false _ Toy.robots_run _ 1%nat "http://a/2" _ ["Disallow: /"]
              ltac:(vm_compute; reflexivity) ltac:(vm_compute; reflexivity)
              ltac:(reflexivity) ltac:(vm_compute; reflexivity)
              ltac:(vm_compute; reflexivity) ltac:(reflexivity))
    as (H1 & H2 & H3 & _ & H5).
  split; [exact H1|]. split; [exact H2|]. split; [exact H3|].
  eapply (H5 [Toy.go 0; Toy.answered Toy.robots_txt 0; Toy.go 0] (Toy.go 1) _);
    vm_compute; reflexivity.
Defined.

(** C9 as stated fails: the sleep of [wait] is inside [async with
    self._lock]. Task 1 sleeps in [wait] for host [a] and holds the lock
    of the limiter; task 2, for host [b] that nobody has asked yet, is at
    the lock and cannot be resumed, however much time passes, until the
    sleeper has gone on. *)
Lemma wait_sleeper_blocks_other_host :
  exists w0 w t1 t2 sleep_for kk kk',
    toy_scrape_many 0 Toy.urls [] 10 None 1 true false = inr w0 /\
    exec Toy.two_for_a w0 = Some w /\
    tasks w !! 1%nat = Some t1 /\ code t1 = Sleep InWait sleep_for kk /\
    rate_lock (state w) = Some 1%nat /\
    tasks w !! 2%nat = Some t2 /\ code t2 = LockAcquire RateLock kk' /\
    Toy.urls !! 2%nat = Some "http://b/1" /\
    per_host_next (state w) !! Toy.netloc "http://b/1" = None /\
    forall d ans, step (mkTurn 2 d ans) w = None.
Proof.
  eexists _, _, _, _, _, _, _. split; [vm_compute; reflexivity|].
  split; [vm_compute; reflexivity|]. split; [vm_compute; reflexivity|].
  split; [vm_compute; reflexivity|]. split; [vm_compute; reflexivity|].
  split; [vm_compute; reflexivity|]. split; [vm_compute; reflexivity|].
  split; [reflexivity|]. split; [vm_compute; reflexivity|].
  intros d ans. unfold step. cbn [dt pick answer].
  destruct (Qle_bool 0 d); reflexivity.
Qed.

(** Task 1 comes to the lock with host [a] taken for one second: it
    starts its sleep and keeps the lock. Asleep, it holds the lock and
    every task at the lock is blocked; resumed, it sets the entry of the
    host, releases the lock and sends its request. *)
Lemma wait_sleeps_with_the_lock_held_witness :
  exists w0 w1 w2 w t,
    toy_scrape_many 0 Toy.urls [] 10 None 1 true false = inr w0 /\
    exec [Toy.go 0; Toy.go 0; Toy.go 1] w0 = Some w1 /\
    step (Toy.go 1) w1 = Some w2 /\
    exec Toy.two_for_a w0 = Some w /\
    tasks w !! 1%nat = Some t /\
    trace (state w2)
    = EvSleep 1 InWait (1 - (0 + 0)) (0 + 0) :: EvLock 1 RateLock
        :: trace (state w1) /\
    rate_lock (state w) = Some 1%nat /\
    (next_of Toy.netloc (RateLimiter_init 1 true) "http://a/2" (state w)
     <= wake t)%Q /\
    (forall j t' kk' d ans,
       tasks w !! j = Some t' -> code t' = LockAcquire RateLock kk' ->
       step (mkTurn j d ans) w = None) /\
    (forall d ans w',
       step (mkTurn 1 d ans) w = Some w' ->
       let now := (clock (state w) + d)%Q in
       (wake t <= now)%Q /\
       rate_lock (state w') = None /\
       trace (state w')
       = EvGet 1 InFetch "http://a/2" now :: EvUnlock 1 RateLock
           :: trace (state w) /\
       next_of Toy.netloc (RateLimiter_init 1 true) "http://a/2" (state w')
       = (now + 1)%Q).
Proof.
  eexists _, _, _, _, _. split; [vm_compute; reflexivity|].
  split; [vm_compute; reflexivity|]. split; [vm_compute; reflexivity|].
  split; [vm_compute; reflexivity|]. split; [vm_compute; reflexivity|]. split.
  - destruct (wait_sleeps_with_the_lock_held Toy.netloc Toy.splitlines
                Toy.rp_can_fetch Toy.rp_parse_error Toy.response_error Toy.parse_html
                Toy.none_markup_error 0 Toy.urls [] 10 None 1 true false
                _ [Toy.go 0; Toy.go 0; Toy.go 1] _ 1%nat "http://a/2" _
                ltac:(reflexivity) ltac:(vm_compute; reflexivity)
                ltac:(vm_compute; reflexivity) ltac:(reflexivity)
                ltac:(vm_compute; reflexivity)) as [Hacquire _].
    destruct (Hacquire _ 0%Q Toy.page _ ltac:(vm_compute; reflexivity)
                ltac:(vm_compute; reflexivity)) as (_ & Hsleep & _).
    apply Hsleep. reflexivity.
  - destruct (wait_sleeps_with_the_lock_held Toy.netloc Toy.splitlines
                Toy.rp_can_fetch Toy.rp_parse_error Toy.response_error Toy.parse_html
                Toy.none_markup_error 0 Toy.urls [] 10 None 1 true false
                _ Toy.two_for_a _ 1%nat "http://a/2" _
                ltac:(reflexivity) ltac:(vm_compute; reflexivity)
                ltac:(vm_compute; reflexivity) ltac:(reflexivity)
                ltac:(vm_compute; reflexivity)) as [_ Hasleep].
    eapply Hasleep. vm_compute; reflexivity.
Defined.

(** ** The helpers and the pages *)

Lemma parse_selector_arg_fields_witness :
  parse_selector_arg Toy.isspace (" link " ++ "=" ++ " a[rel=next] ")
  = inr (mkSelector "link" "a[rel=next]" None) /\
  parse_selector_arg Toy.isspace
    (" link " ++ "=" ++ " a[rel=next] " ++ "@" ++ " href ")
  = inr (mkSelector "link" "a[rel=next]" (Some "href")).
Proof.
  apply (parse_selector_arg_fields Toy.isspace " link " " a[rel=next] " " href ");
    reflexivity.
Defined.

Local Abbreviation toy_parse_html :=
  (Page.parse_html Toy.isspace string string true Toy.BeautifulSoup
     Toy.title_string Toy.select Toy.get_text Toy.get).

(** Two selectors of one name: the second one gives the values; the
    value of a [class] is a list. *)
Lemma parse_html_keys_witness :
  let selectors := [mkSelector "t" "h1" None; mkSelector "u" "a" (Some "class");
                    mkSelector "t" "h2" None] in
  let d := [("t", [Str "h2"]); ("u", [Many ["a"; "wide"]])] in
  toy_parse_html "<html>" selectors = inr d /\
  NoDup d.*1 /\
  (forall key, key ∈ d.*1 <-> key ∈ map name selectors) /\
  (forall key,
     dict_get key d
     = match Page.last_named string string Toy.select Toy.get_text Toy.get
               "<html>" key selectors with
       | Some (inr values) => Some values
       | _ => None
       end).
Proof.
  split; [reflexivity|].
  apply (parse_html_keys Toy.isspace string string true Toy.BeautifulSoup
           Toy.title_string Toy.select Toy.get_text Toy.get "<html>"
           [mkSelector "t" "h1" None; mkSelector "u" "a" (Some "class");
            mkSelector "t" "h2" None]).
  - reflexivity.
  - discriminate.
Defined.

Lemma write_csv_columns_extracted_witness :
  toy_parse_html "<html>" []
  = inr [("title", [Str "<html>"]); ("h1", [Str "h1"])] /\
  Forall (fun c => is_Some (dict_get c [("title", [Str "<html>"]);
                                        ("h1", [Str "h1"])]))
    (csv_cols []).
Proof.
  split; [reflexivity|].
  apply (write_csv_columns_extracted Toy.isspace string string true
           Toy.BeautifulSoup Toy.title_string Toy.select Toy.get_text Toy.get
           "<html>" []).
  reflexivity.
Defined.

Local Abbreviation toy_parse_chart_links :=
  (Imdb.parse_chart_links string string (fun html => html) Toy.find_main_column
     (fun _ => []) (fun _ => []) Toy.find_ul Toy.find_all_li Toy.first_href
     Toy.first_href Toy.urljoin).

(** The film of the first and third items is returned once, the person
    of the second item is not. *)
Lemma parse_chart_links_unique_witness :
  toy_parse_chart_links "/title/tt1" = ["https://www.imdb.com/title/tt1"] /\
  NoDup (toy_parse_chart_links "/title/tt1") /\
  (forall u, u ∈ toy_parse_chart_links "/title/tt1" <->
     exists li h, li ∈ Toy.find_all_li "/title/tt1" /\
                  Toy.first_href li = Some h /\
                  Imdb.substring_in "/title/tt" h = true /\
                  u = Toy.urljoin "https://www.imdb.com" h) /\
  sublist (toy_parse_chart_links "/title/tt1")
    (Imdb.item_links string Toy.first_href Toy.urljoin
       (Toy.find_all_li "/title/tt1")).
Proof.
  split; [vm_compute; reflexivity|].
  apply (parse_chart_links_unique string string (fun html => html)
           Toy.find_main_column (fun _ => []) (fun _ => []) Toy.find_ul
           Toy.find_all_li Toy.first_href Toy.first_href Toy.urljoin
           "/title/tt1" "/title/tt1" "/title/tt1"); reflexivity.
Defined.

(** ** More calls and batches *)

Local Abbreviation toy_imdb_fetch := (imdb_fetch Toy.netloc Toy.response_error).
Local Abbreviation toy_scrape_one :=
  (scrape_one Toy.netloc Toy.splitlines Toy.rp_can_fetch Toy.rp_parse_error Toy.response_error
     Toy.parse_html Toy.none_markup_error).

(** A server error is raised at once. *)
Lemma imdb_fetch_single_attempt_witness :
  exists s' new,
    alone 0 (toy_imdb_fetch "http://a/x" None 20) [server_error; Toy.page]
      (fresh 0 10)
    = (Some (inl "ClientResponseError"), s', [Toy.page]) /\
    trace s' = new ++ trace (fresh 0 10) /\
    fetch_view new = [Attempt "http://a/x"] /\
    sem_value s' = sem_value (fresh 0 10) /\ rate_lock s' = None /\
    alone 0 (toy_fetch "http://a/x" 1 20 None) [server_error; Toy.page]
      (fresh 0 10)
    = (Some (inl "ClientResponseError"), s', [Toy.page]).
Proof.
  apply (imdb_fetch_single_attempt Toy.netloc Toy.response_error 0%nat
           "http://a/x" 20 None server_error [Toy.page] (fresh 0 10)).
  - reflexivity.
  - reflexivity.
Defined.

(** The rules of host [a] forbid everything: the first URL sends the
    request for them, the second URL is decided on the cache. A
    [robots.txt] that [rp.parse] cannot read: [can_fetch] raises, nothing
    is stored, and the next call for the host sends the request again. *)
Lemma can_fetch_caches_rules_witness :
  (exists s',
     requests (trace s')
     = EvGet 0 InRobots "https://a/robots.txt" 0 :: requests (trace (fresh 0 10)) /\
     robots_lock s' = None /\
     alone 0 (toy_can_fetch (mkRobotsCache "bot") "http://a/1")
       [Toy.robots_txt] (fresh 0 10)
     = (Some (inr false), s', []) /\
     cache s' = <[Toy.netloc "http://a/1" := ["Disallow: /"]]> (cache (fresh 0 10)) /\
     forall me' u' net', Toy.netloc u' = Toy.netloc "http://a/1" ->
       exists s'',
         alone me' (toy_can_fetch (mkRobotsCache "bot") u') net' s'
         = (Some (inr false), s'', net') /\
         requests (trace s'') = requests (trace s') /\
         cache s'' = cache s') /\
  (exists s',
     requests (trace s')
     = EvGet 0 InRobots "https://a/robots.txt" 0 :: requests (trace (fresh 0 10)) /\
     robots_lock s' = None /\
     alone 0 (toy_can_fetch (mkRobotsCache "bot") "http://a/1")
       [Toy.bad_robots_txt] (fresh 0 10)
     = (Some (inl "Invalid IPv6 URL"), s', []) /\
     cache s' = cache (fresh 0 10) /\
     forall me' u' o' net', Toy.netloc u' = Toy.netloc "http://a/1" ->
       exists r s'',
         alone me' (toy_can_fetch (mkRobotsCache "bot") u') (o' :: net') s'
         = (Some r, s'', net') /\
         requests (trace s'')
         = EvGet me' InRobots "https://a/robots.txt" (clock s')
             :: requests (trace s')).
Proof.
  split.
  - apply (can_fetch_caches_rules Toy.netloc Toy.splitlines Toy.rp_can_fetch
             Toy.rp_parse_error 0%nat (mkRobotsCache "bot") "http://a/1"
             Toy.robots_txt [] (fresh 0 10)); reflexivity.
  - apply (can_fetch_caches_rules Toy.netloc Toy.splitlines Toy.rp_can_fetch
             Toy.rp_parse_error 0%nat (mkRobotsCache "bot") "http://a/1"
             Toy.bad_robots_txt [] (fresh 0 10)); reflexivity.
Defined.

(** A page on the second attempt; the extraction of the toy library
    gives its text as the title. *)
Lemma scrape_one_extracts_or_reports_witness :
  exists s',
    alone 0 (toy_scrape_one "http://a/1" [] None None)
      ([server_error] ++ Toy.page :: []) (fresh 0 10)
    = (Some (inr (succeeded "http://a/1" [("title", [Str "<html>"])])), s', []) /\
    sem_value s' = sem_value (fresh 0 10).
Proof.
  apply (scrape_one_extracts_or_reports Toy.netloc Toy.splitlines
           Toy.rp_can_fetch Toy.rp_parse_error Toy.response_error Toy.parse_html
           Toy.none_markup_error 0%nat "http://a/1" [] None [server_error]
           Toy.page [] (fresh 0 10)).
  - reflexivity.
  - reflexivity.
  - reflexivity.
  - repeat constructor. eexists; reflexivity.
  - right. reflexivity.
Defined.

Lemma wait_without_delay_witness :
  delay (RateLimiter_init (-1) true) == 0 /\
  alone 0 (wait Toy.netloc (RateLimiter_init (-1) true) "http://a/1") []
    (lock 7 RateLock (fresh 0 10))
  = (Some tt, lock 7 RateLock (fresh 0 10), []).
Proof.
  apply (wait_without_delay Toy.netloc 0%nat (-1) true "http://a/1" []
           (lock 7 RateLock (fresh 0 10))).
  unfold Qle. simpl. lia.
Defined.

(** The URL whose three attempts fail was requested three times. *)
Lemma scrape_many_at_most_three_requests_witness :
  exists w0 w,
    toy_scrape_many 0 ["http://a/1"] [] 1 None 0 false false = inr w0 /\
    exec Toy.failing_run w0 = Some w /\
    sent 0 (trace (state w)) = 3 /\
    0 <= sent 0 (trace (state w)) <= 3.
Proof.
  eexists _, _. split; [vm_compute; reflexivity|].
  split; [vm_compute; reflexivity|]. split; [vm_compute; reflexivity|].
  apply (scrape_many_at_most_three_requests Toy.netloc Toy.splitlines
           Toy.rp_can_fetch Toy.rp_parse_error Toy.response_error Toy.parse_html
           Toy.none_markup_error 0 ["http://a/1"] [] 1 None 0 false false
           _ Toy.failing_run _ 0%nat "http://a/1"
           ltac:(vm_compute; reflexivity) ltac:(vm_compute; reflexivity)
           ltac:(reflexivity)).
Defined.

(** After the three failures the one slot is back. *)
Lemma scrape_many_ends_with_all_released_witness :
  exists w0 w,
    toy_scrape_many 0 ["http://a/1"] [] 1 None 0 false false = inr w0 /\
    exec Toy.failing_run w0 = Some w /\
    gather (tasks w) = Some (inr [failed "http://a/1" "timeout"]) /\
    sem_value (state w) = 1 /\ rate_lock (state w) = None /\
    robots_lock (state w) = None.
Proof.
  eexists _, _. split; [vm_compute; reflexivity|].
  split; [vm_compute; reflexivity|]. split; [vm_compute; reflexivity|].
  apply (scrape_many_ends_with_all_released Toy.netloc Toy.splitlines
           Toy.rp_can_fetch Toy.rp_parse_error Toy.response_error Toy.parse_html
           Toy.none_markup_error 0 ["http://a/1"] [] 1 None 0 false false
           _ Toy.failing_run _ _
           ltac:(vm_compute; reflexivity) ltac:(vm_compute; reflexivity)
           ltac:(vm_compute; reflexivity)).
Defined.

(** With [concurrency = 0] and [respect_robots], the two URLs that the
    rules of their host disallow end; nothing was fetched. Without
    [respect_robots] no task can be resumed even once, and [gather] does
    not return. *)
Lemma scrape_many_zero_concurrency_hangs_witness :
  (exists w0 w,
     toy_scrape_many 0 ["http://a/1"; "http://a/2"] [] 0 None 0 false true
     = inr w0 /\
     exec Toy.robots_run w0 = Some w /\
     gather (tasks w)
     = Some (inr [disallowed "http://a/1"; disallowed "http://a/2"]) /\
     (forall i u, ["http://a/1"; "http://a/2"] !! i = Some u ->
        existsb (took_slot i) (trace (state w)) = false /\
        existsb (works i) (trace (state w)) = false /\
        sent i (trace (state w)) = 0)) /\
  (exists w0,
     toy_scrape_many 0 ["http://a/1"; "http://a/2"] [] 0 None 0 false false
     = inr w0 /\
     (forall d ans, step (mkTurn 0 d ans) w0 = None) /\
     (forall d ans, step (mkTurn 1 d ans) w0 = None) /\
     gather (tasks w0) = None /\
     forall i t r, tasks w0 !! i = Some t -> code t <> Ret r).
Proof.
  split.
  - eexists _, _. split; [vm_compute; reflexivity|].
    split; [vm_compute; reflexivity|]. split; [vm_compute; reflexivity|].
    apply (scrape_many_zero_concurrency_hangs Toy.netloc Toy.splitlines
             Toy.rp_can_fetch Toy.rp_parse_error Toy.response_error
             Toy.parse_html Toy.none_markup_error 0
             ["http://a/1"; "http://a/2"] [] None 0
             false true _ Toy.robots_run _
             ltac:(vm_compute; reflexivity) ltac:(vm_compute; reflexivity)).
  - eexists. split; [vm_compute; reflexivity|].
    split; [|split].
    + intros d ans. unfold step. cbn [dt pick answer].
      destruct (Qle_bool 0 d); reflexivity.
    + intros d ans. unfold step. cbn [dt pick answer].
      destruct (Qle_bool 0 d); reflexivity.
    + destruct (scrape_many_zero_concurrency_hangs Toy.netloc Toy.splitlines
                  Toy.rp_can_fetch Toy.rp_parse_error Toy.response_error
                  Toy.parse_html Toy.none_markup_error 0
                  ["http://a/1"; "http://a/2"] [] None 0
                  false false _ [] _
                  ltac:(vm_compute; reflexivity) ltac:(reflexivity))
        as (_ & _ & Hhang).
      destruct (Hhang eq_refl) as [Hnone Hgather].
      split; [apply Hgather; discriminate | exact Hnone].
Defined.


(** Two URLs of host [a], whose [robots.txt] forbids everything: the
    second task decides on the cached rules, which stay in the cache
    when the first task is resumed no more and the second goes on. *)
Lemma cached_rules_are_final_witness :
  exists w0 w t,
    toy_scrape_many 0 ["http://a/1"; "http://a/2"] [] 10 None 0 false true
    = inr w0 /\
    exec Toy.robots_run w0 = Some w /\
    tasks w !! 1%nat = Some t /\
    cache (state w) !! Toy.netloc "http://a/2" = Some ["Disallow: /"] /\
    code t = Ret (inr (disallowed "http://a/2")) /\
    existsb (took_slot 1) (trace (state w)) = false /\
    forall cs' w', exec cs' w = Some w' ->
      cache (state w') !! "a" = Some ["Disallow: /"] /\
      robots_fetches "a" (trace (state w')) = robots_fetches "a" (trace (state w)).
Proof.
  eexists _, _, _. split; [vm_compute; reflexivity|].
  split; [vm_compute; reflexivity|]. split; [vm_compute; reflexivity|].
  split; [vm_compute; reflexivity|].
  destruct (cached_rules_are_final Toy.netloc Toy.splitlines
              Toy.rp_can_fetch Toy.rp_parse_error Toy.response_error
              Toy.parse_html Toy.none_markup_error 0
              ["http://a/1"; "http://a/2"] [] 10 None
              0 false _ Toy.robots_run _ ltac:(vm_compute; reflexivity)
              ltac:(vm_compute; reflexivity)) as (Hone & Hfinal).
  split; [|split].
  - vm_compute; reflexivity.
  - destruct (Hone 1%nat "http://a/2" _ ltac:(reflexivity)
                ltac:(vm_compute; reflexivity) ltac:(vm_compute; reflexivity))
      as [(e & text & _ & _ & Hslot)|(rp & _ & _)].
    + exact Hslot.
    + vm_compute; reflexivity.
  - intros cs' w'. apply Hfinal. vm_compute; reflexivity.
Defined.

